(** * lacc: the symbol table and scope resolution

    A shallow embedding of the two symbol-table implementations of the
    repository, [src/parser/symtab.c] (module [Parser]) and the older
    [src/symtab.c] (module [Legacy]), and the properties of the
    specification that are stated about them.

    Pointers to [struct symbol] are addresses into an explicit heap, so
    that the aliasing between the master symbol list, the scope tables,
    the cross-scope function table and the recycling pool is the one of
    the C code. *)

From Stdlib Require Import ZArith String Ascii List Bool Lia DecimalString
  DecimalZ.
From stdpp Require Import base tactics option list.

Set Warnings "-register-all".

Local Open Scope string_scope.
Local Open Scope Z_scope.

(** ** The collaborators of the symbol table *)

(** Modelled from the spec: the type representation component
    ([typetree.h], not part of the sources).  A [Type] handle of the C
    code is modelled by the tree it denotes; [T_ARRAY] with length [0]
    is the array of unknown length, the members of a function are its
    parameter types. *)
Inductive Ty : Type :=
| T_VOID
| T_CHAR
| T_INT
| T_POINTER (next : Ty)
| T_FUNCTION (next : Ty) (members : list Ty) (vararg : bool)
| T_ARRAY (next : Ty) (len : N).

Definition basic_type__void : Ty := T_VOID.
Definition basic_type__char : Ty := T_CHAR.
Definition basic_type__int : Ty := T_INT.

(** Modelled from the spec: structural equality of types. *)
Fixpoint type_equal (a b : Ty) {struct a} : bool :=
  match a, b with
  | T_VOID, T_VOID => true
  | T_CHAR, T_CHAR => true
  | T_INT, T_INT => true
  | T_POINTER x, T_POINTER y => type_equal x y
  | T_FUNCTION r1 m1 v1, T_FUNCTION r2 m2 v2 =>
      type_equal r1 r2 && Bool.eqb v1 v2 &&
      (fix members_equal (l1 l2 : list Ty) {struct l1} : bool :=
         match l1, l2 with
         | [], [] => true
         | x :: xs, y :: ys => type_equal x y && members_equal xs ys
         | _, _ => false
         end) m1 m2
  | T_ARRAY x n, T_ARRAY y m => type_equal x y && N.eqb n m
  | _, _ => false
  end.

Definition is_function (t : Ty) : bool :=
  match t with T_FUNCTION _ _ _ => true | _ => false end.

Definition is_array (t : Ty) : bool :=
  match t with T_ARRAY _ _ => true | _ => false end.

(** The element type of an array, the return type of a function, the
    pointee of a pointer. *)
Definition type_next (t : Ty) : Ty :=
  match t with
  | T_POINTER x | T_FUNCTION x _ _ | T_ARRAY x _ => x
  | _ => T_VOID
  end.

Definition nmembers (t : Ty) : nat :=
  match t with T_FUNCTION _ m _ => length m | _ => O end.

Definition type_array_len (t : Ty) : N :=
  match t with T_ARRAY _ n => n | _ => 0%N end.

Fixpoint size_of (t : Ty) : N :=
  match t with
  | T_VOID => 0
  | T_CHAR => 1
  | T_INT => 4
  | T_POINTER _ => 8
  | T_FUNCTION _ _ _ => 0
  | T_ARRAY x n => (n * size_of x)
  end%N.

(** [set_array_length] completes the array behind a handle in place; on
    a symbol this is a new value of its [type] field. *)
Definition set_array_length (t : Ty) (len : N) : Ty :=
  match t with T_ARRAY x _ => T_ARRAY x len | _ => t end.

Definition type_create_array (elem : Ty) (len : N) : Ty := T_ARRAY elem len.

(** [enum symtype] and [enum linkage] of [symtab.h]; the first
    constructor of each is the one with value zero. *)
Inductive symtype_t : Type :=
| SYM_DEFINITION
| SYM_TENTATIVE
| SYM_DECLARATION
| SYM_TYPEDEF
| SYM_STRING_VALUE
| SYM_CONSTANT
| SYM_LABEL
| SYM_TAG.

Inductive linkage_t : Type :=
| LINK_NONE
| LINK_INTERN
| LINK_EXTERN.

Definition symtype_eqb (a b : symtype_t) : bool :=
  match a, b with
  | SYM_DEFINITION, SYM_DEFINITION | SYM_TENTATIVE, SYM_TENTATIVE
  | SYM_DECLARATION, SYM_DECLARATION | SYM_TYPEDEF, SYM_TYPEDEF
  | SYM_STRING_VALUE, SYM_STRING_VALUE | SYM_CONSTANT, SYM_CONSTANT
  | SYM_LABEL, SYM_LABEL | SYM_TAG, SYM_TAG => true
  | _, _ => false
  end.

Definition linkage_eqb (a b : linkage_t) : bool :=
  match a, b with
  | LINK_NONE, LINK_NONE | LINK_INTERN, LINK_INTERN
  | LINK_EXTERN, LINK_EXTERN => true
  | _, _ => false
  end.

Lemma symtype_eqb_eq a b : symtype_eqb a b = true <-> a = b.
Proof. destruct a, b; simpl; split; congruence. Qed.

Lemma linkage_eqb_eq a b : linkage_eqb a b = true <-> a = b.
Proof. destruct a, b; simpl; split; congruence. Qed.

Lemma symtype_eqb_refl a : symtype_eqb a a = true.
Proof. by destruct a. Qed.

Lemma linkage_eqb_refl a : linkage_eqb a a = true.
Proof. by destruct a. Qed.

(** A C [int] with the wrap-around of two's complement written out
    (the counters of the source are [static int]). *)
Definition INT_MAX : Z := 2147483647.

Definition wrap_int (z : Z) : Z := (z + 2147483648) mod 4294967296 - 2147483648.

Lemma wrap_int_small z : -2147483648 <= z <= INT_MAX -> wrap_int z = z.
Proof. unfold wrap_int, INT_MAX. intros H. rewrite Z.mod_small; lia. Qed.

(** [printf]'s [%d]. *)
Definition fmt_d (z : Z) : string := NilZero.string_of_int (Z.to_int z).

(** [snprintf (buf, size, ...)] keeps at most [size - 1] characters of
    the formatted text. *)
Definition snprintf (size : nat) (formatted : string) : string :=
  String.substring 0 (size - 1) formatted.

(** The three namespaces [ns_ident], [ns_label] and [ns_tag]; a
    [struct namespace *] argument is one of their addresses. *)
Inductive ns_id : Type := ns_ident | ns_label | ns_tag.

Definition ns_id_eqb (a b : ns_id) : bool :=
  match a, b with
  | ns_ident, ns_ident | ns_label, ns_label | ns_tag, ns_tag => true
  | _, _ => false
  end.

(** ** The implementation of [src/parser/symtab.c] *)

Module Parser.

(** A [struct symbol *] is an address of the heap below. *)
Abbreviation ptr := nat (only parsing).

(** [union value] of a symbol: the bits of a constant, the payload of a
    string literal, or the symbol holding the address of a VLA; all
    bytes zero after [calloc] or [memset]. *)
Inductive value_t : Type :=
| V_ZERO
| V_CONSTANT (bits : Z)
| V_STRING (str : string)
| V_VLA_ADDRESS (sym : ptr).

Record symbol : Type := mk_symbol {
  name : string;
  n : Z;
  type : Ty;
  symtype : symtype_t;
  linkage : linkage_t;
  depth : nat;
  referenced : bool;
  stack_offset : Z;
  value : value_t;
}.

(** What [calloc (1, sizeof (struct symbol))] and
    [memset (sym, 0, sizeof ( *sym))] leave behind. *)
Definition zero_symbol : symbol :=
  {| name := ""; n := 0; type := T_VOID; symtype := SYM_DEFINITION;
     linkage := LINK_NONE; depth := O; referenced := false;
     stack_offset := 0; value := V_ZERO |}.

Definition set_name (x : string) (s : symbol) : symbol :=
  {| name := x; n := n s; type := type s; symtype := symtype s;
     linkage := linkage s; depth := depth s; referenced := referenced s;
     stack_offset := stack_offset s; value := value s |}.
Definition set_n (x : Z) (s : symbol) : symbol :=
  {| name := name s; n := x; type := type s; symtype := symtype s;
     linkage := linkage s; depth := depth s; referenced := referenced s;
     stack_offset := stack_offset s; value := value s |}.
Definition set_type (x : Ty) (s : symbol) : symbol :=
  {| name := name s; n := n s; type := x; symtype := symtype s;
     linkage := linkage s; depth := depth s; referenced := referenced s;
     stack_offset := stack_offset s; value := value s |}.
Definition set_symtype (x : symtype_t) (s : symbol) : symbol :=
  {| name := name s; n := n s; type := type s; symtype := x;
     linkage := linkage s; depth := depth s; referenced := referenced s;
     stack_offset := stack_offset s; value := value s |}.
Definition set_linkage (x : linkage_t) (s : symbol) : symbol :=
  {| name := name s; n := n s; type := type s; symtype := symtype s;
     linkage := x; depth := depth s; referenced := referenced s;
     stack_offset := stack_offset s; value := value s |}.
Definition set_depth (x : nat) (s : symbol) : symbol :=
  {| name := name s; n := n s; type := type s; symtype := symtype s;
     linkage := linkage s; depth := x; referenced := referenced s;
     stack_offset := stack_offset s; value := value s |}.
Definition set_referenced (x : bool) (s : symbol) : symbol :=
  {| name := name s; n := n s; type := type s; symtype := symtype s;
     linkage := linkage s; depth := depth s; referenced := x;
     stack_offset := stack_offset s; value := value s |}.
Definition set_value (x : value_t) (s : symbol) : symbol :=
  {| name := name s; n := n s; type := type s; symtype := symtype s;
     linkage := linkage s; depth := depth s; referenced := referenced s;
     stack_offset := stack_offset s; value := x |}.

(** [enum scope_state] and [struct scope]: a hash table of symbol
    pointers keyed by [sym_hash_key], that is by the name the symbol
    carries.  The table is the list of its entries in insertion
    order. *)
Inductive scope_state : Type :=
| SCOPE_CREATED
| SCOPE_INITIALIZED
| SCOPE_DIRTY.

Record scope : Type := mk_scope {
  state : scope_state;
  table : list ptr;
}.

(** [struct namespace]: [scope] is the storage of the array of scopes
    and [scope_len] its [array_len], which [push_scope] and [pop_scope]
    move without touching the frames past it. *)
Record namespace : Type := mk_namespace {
  symbol_list : list ptr;
  scope_frames : list scope;
  scope_len : nat;
  max_scope_depth : nat;
  cursor : nat;
}.

Definition empty_namespace : namespace :=
  {| symbol_list := []; scope_frames := []; scope_len := O;
     max_scope_depth := O; cursor := O |}.

(** The messages passed to [error]. *)
Inductive diagnostic : Type :=
| Undefined_label (emitted : string)
| Incompatible_declaration (nm : string) (old new : Ty)
| Conflicting_types (nm : string)
| Does_not_match_prior (nm : string)
| Duplicate_definition (nm : string).

(** The file's globals and function-local statics, together with the
    heap of symbols, the log of the diagnostic collaborator, the tag
    bindings handed to the type component and the addresses given back
    to [free]. *)
Record global : Type := mk_global {
  heap : list symbol;
  freed : list ptr;
  temporaries : list ptr;
  functions : list ptr;
  functions_init : bool;
  idents : namespace;
  labels : namespace;
  tags : namespace;
  n_sym_add : Z;
  n_temporary : Z;
  n_unnamed : Z;
  n_label : Z;
  n_constant : Z;
  n_string : Z;
  decl_memcpy : option ptr;
  sym_name_buffer : string;
  diagnostics : list diagnostic;
  type_tags : list (Ty * ptr);
}.

Definition initial : global :=
  {| heap := []; freed := []; temporaries := []; functions := [];
     functions_init := false; idents := empty_namespace;
     labels := empty_namespace; tags := empty_namespace;
     n_sym_add := 0; n_temporary := 0; n_unnamed := 0; n_label := 0;
     n_constant := 0; n_string := 0; decl_memcpy := None;
     sym_name_buffer := ""; diagnostics := []; type_tags := [] |}.

Definition with_heap (x : list symbol) (g : global) : global :=
  {| heap := x; freed := freed g; temporaries := temporaries g;
     functions := functions g; functions_init := functions_init g;
     idents := idents g; labels := labels g; tags := tags g;
     n_sym_add := n_sym_add g; n_temporary := n_temporary g;
     n_unnamed := n_unnamed g; n_label := n_label g;
     n_constant := n_constant g; n_string := n_string g;
     decl_memcpy := decl_memcpy g; sym_name_buffer := sym_name_buffer g;
     diagnostics := diagnostics g; type_tags := type_tags g |}.
Definition with_freed (x : list ptr) (g : global) : global :=
  {| heap := heap g; freed := x; temporaries := temporaries g;
     functions := functions g; functions_init := functions_init g;
     idents := idents g; labels := labels g; tags := tags g;
     n_sym_add := n_sym_add g; n_temporary := n_temporary g;
     n_unnamed := n_unnamed g; n_label := n_label g;
     n_constant := n_constant g; n_string := n_string g;
     decl_memcpy := decl_memcpy g; sym_name_buffer := sym_name_buffer g;
     diagnostics := diagnostics g; type_tags := type_tags g |}.
Definition with_temporaries (x : list ptr) (g : global) : global :=
  {| heap := heap g; freed := freed g; temporaries := x;
     functions := functions g; functions_init := functions_init g;
     idents := idents g; labels := labels g; tags := tags g;
     n_sym_add := n_sym_add g; n_temporary := n_temporary g;
     n_unnamed := n_unnamed g; n_label := n_label g;
     n_constant := n_constant g; n_string := n_string g;
     decl_memcpy := decl_memcpy g; sym_name_buffer := sym_name_buffer g;
     diagnostics := diagnostics g; type_tags := type_tags g |}.
Definition with_functions (x : list ptr) (i : bool) (g : global) : global :=
  {| heap := heap g; freed := freed g; temporaries := temporaries g;
     functions := x; functions_init := i;
     idents := idents g; labels := labels g; tags := tags g;
     n_sym_add := n_sym_add g; n_temporary := n_temporary g;
     n_unnamed := n_unnamed g; n_label := n_label g;
     n_constant := n_constant g; n_string := n_string g;
     decl_memcpy := decl_memcpy g; sym_name_buffer := sym_name_buffer g;
     diagnostics := diagnostics g; type_tags := type_tags g |}.
Definition with_namespaces (i l t : namespace) (g : global) : global :=
  {| heap := heap g; freed := freed g; temporaries := temporaries g;
     functions := functions g; functions_init := functions_init g;
     idents := i; labels := l; tags := t;
     n_sym_add := n_sym_add g; n_temporary := n_temporary g;
     n_unnamed := n_unnamed g; n_label := n_label g;
     n_constant := n_constant g; n_string := n_string g;
     decl_memcpy := decl_memcpy g; sym_name_buffer := sym_name_buffer g;
     diagnostics := diagnostics g; type_tags := type_tags g |}.
Definition with_counters (a t u l c s : Z) (g : global) : global :=
  {| heap := heap g; freed := freed g; temporaries := temporaries g;
     functions := functions g; functions_init := functions_init g;
     idents := idents g; labels := labels g; tags := tags g;
     n_sym_add := a; n_temporary := t; n_unnamed := u; n_label := l;
     n_constant := c; n_string := s;
     decl_memcpy := decl_memcpy g; sym_name_buffer := sym_name_buffer g;
     diagnostics := diagnostics g; type_tags := type_tags g |}.
Definition with_decl_memcpy (x : option ptr) (g : global) : global :=
  {| heap := heap g; freed := freed g; temporaries := temporaries g;
     functions := functions g; functions_init := functions_init g;
     idents := idents g; labels := labels g; tags := tags g;
     n_sym_add := n_sym_add g; n_temporary := n_temporary g;
     n_unnamed := n_unnamed g; n_label := n_label g;
     n_constant := n_constant g; n_string := n_string g;
     decl_memcpy := x; sym_name_buffer := sym_name_buffer g;
     diagnostics := diagnostics g; type_tags := type_tags g |}.
Definition with_sym_name_buffer (x : string) (g : global) : global :=
  {| heap := heap g; freed := freed g; temporaries := temporaries g;
     functions := functions g; functions_init := functions_init g;
     idents := idents g; labels := labels g; tags := tags g;
     n_sym_add := n_sym_add g; n_temporary := n_temporary g;
     n_unnamed := n_unnamed g; n_label := n_label g;
     n_constant := n_constant g; n_string := n_string g;
     decl_memcpy := decl_memcpy g; sym_name_buffer := x;
     diagnostics := diagnostics g; type_tags := type_tags g |}.
Definition with_diagnostics (x : list diagnostic) (g : global) : global :=
  {| heap := heap g; freed := freed g; temporaries := temporaries g;
     functions := functions g; functions_init := functions_init g;
     idents := idents g; labels := labels g; tags := tags g;
     n_sym_add := n_sym_add g; n_temporary := n_temporary g;
     n_unnamed := n_unnamed g; n_label := n_label g;
     n_constant := n_constant g; n_string := n_string g;
     decl_memcpy := decl_memcpy g; sym_name_buffer := sym_name_buffer g;
     diagnostics := x; type_tags := type_tags g |}.
Definition with_type_tags (x : list (Ty * ptr)) (g : global) : global :=
  {| heap := heap g; freed := freed g; temporaries := temporaries g;
     functions := functions g; functions_init := functions_init g;
     idents := idents g; labels := labels g; tags := tags g;
     n_sym_add := n_sym_add g; n_temporary := n_temporary g;
     n_unnamed := n_unnamed g; n_label := n_label g;
     n_constant := n_constant g; n_string := n_string g;
     decl_memcpy := decl_memcpy g; sym_name_buffer := sym_name_buffer g;
     diagnostics := diagnostics g; type_tags := x |}.

Definition get_ns (ns : ns_id) (g : global) : namespace :=
  match ns with
  | ns_ident => idents g
  | ns_label => labels g
  | ns_tag => tags g
  end.

Definition set_ns (ns : ns_id) (x : namespace) (g : global) : global :=
  match ns with
  | ns_ident => with_namespaces x (labels g) (tags g) g
  | ns_label => with_namespaces (idents g) x (tags g) g
  | ns_tag => with_namespaces (idents g) (labels g) x g
  end.

(** *** Control: return, [exit], a failed [assert], an invalid access *)

Inductive fault : Type :=
| Assertion_failed
| Invalid_access.

Inductive outcome (A : Type) : Type :=
| Return (a : A) (g : global)
| Exit (status : Z) (g : global)
| Fault (f : fault).
Arguments Return {A} a g.
Arguments Exit {A} status g.
Arguments Fault {A} f.

Definition M (A : Type) : Type := global -> outcome A.

Definition ret {A} (a : A) : M A := fun g => Return a g.

Definition bind {A B} (m : M A) (k : A -> M B) : M B :=
  fun g =>
    match m g with
    | Return a g' => k a g'
    | Exit c g' => Exit c g'
    | Fault f => Fault f
    end.

Notation "x <- m ;; k" := (bind m (fun x => k))
  (at level 100, m at next level, right associativity).
Notation "m ;;; k" := (bind m (fun _ => k))
  (at level 100, right associativity).

Definition gets {A} (f : global -> A) : M A := fun g => Return (f g) g.
Definition modify (f : global -> global) : M unit := fun g => Return tt (f g).
Definition exit {A} (status : Z) : M A := fun g => Exit status g.
Definition fail {A} (f : fault) : M A := fun _ => Fault f.
Definition c_assert (b : bool) : M unit :=
  if b then ret tt else fail Assertion_failed.
Definition when (b : bool) (m : M unit) : M unit := if b then m else ret tt.

Definition is_Some_b {A} (o : option A) : bool :=
  match o with Some _ => true | None => false end.

(** [error (fmt, ...)] of the diagnostic collaborator ([context.h] and
    [error.h], not part of the sources): the message is reported and
    control comes back, as the call sites of both files show, which
    follow it with [exit (1)] wherever the error is to end the
    compilation. *)
Definition error (d : diagnostic) : M unit :=
  modify (fun g => with_diagnostics (diagnostics g ++ [d]) g).

Definition load (p : ptr) : M symbol :=
  fun g =>
    match heap g !! p with
    | Some s => Return s g
    | None => Fault Invalid_access
    end.

Definition update (p : ptr) (f : symbol -> symbol) : M unit :=
  fun g =>
    match heap g !! p with
    | Some s => Return tt (with_heap (<[p := f s]> (heap g)) g)
    | None => Fault Invalid_access
    end.

Definition free (p : ptr) : M unit :=
  modify (fun g => with_freed (freed g ++ [p]) g).

Definition update_ns (ns : ns_id) (f : namespace -> namespace) : M unit :=
  modify (fun g => set_ns ns (f (get_ns ns g)) g).

Fixpoint foreach {A} (l : list A) (body : A -> M unit) : M unit :=
  match l with
  | [] => ret tt
  | x :: rest => body x ;;; foreach rest body
  end.

Definition with_symbol_list (x : list ptr) (s : namespace) : namespace :=
  {| symbol_list := x; scope_frames := scope_frames s;
     scope_len := scope_len s; max_scope_depth := max_scope_depth s;
     cursor := cursor s |}.
Definition with_scopes (f : list scope) (len maxd : nat) (s : namespace)
  : namespace :=
  {| symbol_list := symbol_list s; scope_frames := f; scope_len := len;
     max_scope_depth := maxd; cursor := cursor s |}.

(** *** Dynamic arrays and hash tables *)

Definition array_push_back {A} (l : list A) (x : A) : list A := l ++ [x].

Definition array_pop_back {A} (l : list A) : option (A * list A) :=
  match rev l with
  | x :: r => Some (x, rev r)
  | [] => None
  end.

(** [sym_hash_key]: the key of a table entry is read through the
    pointer, it is the name the symbol has when the table is probed. *)
Definition sym_hash_key (h : list symbol) (ref : ptr) : option string :=
  name <$> h !! ref.

Definition has_key (h : list symbol) (key : string) (ref : ptr) : bool :=
  match sym_hash_key h ref with
  | Some k => String.eqb k key
  | None => false
  end.

(** Modelled from the spec: the lookup table (name to symbol) of
    [hash.h], which is not part of the sources.  A table holds one entry
    per key: inserting under a key that is present keeps the entry that
    is there. *)
Definition hash_lookup (h : list symbol) (tab : list ptr) (key : string)
  : option ptr :=
  List.find (has_key h key) tab.

Definition hash_insert (h : list symbol) (tab : list ptr) (ref : ptr)
  : list ptr :=
  match sym_hash_key h ref with
  | Some k =>
      match hash_lookup h tab k with
      | Some _ => tab
      | None => tab ++ [ref]
      end
  | None => tab
  end.

(** *** The functions of the file *)

Definition alloc_sym : M ptr :=
  pool <- gets temporaries ;;
  match array_pop_back pool with
  | Some (sym, rest) =>
      modify (with_temporaries rest) ;;;
      update sym (fun _ => zero_symbol) ;;;
      ret sym
  | None =>
      sym <- gets (fun g => length (heap g)) ;;
      modify (fun g => with_heap (heap g ++ [zero_symbol]) g) ;;;
      ret sym
  end.

Definition sym_lookup_function (nm : string) : M (option ptr) :=
  init <- gets functions_init ;;
  when (negb init) (modify (with_functions [] true)) ;;;
  gets (fun g => hash_lookup (heap g) (functions g) nm).

Definition sym_clear_buffers : M unit :=
  pool <- gets temporaries ;;
  foreach pool free ;;;
  modify (with_temporaries []) ;;;
  modify (fun g => with_functions [] (functions_init g) g).

Definition push_scope (ns : ns_id) : M unit :=
  s <- gets (get_ns ns) ;;
  if (scope_len s <? max_scope_depth s)%nat then
    c_assert (scope_len s <? length (scope_frames s))%nat ;;;
    match scope_frames s !! scope_len s with
    | Some sc =>
        let sc' :=
          match state sc with
          | SCOPE_INITIALIZED => mk_scope SCOPE_DIRTY (table sc)
          | _ => sc
          end in
        update_ns ns
          (with_scopes (<[scope_len s := sc']> (scope_frames s))
             (S (scope_len s)) (max_scope_depth s))
    | None => fail Invalid_access
    end
  else
    update_ns ns
      (with_scopes
         (array_push_back (take (scope_len s) (scope_frames s))
            (mk_scope SCOPE_CREATED []))
         (S (scope_len s)) (S (max_scope_depth s))).

Definition current_scope_depth (ns : ns_id) : M nat :=
  d <- gets (fun g => scope_len (get_ns ns g)) ;;
  c_assert (0 <? d)%nat ;;;
  ret (d - 1)%nat.

(** The text [sym_name] leaves in its static buffer for a symbol with a
    counter. *)
Definition sym_name_text (sym : symbol) : string :=
  match name sym with
  | String "." _ => snprintf 128 (name sym ++ fmt_d (n sym))
  | _ => snprintf 128 (name sym ++ "." ++ fmt_d (n sym))
  end.

(** The [const char *] that [sym_name] returns: the interned name, or
    the address of the static buffer. *)
Inductive cstr : Type :=
| Raw (text : string)
| Static_buffer.

Definition read_cstr (c : cstr) (g : global) : string :=
  match c with
  | Raw text => text
  | Static_buffer => sym_name_buffer g
  end.

Definition sym_name (sym : ptr) : M cstr :=
  s <- load sym ;;
  if n s =? 0 then ret (Raw (name s))
  else
    modify (with_sym_name_buffer (sym_name_text s)) ;;;
    ret Static_buffer.

(** The characters behind the result of [sym_name], read at once. *)
Definition emitted_name (sym : symbol) : string :=
  if n sym =? 0 then name sym else sym_name_text sym.

Definition pop_scope (ns : ns_id) : M unit :=
  s <- gets (get_ns ns) ;;
  c_assert (0 <? scope_len s)%nat ;;;
  if (scope_len s =? 1)%nat then
    (* the tables of the frames [0 .. max_scope_depth) are destroyed *)
    (if (max_scope_depth s <=? length (scope_frames s))%nat
     then ret tt else fail Invalid_access) ;;;
    update_ns ns (with_scopes [] 0 0) ;;;
    foreach (symbol_list s) (fun sym =>
      x <- load sym ;;
      when (ns_id_eqb ns ns_label && symtype_eqb (symtype x) SYM_TENTATIVE)
        (c <- sym_name sym ;;
         text <- gets (read_cstr c) ;;
         error (Undefined_label text)) ;;;
      free sym) ;;;
    update_ns ns (with_symbol_list []) ;;;
    when (ns_id_eqb ns ns_ident) sym_clear_buffers
  else
    update_ns ns (fun s =>
      with_scopes (scope_frames s) (scope_len s - 1) (max_scope_depth s) s).

Fixpoint scan_scopes (h : list symbol) (frames : list scope) (nm : string)
    (k : nat) : option ptr :=
  match k with
  | O => None
  | S i =>
      match frames !! i with
      | Some sc =>
          match state sc with
          | SCOPE_INITIALIZED =>
              match hash_lookup h (table sc) nm with
              | Some sym => Some sym
              | None => scan_scopes h frames nm i
              end
          | _ => scan_scopes h frames nm i
          end
      | None => None
      end
  end.

(** The loop runs [i] from [array_len - 1] down to [0]; its first step
    is outside the array exactly when the length exceeds the storage. *)
Definition sym_lookup (ns : ns_id) (nm : string) : M (option ptr) :=
  s <- gets (get_ns ns) ;;
  (if (scope_len s <=? length (scope_frames s))%nat
   then ret tt else fail Invalid_access) ;;;
  h <- gets heap ;;
  match scan_scopes h (scope_frames s) nm (scope_len s) with
  | Some sym =>
      update sym (set_referenced true) ;;;
      ret (Some sym)
  | None => ret None
  end.

Definition apply_type (sym : ptr) (ty : Ty) : M unit :=
  s <- load sym ;;
  if type_equal (type s) ty
     && negb (is_function (type s)
              && negb (symtype_eqb (symtype s) SYM_DEFINITION))
  then ret tt
  else
    conflict <-
      match type s with
      | T_FUNCTION _ _ _ =>
          if is_function ty
             && type_equal (type_next (type s)) (type_next ty)
          then
            let conflict := negb (nmembers (type s) =? nmembers ty)%nat in
            when (negb conflict) (update sym (set_type ty)) ;;;
            ret conflict
          else ret true
      | T_ARRAY _ _ =>
          if is_array ty
             && type_equal (type_next (type s)) (type_next ty)
          then
            when (size_of (type s) =? 0)%N
              (c_assert (negb (size_of ty =? 0)%N) ;;;
               update sym
                 (set_type (set_array_length (type s) (type_array_len ty)))) ;;;
            ret false
          else ret true
      | _ => ret true
      end ;;
    when conflict
      (s' <- load sym ;;
       error (Incompatible_declaration (name s') (type s') ty) ;;;
       exit 1).

Definition sym_make_visible (ns : ns_id) (sym : ptr) : M unit :=
  s <- gets (get_ns ns) ;;
  match scope_len s, scope_frames s !! (scope_len s - 1)%nat with
  | S _, Some sc =>
      let tab :=
        match state sc with
        | SCOPE_CREATED => []
        | SCOPE_DIRTY => []
        | SCOPE_INITIALIZED => table sc
        end in
      h <- gets heap ;;
      update_ns ns (fun s =>
        with_scopes
          (<[(scope_len s - 1)%nat :=
               mk_scope SCOPE_INITIALIZED (hash_insert h tab sym)]>
             (scope_frames s))
          (scope_len s) (max_scope_depth s) s)
  | _, _ => fail Invalid_access
  end.

Definition type_set_tag (ty : Ty) (sym : ptr) : M unit :=
  modify (fun g => with_type_tags (type_tags g ++ [(ty, sym)]) g).

(** [++n] on one of the [static int n] counters. *)
Definition next_counter (read : global -> Z) (write : Z -> global -> global)
  : M Z :=
  c <- gets read ;;
  modify (write (wrap_int (c + 1))) ;;;
  ret (wrap_int (c + 1)).

Definition bump_sym_add : M Z :=
  next_counter n_sym_add (fun x g =>
    with_counters x (n_temporary g) (n_unnamed g) (n_label g)
      (n_constant g) (n_string g) g).
Definition bump_temporary : M Z :=
  next_counter n_temporary (fun x g =>
    with_counters (n_sym_add g) x (n_unnamed g) (n_label g)
      (n_constant g) (n_string g) g).
Definition bump_unnamed : M Z :=
  next_counter n_unnamed (fun x g =>
    with_counters (n_sym_add g) (n_temporary g) x (n_label g)
      (n_constant g) (n_string g) g).
Definition bump_label : M Z :=
  next_counter n_label (fun x g =>
    with_counters (n_sym_add g) (n_temporary g) (n_unnamed g) x
      (n_constant g) (n_string g) g).
Definition bump_constant : M Z :=
  next_counter n_constant (fun x g =>
    with_counters (n_sym_add g) (n_temporary g) (n_unnamed g) (n_label g)
      x (n_string g) g).
Definition bump_string : M Z :=
  next_counter n_string (fun x g =>
    with_counters (n_sym_add g) (n_temporary g) (n_unnamed g) (n_label g)
      (n_constant g) x g).

(** The first block of [sym_add]: the lookup, and the coercion of a
    function declaration to the symbol of the cross-scope table, which
    returns from [sym_add] ([inl]); otherwise the block is left with the
    visible symbol, if any ([inr]). *)
Definition sym_add_resolve (ns : ns_id) (nm : string) (ty : Ty)
    (kind : symtype_t) : M (ptr + option ptr) :=
  if negb (symtype_eqb kind SYM_STRING_VALUE) then
    found <- sym_lookup ns nm ;;
    match found with
    | None =>
        if is_function ty then
          c_assert (ns_id_eqb ns ns_ident) ;;;
          f <- sym_lookup_function nm ;;
          match f with
          | Some sym =>
              apply_type sym ty ;;;
              sym_make_visible ns sym ;;;
              d <- current_scope_depth ns ;;
              s <- load sym ;;
              when (d <? depth s)%nat
                (d' <- current_scope_depth ns ;;
                 update sym (set_depth d')) ;;;
              ret (inl sym)
          | None => ret (inr None)
          end
        else ret (inr None)
    | Some sym => ret (inr (Some sym))
    end
  else ret (inr None).

(** The creation of a new symbol, the last part of [sym_add]. *)
Definition sym_add_create (ns : ns_id) (nm : string) (ty : Ty)
    (kind : symtype_t) (link : linkage_t) : M ptr :=
  sym <- alloc_sym ;;
  d <- current_scope_depth ns ;;
  update sym (set_depth d) ;;;
  update sym (set_name nm) ;;;
  update sym (set_type ty) ;;;
  update sym (set_symtype kind) ;;;
  update sym (set_linkage link) ;;;
  memcpy_seen <- gets decl_memcpy ;;
  when (negb (is_Some_b memcpy_seen) && String.eqb "memcpy" nm)
    (modify (with_decl_memcpy (Some sym))) ;;;
  when (linkage_eqb link LINK_INTERN && negb (d =? 0)%nat)
    (c <- bump_sym_add ;;
     update sym (set_n c)) ;;;
  when (symtype_eqb kind SYM_TAG || symtype_eqb kind SYM_TYPEDEF)
    (type_set_tag ty sym) ;;;
  update_ns ns (fun s => with_symbol_list (array_push_back (symbol_list s) sym) s) ;;;
  sym_make_visible ns sym ;;;
  when (is_function ty)
    (modify (fun g =>
       with_functions (hash_insert (heap g) (functions g) sym)
         (functions_init g) g)) ;;;
  (* the arguments of [verbose] *)
  _ <- sym_name sym ;;
  ret sym.

(** The block of [sym_add] for a visible symbol [sym]: the completion
    of a definition by an [extern] declaration, the merge at file
    scope, the duplicate in a block; a symbol of an outer scope is
    shadowed by a new one. *)
Definition sym_add_merge (ns : ns_id) (nm : string) (ty : Ty)
    (kind : symtype_t) (link : linkage_t) (sym : ptr) : M ptr :=
  s <- load sym ;;
  if linkage_eqb link LINK_EXTERN && symtype_eqb kind SYM_DECLARATION
     && (symtype_eqb (symtype s) SYM_TENTATIVE
         || symtype_eqb (symtype s) SYM_DEFINITION)
  then
    apply_type sym ty ;;;
    ret sym
  else
    d <- current_scope_depth ns ;;
    if (depth s =? d)%nat && (depth s =? 0)%nat then
      (if linkage_eqb (linkage s) link
          && ((symtype_eqb (symtype s) SYM_TENTATIVE
               && symtype_eqb kind SYM_DEFINITION)
              || (symtype_eqb (symtype s) SYM_DEFINITION
                  && symtype_eqb kind SYM_TENTATIVE))
       then
         apply_type sym ty ;;;
         update sym (set_symtype SYM_DEFINITION)
       else if linkage_eqb (linkage s) link
               && symtype_eqb (symtype s) SYM_DECLARATION
               && symtype_eqb kind SYM_TENTATIVE
       then
         apply_type sym ty ;;;
         update sym (set_symtype SYM_TENTATIVE)
       else if linkage_eqb (linkage s) link
               && symtype_eqb (symtype s) SYM_DEFINITION
               && symtype_eqb kind SYM_DECLARATION
       then
         when (negb (type_equal (type s) ty))
           (error (Conflicting_types nm) ;;;
            exit 1)
       else if negb (symtype_eqb (symtype s) kind)
               || negb (linkage_eqb (linkage s) link)
       then
         error (Does_not_match_prior nm) ;;;
         exit 1
       else apply_type sym ty) ;;;
      ret sym
    else if (depth s =? d)%nat && negb (depth s =? 0)%nat then
      error (Duplicate_definition nm) ;;;
      exit 1
    else sym_add_create ns nm ty kind link.

Definition sym_add (ns : ns_id) (nm : string) (ty : Ty) (kind : symtype_t)
    (link : linkage_t) : M ptr :=
  c_assert (negb (symtype_eqb kind SYM_LABEL)) ;;;
  c_assert (negb (symtype_eqb kind SYM_TAG) || ns_id_eqb ns ns_tag) ;;;
  (* All function declarations must agree, regardless of scope. *)
  r <- sym_add_resolve ns nm ty kind ;;
  match r with
  | inl sym => ret sym
  | inr (Some sym) =>
      (* Try to complete existing tentative definition. *)
      sym_add_merge ns nm ty kind link sym
  | inr None =>
      (* Create new symbol. *)
      sym_add_create ns nm ty kind link
  end.

Definition PREFIX_TEMPORARY : string := ".t".
Definition PREFIX_UNNAMED : string := ".u".
Definition PREFIX_CONSTANT : string := ".C".
Definition PREFIX_STRING : string := ".LC".
Definition PREFIX_LABEL : string := ".L".

Definition sym_create_temporary (ty : Ty) : M ptr :=
  sym <- alloc_sym ;;
  update sym (set_symtype SYM_DEFINITION) ;;;
  update sym (set_linkage LINK_NONE) ;;;
  update sym (set_name PREFIX_TEMPORARY) ;;;
  update sym (set_type ty) ;;;
  c <- bump_temporary ;;
  update sym (set_n c) ;;;
  ret sym.

Definition sym_create_unnamed (ty : Ty) : M ptr :=
  sym <- alloc_sym ;;
  d <- current_scope_depth ns_ident ;;
  (if (d =? 0)%nat then update sym (set_linkage LINK_INTERN)
   else update sym (set_linkage LINK_NONE)) ;;;
  update sym (set_symtype SYM_DEFINITION) ;;;
  update sym (set_name PREFIX_UNNAMED) ;;;
  update sym (set_type ty) ;;;
  c <- bump_unnamed ;;
  update sym (set_n c) ;;;
  ret sym.

Definition sym_create_label : M ptr :=
  sym <- alloc_sym ;;
  update sym (set_type basic_type__void) ;;;
  update sym (set_symtype SYM_LABEL) ;;;
  update sym (set_linkage LINK_INTERN) ;;;
  update sym (set_name PREFIX_LABEL) ;;;
  c <- bump_label ;;
  update sym (set_n c) ;;;
  ret sym.

Definition sym_create_constant (ty : Ty) (val : Z) : M ptr :=
  sym <- alloc_sym ;;
  update sym (set_type ty) ;;;
  update sym (set_value (V_CONSTANT val)) ;;;
  update sym (set_symtype SYM_CONSTANT) ;;;
  update sym (set_linkage LINK_INTERN) ;;;
  update sym (set_name PREFIX_CONSTANT) ;;;
  c <- bump_constant ;;
  update sym (set_n c) ;;;
  update_ns ns_ident (fun s =>
    with_symbol_list (array_push_back (symbol_list s) sym) s) ;;;
  ret sym.

Definition sym_create_string (str : string) : M ptr :=
  sym <- alloc_sym ;;
  update sym
    (set_type
       (type_create_array basic_type__char
          (N.of_nat (String.length str) + 1))) ;;;
  update sym (set_value (V_STRING str)) ;;;
  update sym (set_symtype SYM_STRING_VALUE) ;;;
  update sym (set_linkage LINK_INTERN) ;;;
  update sym (set_name PREFIX_STRING) ;;;
  c <- bump_string ;;
  update sym (set_n c) ;;;
  update_ns ns_ident (fun s =>
    with_symbol_list (array_push_back (symbol_list s) sym) s) ;;;
  ret sym.

Definition sym_discard (sym : ptr) : M unit :=
  modify (fun g => with_temporaries (array_push_back (temporaries g) sym) g).

Definition is_temporary (sym : ptr) : M bool :=
  s <- load sym ;;
  ret (String.eqb PREFIX_TEMPORARY (name s)).

(** The globals a call leaves behind, for building example states, and
    the value it returns. *)
Definition after {A} (m : M A) (g : global) : global :=
  match m g with
  | Return _ g' => g'
  | Exit _ g' => g'
  | Fault _ => g
  end.

Definition returned {A} (m : M A) (g : global) : option A :=
  match m g with
  | Return a _ => Some a
  | _ => None
  end.

Definition exited {A} (m : M A) (g : global) : option Z :=
  match m g with
  | Exit status _ => Some status
  | _ => None
  end.

End Parser.

(** ** The implementation of [src/symtab.c] *)

Module Legacy.

(** Modelled from the spec: [struct typetree] of the older type
    component ([symbol.h] is not part of the sources), read through the
    same trees: the field [type] is the head constructor, [flags] the
    variadic mark of a function, [next] the element or return type, [n]
    and [member] the parameters, [size] the size in bytes. *)
Definition same_type_tag (a b : Ty) : bool :=
  match a, b with
  | T_VOID, T_VOID | T_CHAR, T_CHAR | T_INT, T_INT
  | T_POINTER _, T_POINTER _ | T_FUNCTION _ _ _, T_FUNCTION _ _ _
  | T_ARRAY _ _, T_ARRAY _ _ => true
  | _, _ => false
  end.

Definition type_flags (t : Ty) : bool :=
  match t with T_FUNCTION _ _ v => v | _ => false end.

(** [sym->type.n = type->n; sym->type.member = type->member]. *)
Definition set_members (t from : Ty) : Ty :=
  match t, from with
  | T_FUNCTION r _ v, T_FUNCTION _ m _ => T_FUNCTION r m v
  | _, _ => t
  end.

(** [sym->type.size = type->size] on an array whose element type is
    the one of [from]. *)
Definition set_size (t from : Ty) : Ty :=
  match t with
  | T_ARRAY x _ => T_ARRAY x (type_array_len from)
  | _ => t
  end.

(** [struct symbol]; a [struct symbol *] is the index of the symbol in
    [ns->symbol], whose elements are allocated once and never moved. *)
Record symbol : Type := mk_symbol {
  name : string;
  type : Ty;
  symtype : symtype_t;
  linkage : linkage_t;
  depth : Z;
  n : Z;
  stack_offset : Z;
}.

Definition set_type (x : Ty) (s : symbol) : symbol :=
  {| name := name s; type := x; symtype := symtype s; linkage := linkage s;
     depth := depth s; n := n s; stack_offset := stack_offset s |}.
Definition set_symtype (x : symtype_t) (s : symbol) : symbol :=
  {| name := name s; type := type s; symtype := x; linkage := linkage s;
     depth := depth s; n := n s; stack_offset := stack_offset s |}.
Definition set_depth (x : Z) (s : symbol) : symbol :=
  {| name := name s; type := type s; symtype := symtype s;
     linkage := linkage s; depth := x; n := n s;
     stack_offset := stack_offset s |}.
Definition set_n (x : Z) (s : symbol) : symbol :=
  {| name := name s; type := type s; symtype := symtype s;
     linkage := linkage s; depth := depth s; n := x;
     stack_offset := stack_offset s |}.

(** [struct scope]: the indices registered in the scope, [size] of
    them. *)
Record scope : Type := mk_scope { idx : list nat }.

(** [struct namespace]: [scope_frames] is [None] for the null pointer. *)
Record namespace : Type := mk_namespace {
  symbol_list : list symbol;
  scope_frames : option (list scope);
  current_depth : Z;
}.

Definition empty_namespace : namespace :=
  {| symbol_list := []; scope_frames := None; current_depth := 0 |}.

Inductive diagnostic : Type :=
| Incompatible_declaration (nm : string) (old new : Ty)
| Does_not_match_prior (nm : string)
| Duplicate_definition (nm : string).

Record global : Type := mk_global {
  idents : namespace;
  labels : namespace;
  tags : namespace;
  svc : Z;
  diagnostics : list diagnostic;
}.

Definition initial : global :=
  {| idents := empty_namespace; labels := empty_namespace;
     tags := empty_namespace; svc := 0; diagnostics := [] |}.

Definition get_ns (ns : ns_id) (g : global) : namespace :=
  match ns with
  | ns_ident => idents g
  | ns_label => labels g
  | ns_tag => tags g
  end.

Definition set_ns (ns : ns_id) (x : namespace) (g : global) : global :=
  match ns with
  | ns_ident =>
      {| idents := x; labels := labels g; tags := tags g; svc := svc g;
         diagnostics := diagnostics g |}
  | ns_label =>
      {| idents := idents g; labels := x; tags := tags g; svc := svc g;
         diagnostics := diagnostics g |}
  | ns_tag =>
      {| idents := idents g; labels := labels g; tags := x; svc := svc g;
         diagnostics := diagnostics g |}
  end.

Definition with_svc (x : Z) (g : global) : global :=
  {| idents := idents g; labels := labels g; tags := tags g; svc := x;
     diagnostics := diagnostics g |}.
Definition with_diagnostics (x : list diagnostic) (g : global) : global :=
  {| idents := idents g; labels := labels g; tags := tags g; svc := svc g;
     diagnostics := x |}.

Inductive fault : Type :=
| Assertion_failed
| Invalid_access.

Inductive outcome (A : Type) : Type :=
| Return (a : A) (g : global)
| Exit (status : Z) (g : global)
| Fault (f : fault).
Arguments Return {A} a g.
Arguments Exit {A} status g.
Arguments Fault {A} f.

Definition M (A : Type) : Type := global -> outcome A.

Definition ret {A} (a : A) : M A := fun g => Return a g.

Definition bind {A B} (m : M A) (k : A -> M B) : M B :=
  fun g =>
    match m g with
    | Return a g' => k a g'
    | Exit c g' => Exit c g'
    | Fault f => Fault f
    end.

Notation "x <- m ;; k" := (bind m (fun x => k))
  (at level 100, m at next level, right associativity).
Notation "m ;;; k" := (bind m (fun _ => k))
  (at level 100, right associativity).

Definition gets {A} (f : global -> A) : M A := fun g => Return (f g) g.
Definition modify (f : global -> global) : M unit := fun g => Return tt (f g).
Definition exit {A} (status : Z) : M A := fun g => Exit status g.
Definition fail {A} (f : fault) : M A := fun _ => Fault f.
Definition c_assert (b : bool) : M unit :=
  if b then ret tt else fail Assertion_failed.
Definition when (b : bool) (m : M unit) : M unit := if b then m else ret tt.

Definition error (d : diagnostic) : M unit :=
  modify (fun g => with_diagnostics (diagnostics g ++ [d]) g).

Definition update_ns (ns : ns_id) (f : namespace -> namespace) : M unit :=
  modify (fun g => set_ns ns (f (get_ns ns g)) g).

Definition load (ns : ns_id) (sym : nat) : M symbol :=
  fun g =>
    match symbol_list (get_ns ns g) !! sym with
    | Some s => Return s g
    | None => Fault Invalid_access
    end.

Definition update (ns : ns_id) (sym : nat) (f : symbol -> symbol) : M unit :=
  fun g =>
    match symbol_list (get_ns ns g) !! sym with
    | Some s =>
        Return tt
          (set_ns ns
             {| symbol_list := <[sym := f s]> (symbol_list (get_ns ns g));
                scope_frames := scope_frames (get_ns ns g);
                current_depth := current_depth (get_ns ns g) |} g)
    | None => Fault Invalid_access
    end.

(** [realloc] of the scopes to [depth + 1] frames, the last one then
    cleared by [memset]. *)
Definition push_scope (ns : ns_id) : M unit :=
  update_ns ns (fun s =>
    let d := match scope_frames s with
             | None => 0
             | Some _ => current_depth s + 1
             end in
    {| symbol_list := symbol_list s;
       scope_frames :=
         Some (take (Z.to_nat d) (default [] (scope_frames s))
               ++ [mk_scope []])%list;
       current_depth := d |}).

Definition pop_scope (ns : ns_id) : M unit :=
  s <- gets (get_ns ns) ;;
  (if 0 <=? current_depth s then
     match scope_frames s with
     | Some frames =>
         if (Z.to_nat (current_depth s) <? length frames)%nat then
           update_ns ns (fun s =>
             {| symbol_list := symbol_list s;
                scope_frames :=
                  Some (<[Z.to_nat (current_depth s) := mk_scope []]> frames);
                current_depth := current_depth s - 1 |})
         else fail Invalid_access
     | None => fail Invalid_access
     end
   else ret tt) ;;;
  s <- gets (get_ns ns) ;;
  when (current_depth s =? -1)
    (update_ns ns (fun s =>
       {| symbol_list := symbol_list s; scope_frames := None;
          current_depth := current_depth s |})).

(** [create_symbol]: the symbol is copied to fresh storage at the end
    of [ns->symbol]; the result is its index. *)
Definition create_symbol (ns : ns_id) (sym : symbol) : M nat :=
  s <- gets (get_ns ns) ;;
  update_ns ns (fun s =>
    {| symbol_list := symbol_list s ++ [set_depth (current_depth s) sym];
       scope_frames := scope_frames s;
       current_depth := current_depth s |}) ;;;
  ret (length (symbol_list s)).

Definition register_in_scope (ns : ns_id) (i : nat) : M unit :=
  s <- gets (get_ns ns) ;;
  c_assert (i <? length (symbol_list s))%nat ;;;
  match scope_frames s with
  | Some frames =>
      if 0 <=? current_depth s then
        match frames !! Z.to_nat (current_depth s) with
        | Some sc =>
            update_ns ns (fun s =>
              {| symbol_list := symbol_list s;
                 scope_frames :=
                   Some (<[Z.to_nat (current_depth s) :=
                             mk_scope (idx sc ++ [i])]> frames);
                 current_depth := current_depth s |})
        | None => fail Invalid_access
        end
      else fail Invalid_access
  | None => fail Invalid_access
  end.

Definition apply_type (ns : ns_id) (sym : nat) (ty : Ty) : M unit :=
  s <- load ns sym ;;
  if type_equal (type s) ty
     && negb (is_function (type s)
              && negb (symtype_eqb (symtype s) SYM_DEFINITION))
  then ret tt
  else
    conflict <-
      match type s with
      | T_FUNCTION _ _ _ =>
          if same_type_tag (type s) ty
             && Bool.eqb (type_flags (type s)) (type_flags ty)
             && type_equal (type_next (type s)) (type_next ty)
          then
            if (nmembers (type s) =? 0)%nat
               || (nmembers (type s) =? nmembers ty)%nat
            then
              update ns sym (set_type (set_members (type s) ty)) ;;;
              ret false
            else ret true
          else ret true
      | T_ARRAY _ _ =>
          if same_type_tag (type s) ty
             && type_equal (type_next (type s)) (type_next ty)
          then
            when (size_of (type s) =? 0)%N
              (c_assert (negb (size_of ty =? 0)%N) ;;;
               update ns sym (set_type (set_size (type s) ty))) ;;;
            ret false
          else ret true
      | _ => ret true
      end ;;
    when conflict
      (s' <- load ns sym ;;
       error (Incompatible_declaration (name s') (type s') ty) ;;;
       exit 1).

(** The inner loop of [sym_lookup] over the indices of one scope. *)
Fixpoint scan_scope (symbols : list symbol) (nm : string) (ids : list nat)
  : option (option nat) :=
  match ids with
  | [] => Some None
  | i :: rest =>
      match symbols !! i with
      | Some s =>
          if String.eqb nm (name s) then Some (Some i)
          else scan_scope symbols nm rest
      | None => None
      end
  end.

(** The outer loop, over the depths [k - 1] down to [0]; [None] is an
    access outside the arrays. *)
Fixpoint scan_scopes (symbols : list symbol) (frames : list scope)
    (nm : string) (k : nat) : option (option nat) :=
  match k with
  | O => Some None
  | S d =>
      match frames !! d with
      | Some sc =>
          match scan_scope symbols nm (idx sc) with
          | Some (Some i) => Some (Some i)
          | Some None => scan_scopes symbols frames nm d
          | None => None
          end
      | None => None
      end
  end.

Definition sym_lookup (ns : ns_id) (nm : string) : M (option nat) :=
  s <- gets (get_ns ns) ;;
  if current_depth s <? 0 then ret None
  else
    match scope_frames s with
    | Some frames =>
        match scan_scopes (symbol_list s) frames nm
                (S (Z.to_nat (current_depth s))) with
        | Some r => ret r
        | None => fail Invalid_access
        end
    | None => fail Invalid_access
    end.

Definition sym_add_create (ns : ns_id) (arg : symbol) : M nat :=
  d <- gets (fun g => current_depth (get_ns ns g)) ;;
  arg <-
    (if linkage_eqb (linkage arg) LINK_INTERN && negb (d =? 0) then
       c <- gets svc ;;
       modify (with_svc (wrap_int (c + 1))) ;;;
       ret (set_n (wrap_int (c + 1)) arg)
     else ret arg) ;;
  i <- create_symbol ns arg ;;
  register_in_scope ns i ;;;
  ret i.

Definition sym_add_merge (ns : ns_id) (arg : symbol) (sym : nat) : M nat :=
  s <- load ns sym ;;
  if linkage_eqb (linkage arg) LINK_EXTERN
     && symtype_eqb (symtype arg) SYM_DECLARATION
     && (symtype_eqb (symtype s) SYM_TENTATIVE
         || symtype_eqb (symtype s) SYM_DEFINITION)
  then
    apply_type ns sym (type arg) ;;;
    ret sym
  else
    d <- gets (fun g => current_depth (get_ns ns g)) ;;
    if (depth s =? d) && (d =? 0) then
      (if linkage_eqb (linkage s) (linkage arg)
          && ((symtype_eqb (symtype s) SYM_TENTATIVE
               && symtype_eqb (symtype arg) SYM_DEFINITION)
              || (symtype_eqb (symtype s) SYM_DEFINITION
                  && symtype_eqb (symtype arg) SYM_TENTATIVE))
       then
         apply_type ns sym (type arg) ;;;
         update ns sym (set_symtype SYM_DEFINITION)
       else if linkage_eqb (linkage s) (linkage arg)
               && symtype_eqb (symtype s) SYM_DECLARATION
               && symtype_eqb (symtype arg) SYM_TENTATIVE
       then
         apply_type ns sym (type arg) ;;;
         update ns sym (set_symtype SYM_TENTATIVE)
       else if negb (symtype_eqb (symtype s) (symtype arg))
               || negb (linkage_eqb (linkage s) (linkage arg))
       then
         error (Does_not_match_prior (name arg)) ;;;
         exit 1
       else apply_type ns sym (type arg)) ;;;
      ret sym
    else if (depth s =? d) && negb (d =? 0) then
      error (Duplicate_definition (name arg)) ;;;
      exit 1
    else sym_add_create ns arg.

Definition sym_add (ns : ns_id) (arg : symbol) : M nat :=
  found <- sym_lookup ns (name arg) ;;
  match found with
  | Some sym => sym_add_merge ns arg sym
  | None => sym_add_create ns arg
  end.

(** The globals a call leaves behind, for building example states, and
    the value it returns. *)
Definition after {A} (m : M A) (g : global) : global :=
  match m g with
  | Return _ g' => g'
  | Exit _ g' => g'
  | Fault _ => g
  end.

Definition returned {A} (m : M A) (g : global) : option A :=
  match m g with
  | Return a _ => Some a
  | _ => None
  end.

Definition exited {A} (m : M A) (g : global) : option Z :=
  match m g with
  | Exit status _ => Some status
  | _ => None
  end.

End Legacy.

(** * Properties *)

(** ** Popping an inner scope (C10) *)

Section PopScope.

Import Parser.

Lemma get_set_ns ns x g : get_ns ns (set_ns ns x g) = x.
Proof. by destruct ns. Qed.

Lemma get_set_ns_ne ns ns' x g :
  ns <> ns' -> get_ns ns' (set_ns ns x g) = get_ns ns' g.
Proof. by destruct ns, ns'. Qed.

Lemma heap_set_ns ns x g : heap (set_ns ns x g) = heap g.
Proof. by destruct ns. Qed.

Lemma parser_pop_scope_inner ns g :
  (2 <= scope_len (get_ns ns g))%nat ->
  pop_scope ns g =
  Return tt
    (set_ns ns
       (with_scopes (scope_frames (get_ns ns g))
          (scope_len (get_ns ns g) - 1)
          (max_scope_depth (get_ns ns g)) (get_ns ns g)) g).
Proof.
  intros H. unfold pop_scope, bind, gets, c_assert.
  destruct (scope_len (get_ns ns g)) as [|[|k]] eqn:E; try lia.
  simpl. unfold update_ns, modify. by rewrite E.
Qed.

Lemma legacy_pop_scope_inner ns l frames :
  Legacy.scope_frames (Legacy.get_ns ns l) = Some frames ->
  1 <= Legacy.current_depth (Legacy.get_ns ns l) ->
  (Z.to_nat (Legacy.current_depth (Legacy.get_ns ns l)) < length frames)%nat ->
  Legacy.pop_scope ns l =
  Legacy.Return tt
    (Legacy.set_ns ns
       {| Legacy.symbol_list := Legacy.symbol_list (Legacy.get_ns ns l);
          Legacy.scope_frames :=
            Some (<[Z.to_nat (Legacy.current_depth (Legacy.get_ns ns l)) :=
                      Legacy.mk_scope []]> frames);
          Legacy.current_depth :=
            Legacy.current_depth (Legacy.get_ns ns l) - 1 |} l).
Proof.
  intros Hf Hd Hlen.
  unfold Legacy.pop_scope, Legacy.bind, Legacy.gets.
  destruct (Z.leb_spec 0 (Legacy.current_depth (Legacy.get_ns ns l))); [|lia].
  rewrite Hf.
  destruct (Nat.ltb_spec (Z.to_nat (Legacy.current_depth (Legacy.get_ns ns l)))
              (length frames)); [|lia].
  unfold Legacy.update_ns, Legacy.modify.
  assert (Hg : forall x, Legacy.get_ns ns (Legacy.set_ns ns x l) = x)
    by (intros; by destruct ns).
  rewrite Hg. simpl. unfold Legacy.when.
  destruct (Z.eqb_spec (Legacy.current_depth (Legacy.get_ns ns l) - 1) (-1));
    [lia|]. reflexivity.
Qed.

(** C10. Popping a scope that is not the outermost one of its
    namespace changes nothing but the depth of that namespace's scope
    stack: in [src/parser/symtab.c] the heap of symbol records, the set
    of freed addresses, every master symbol list, every scope frame, the
    recycling pool and the function table are what they were, so each
    pointer handed out by [sym_add] still reads the same record; in
    [src/symtab.c] the symbol list is what it was, the depth is one
    less, and the frames below the popped one are untouched. *)
Theorem pop_scope_inner_frame :
  (forall ns g,
     (2 <= scope_len (get_ns ns g))%nat ->
     exists g',
       pop_scope ns g = Return tt g'
       /\ heap g' = heap g
       /\ freed g' = freed g
       /\ (forall ns', symbol_list (get_ns ns' g') = symbol_list (get_ns ns' g))
       /\ (forall ns', scope_frames (get_ns ns' g') = scope_frames (get_ns ns' g))
       /\ (forall ns', max_scope_depth (get_ns ns' g')
                        = max_scope_depth (get_ns ns' g))
       /\ scope_len (get_ns ns g') = (scope_len (get_ns ns g) - 1)%nat
       /\ (forall ns', ns' <> ns -> get_ns ns' g' = get_ns ns' g)
       /\ temporaries g' = temporaries g
       /\ functions g' = functions g
       /\ diagnostics g' = diagnostics g)
  /\ (forall ns l frames,
       Legacy.scope_frames (Legacy.get_ns ns l) = Some frames ->
       1 <= Legacy.current_depth (Legacy.get_ns ns l) ->
       (Z.to_nat (Legacy.current_depth (Legacy.get_ns ns l))
        < length frames)%nat ->
       exists l' frames',
         Legacy.pop_scope ns l = Legacy.Return tt l'
         /\ (forall ns', Legacy.symbol_list (Legacy.get_ns ns' l')
                         = Legacy.symbol_list (Legacy.get_ns ns' l))
         /\ Legacy.current_depth (Legacy.get_ns ns l')
            = Legacy.current_depth (Legacy.get_ns ns l) - 1
         /\ Legacy.scope_frames (Legacy.get_ns ns l') = Some frames'
         /\ (forall d, (d < Z.to_nat (Legacy.current_depth (Legacy.get_ns ns l)))%nat ->
                       frames' !! d = frames !! d)
         /\ (forall ns', ns' <> ns -> Legacy.get_ns ns' l' = Legacy.get_ns ns' l)
         /\ Legacy.diagnostics l' = Legacy.diagnostics l).
Proof.
  split.
  - intros ns g H. eexists. split; [by apply parser_pop_scope_inner|].
    repeat split; intros; rewrite ?get_set_ns; try done;
      try (by destruct ns); try (by destruct ns, ns').
  - intros ns l frames Hf Hd Hlen.
    eexists _, (<[Z.to_nat (Legacy.current_depth (Legacy.get_ns ns l)) :=
                   Legacy.mk_scope []]> frames).
    split; [by eapply legacy_pop_scope_inner|].
    repeat split; intros; try (rewrite list_lookup_insert_ne; [done|lia]);
      try (by destruct ns); try (by destruct ns, ns').
Qed.

(** Two nested scopes of identifiers, in either implementation. *)
Definition parser_two_scopes : global :=
  after (push_scope ns_ident) (after (push_scope ns_ident) initial).

Definition legacy_two_scopes : Legacy.global :=
  Legacy.after (Legacy.push_scope ns_ident)
    (Legacy.after (Legacy.push_scope ns_ident) Legacy.initial).

Lemma pop_scope_inner_frame_witness :
  (exists g', pop_scope ns_ident parser_two_scopes = Return tt g'
              /\ heap g' = heap parser_two_scopes)
  /\ (exists l', Legacy.pop_scope ns_ident legacy_two_scopes = Legacy.Return tt l'
                 /\ Legacy.current_depth (Legacy.get_ns ns_ident l') = 0).
Proof.
  split.
  - destruct (proj1 pop_scope_inner_frame ns_ident parser_two_scopes)
      as (g' & H1 & H2 & _); [vm_compute; lia|].
    exists g'. by split.
  - destruct (proj2 pop_scope_inner_frame ns_ident legacy_two_scopes
                [Legacy.mk_scope []; Legacy.mk_scope []])
      as (l' & fr & H1 & _ & H3 & _); [reflexivity|vm_compute; congruence|vm_compute; lia|].
    exists l'. split; [done|]. rewrite H3. reflexivity.
Defined.

End PopScope.

(** ** Running the monadic code *)

Import Parser.

Ltac gsimpl :=
  cbn [heap freed temporaries functions functions_init idents labels tags
       n_sym_add n_temporary n_unnamed n_label n_constant n_string
       decl_memcpy sym_name_buffer diagnostics type_tags
       with_heap with_freed with_temporaries with_functions with_namespaces
       with_counters with_decl_memcpy with_sym_name_buffer with_diagnostics
       with_type_tags get_ns set_ns
       symbol_list scope_frames scope_len max_scope_depth cursor
       with_symbol_list with_scopes] in *.

Lemma array_pop_back_push {A} (l : list A) x :
  array_pop_back (array_push_back l x) = Some (x, l).
Proof.
  unfold array_pop_back, array_push_back.
  rewrite rev_unit. by rewrite rev_involutive.
Qed.

Lemma array_pop_back_None {A} (l : list A) :
  array_pop_back l = None -> l = [].
Proof.
  unfold array_pop_back. destruct (rev l) eqn:E; [|done].
  intros _. apply (f_equal (@rev A)) in E. by rewrite rev_involutive in E.
Qed.

Lemma array_pop_back_Some {A} (l : list A) x r :
  array_pop_back l = Some (x, r) -> l = array_push_back r x.
Proof.
  unfold array_pop_back, array_push_back. destruct (rev l) eqn:E; [done|].
  intros [= <- <-]. apply (f_equal (@rev A)) in E.
  rewrite rev_involutive in E. by rewrite E.
Qed.

Lemma update_Some p f g s :
  heap g !! p = Some s ->
  update p f g = Return tt (with_heap (<[p := f s]> (heap g)) g).
Proof. intros H. unfold update. by rewrite H. Qed.

Lemma load_Some p g s : heap g !! p = Some s -> load p g = Return s g.
Proof. intros H. unfold load. by rewrite H. Qed.

Lemma with_heap_twice h h' g : with_heap h (with_heap h' g) = with_heap h g.
Proof. reflexivity. Qed.

(** One [update] of a cell that is known to hold a record. *)
Ltac run_update :=
  match goal with
  | |- context [update ?p ?f ?g] =>
      let s := fresh "s" in
      evar (s : symbol);
      rewrite (update_Some p f g s)
        by (subst s; gsimpl;
            first [ eassumption
                  | apply list_lookup_insert_eq;
                    rewrite ?length_insert; first [assumption | lia] ]);
      subst s; gsimpl; rewrite ?list_insert_insert_eq, ?with_heap_twice
  end.

(** ** The arena: allocation, recycling, generated symbols (C8, C9) *)

(** What [alloc_sym] returns: the storage given back last when the
    pool is not empty, cleared; fresh storage otherwise. *)
Lemma alloc_sym_pool g rest p :
  temporaries g = array_push_back rest p ->
  (p < length (heap g))%nat ->
  alloc_sym g
  = Return p (with_heap (<[p := zero_symbol]> (heap g))
                (with_temporaries rest g)).
Proof.
  intros Ht Hp. destruct (lookup_lt_is_Some_2 _ _ Hp) as [s Hs].
  unfold alloc_sym, bind, gets, modify. rewrite Ht, array_pop_back_push.
  erewrite update_Some by exact Hs. reflexivity.
Qed.

Lemma alloc_sym_fresh g :
  temporaries g = [] ->
  alloc_sym g
  = Return (length (heap g)) (with_heap (heap g ++ [zero_symbol]) g).
Proof. intros Ht. unfold alloc_sym, bind, gets. by rewrite Ht. Qed.

(** The pool holds addresses of the heap. *)
Definition pool_valid (g : global) : Prop :=
  Forall (fun p => (p < length (heap g))%nat) (temporaries g).

Lemma alloc_sym_returns g :
  pool_valid g ->
  exists p g1,
    alloc_sym g = Return p g1
    /\ heap g1 !! p = Some zero_symbol
    /\ (length (heap g) <= length (heap g1))%nat
    /\ (forall q, q <> p -> (q < length (heap g))%nat ->
                  heap g1 !! q = heap g !! q)
    /\ g1 = with_heap (heap g1) (with_temporaries (temporaries g1) g).
Proof.
  intros Hv. destruct (array_pop_back (temporaries g)) as [[p rest]|] eqn:E.
  - apply array_pop_back_Some in E.
    assert (Hp : (p < length (heap g))%nat).
    { unfold pool_valid in Hv. rewrite E in Hv. unfold array_push_back in Hv.
      apply Forall_app in Hv as [_ Hv]. by inversion Hv. }
    eexists _, _. split; [by apply alloc_sym_pool|]. gsimpl.
    split; [by apply list_lookup_insert_eq|].
    split; [by rewrite length_insert|].
    split; [|done]. intros q Hq _. by apply list_lookup_insert_ne.
  - apply array_pop_back_None in E.
    eexists _, _. split; [by apply alloc_sym_fresh|]. gsimpl.
    split.
    { rewrite lookup_app_r by lia. by rewrite Nat.sub_diag. }
    split; [rewrite length_app; lia|].
    split; [|done]. intros q _ Hq. by apply lookup_app_l.
Qed.

Ltac run_creator Ha Hz :=
  let Hlt := fresh "Hlt" in
  pose proof (lookup_lt_Some _ _ _ Hz) as Hlt;
  unfold next_counter; unfold bind at 1; rewrite Ha;
  unfold bind, gets, modify, ret, update_ns; gsimpl;
  repeat (run_update; gsimpl).

(** Each creator of a generated symbol, on the cleared record that
    [alloc_sym] hands to it. *)
Lemma sym_create_temporary_from ty g p g1 :
  alloc_sym g = Return p g1 ->
  heap g1 !! p = Some zero_symbol ->
  sym_create_temporary ty g
  = Return p
      (with_counters (n_sym_add g1) (wrap_int (n_temporary g1 + 1))
         (n_unnamed g1) (n_label g1) (n_constant g1) (n_string g1)
         (with_heap
            (<[p := {| name := PREFIX_TEMPORARY;
                       n := wrap_int (n_temporary g1 + 1);
                       type := ty; symtype := SYM_DEFINITION;
                       linkage := LINK_NONE; depth := O;
                       referenced := false; stack_offset := 0;
                       value := V_ZERO |}]> (heap g1)) g1)).
Proof.
  intros Ha Hz. unfold sym_create_temporary, bump_temporary.
  run_creator Ha Hz. reflexivity.
Qed.

Lemma sym_create_unnamed_from ty g p g1 :
  alloc_sym g = Return p g1 ->
  heap g1 !! p = Some zero_symbol ->
  (0 < scope_len (idents g1))%nat ->
  sym_create_unnamed ty g
  = Return p
      (with_counters (n_sym_add g1) (n_temporary g1)
         (wrap_int (n_unnamed g1 + 1)) (n_label g1) (n_constant g1)
         (n_string g1)
         (with_heap
            (<[p := {| name := PREFIX_UNNAMED;
                       n := wrap_int (n_unnamed g1 + 1);
                       type := ty; symtype := SYM_DEFINITION;
                       linkage := if (scope_len (idents g1) - 1 =? 0)%nat
                                  then LINK_INTERN else LINK_NONE;
                       depth := O;
                       referenced := false; stack_offset := 0;
                       value := V_ZERO |}]> (heap g1)) g1)).
Proof.
  intros Ha Hz Hs.
  unfold sym_create_unnamed, bump_unnamed, current_scope_depth, c_assert.
  pose proof (lookup_lt_Some _ _ _ Hz) as Hlt.
  unfold next_counter. unfold bind at 1. rewrite Ha.
  unfold bind, gets, modify, ret. gsimpl.
  destruct (scope_len (idents g1)) as [|[|k]] eqn:E; [lia| |]; simpl;
    repeat (run_update; gsimpl); reflexivity.
Qed.

Lemma sym_create_label_from g p g1 :
  alloc_sym g = Return p g1 ->
  heap g1 !! p = Some zero_symbol ->
  sym_create_label g
  = Return p
      (with_counters (n_sym_add g1) (n_temporary g1) (n_unnamed g1)
         (wrap_int (n_label g1 + 1)) (n_constant g1) (n_string g1)
         (with_heap
            (<[p := {| name := PREFIX_LABEL;
                       n := wrap_int (n_label g1 + 1);
                       type := basic_type__void; symtype := SYM_LABEL;
                       linkage := LINK_INTERN; depth := O;
                       referenced := false; stack_offset := 0;
                       value := V_ZERO |}]> (heap g1)) g1)).
Proof.
  intros Ha Hz. unfold sym_create_label, bump_label.
  run_creator Ha Hz. reflexivity.
Qed.

Lemma sym_create_constant_from ty val g p g1 :
  alloc_sym g = Return p g1 ->
  heap g1 !! p = Some zero_symbol ->
  sym_create_constant ty val g
  = Return p
      (set_ns ns_ident
         (with_symbol_list (array_push_back (symbol_list (idents g1)) p)
            (idents g1))
         (with_counters (n_sym_add g1) (n_temporary g1) (n_unnamed g1)
            (n_label g1) (wrap_int (n_constant g1 + 1)) (n_string g1)
            (with_heap
               (<[p := {| name := PREFIX_CONSTANT;
                          n := wrap_int (n_constant g1 + 1);
                          type := ty; symtype := SYM_CONSTANT;
                          linkage := LINK_INTERN; depth := O;
                          referenced := false; stack_offset := 0;
                          value := V_CONSTANT val |}]> (heap g1)) g1))).
Proof.
  intros Ha Hz. unfold sym_create_constant, bump_constant.
  run_creator Ha Hz. reflexivity.
Qed.

Lemma sym_create_string_from str g p g1 :
  alloc_sym g = Return p g1 ->
  heap g1 !! p = Some zero_symbol ->
  sym_create_string str g
  = Return p
      (set_ns ns_ident
         (with_symbol_list (array_push_back (symbol_list (idents g1)) p)
            (idents g1))
         (with_counters (n_sym_add g1) (n_temporary g1) (n_unnamed g1)
            (n_label g1) (n_constant g1) (wrap_int (n_string g1 + 1))
            (with_heap
               (<[p := {| name := PREFIX_STRING;
                          n := wrap_int (n_string g1 + 1);
                          type := T_ARRAY T_CHAR
                                    (N.of_nat (String.length str) + 1);
                          symtype := SYM_STRING_VALUE;
                          linkage := LINK_INTERN; depth := O;
                          referenced := false; stack_offset := 0;
                          value := V_STRING str |}]> (heap g1)) g1))).
Proof.
  intros Ha Hz. unfold sym_create_string, bump_string.
  run_creator Ha Hz. reflexivity.
Qed.

(** The allocation was served from the pool: the heap has not grown,
    the pool is back to what it was, no other record has changed. *)
Definition served_from_pool (g g' : global) (p : ptr) : Prop :=
  length (heap g') = length (heap g)
  /\ temporaries g' = temporaries g
  /\ freed g' = freed g
  /\ forall q, q <> p -> heap g' !! q = heap g !! q.

Lemma discard_then_alloc g p :
  (p < length (heap g))%nat ->
  (sym_discard p ;;; alloc_sym) g
  = Return p (with_heap (<[p := zero_symbol]> (heap g)) g).
Proof.
  intros Hp. unfold bind at 1. unfold sym_discard, modify.
  erewrite alloc_sym_pool; [|reflexivity|done]. reflexivity.
Qed.

Lemma alloc_after_discard g p :
  (p < length (heap g))%nat ->
  alloc_sym (with_temporaries (array_push_back (temporaries g) p) g)
  = Return p (with_heap (<[p := zero_symbol]> (heap g)) g)
  /\ heap (with_heap (<[p := zero_symbol]> (heap g)) g) !! p
     = Some zero_symbol.
Proof.
  intros Hp. split.
  - erewrite alloc_sym_pool; [|reflexivity|done]. reflexivity.
  - by apply list_lookup_insert_eq.
Qed.

(** C9. A record released with [sym_discard] is the one the next
    request for a generated symbol is served with, whichever of the
    five creators makes it: the same address comes back, the heap has
    not grown and the pool is as it was before the release (the round
    trip), and the record reads as the cleared record with nothing but
    the creator's own fields set. *)
Theorem discard_then_create_recycles g p :
  (p < length (heap g))%nat ->
  (sym_discard p ;;; alloc_sym) g
  = Return p (with_heap (<[p := zero_symbol]> (heap g)) g)
  /\ (forall ty, exists g',
        (sym_discard p ;;; sym_create_temporary ty) g = Return p g'
        /\ served_from_pool g g' p
        /\ heap g' !! p
           = Some (set_n (n_temporary g') (set_type ty
                    (set_name PREFIX_TEMPORARY (set_linkage LINK_NONE
                      (set_symtype SYM_DEFINITION zero_symbol))))))
  /\ (forall ty, (0 < scope_len (idents g))%nat -> exists g',
        (sym_discard p ;;; sym_create_unnamed ty) g = Return p g'
        /\ served_from_pool g g' p
        /\ heap g' !! p
           = Some (set_n (n_unnamed g') (set_type ty
                    (set_name PREFIX_UNNAMED (set_symtype SYM_DEFINITION
                      (set_linkage
                         (if (scope_len (idents g) - 1 =? 0)%nat
                          then LINK_INTERN else LINK_NONE) zero_symbol))))))
  /\ (exists g',
        (sym_discard p ;;; sym_create_label) g = Return p g'
        /\ served_from_pool g g' p
        /\ heap g' !! p
           = Some (set_n (n_label g') (set_name PREFIX_LABEL
                    (set_linkage LINK_INTERN (set_symtype SYM_LABEL
                      (set_type basic_type__void zero_symbol))))))
  /\ (forall ty val, exists g',
        (sym_discard p ;;; sym_create_constant ty val) g = Return p g'
        /\ served_from_pool g g' p
        /\ heap g' !! p
           = Some (set_n (n_constant g') (set_name PREFIX_CONSTANT
                    (set_linkage LINK_INTERN (set_symtype SYM_CONSTANT
                      (set_value (V_CONSTANT val)
                         (set_type ty zero_symbol)))))))
  /\ (forall str, exists g',
        (sym_discard p ;;; sym_create_string str) g = Return p g'
        /\ served_from_pool g g' p
        /\ heap g' !! p
           = Some (set_n (n_string g') (set_name PREFIX_STRING
                    (set_linkage LINK_INTERN (set_symtype SYM_STRING_VALUE
                      (set_value (V_STRING str)
                         (set_type
                            (type_create_array basic_type__char
                               (N.of_nat (String.length str) + 1))
                            zero_symbol))))))).
Proof.
  intros Hp. destruct (alloc_after_discard g p Hp) as [Ha Hz].
  split; [by apply discard_then_alloc|].
  repeat split; intros; eexists; unfold bind at 1, sym_discard, modify;
    (split;
     [ first [ by apply sym_create_temporary_from
             | by apply sym_create_unnamed_from
             | by apply sym_create_label_from
             | by apply sym_create_constant_from
             | by apply sym_create_string_from ]
     | gsimpl; split;
       [ repeat split; gsimpl; rewrite ?length_insert; try done;
         intros q Hq; by rewrite !list_lookup_insert_ne by done
       | by rewrite list_lookup_insert_eq by (by rewrite length_insert) ] ]).
Qed.

(** A state with one temporary alive, at file scope. *)
Definition one_temporary : global :=
  after (sym_create_temporary T_INT) (after (push_scope ns_ident) initial).

Lemma discard_then_create_recycles_witness :
  (0 < length (heap one_temporary))%nat
  /\ (sym_discard 0%nat ;;; alloc_sym) one_temporary
     = Return 0%nat
         (with_heap (<[0%nat := zero_symbol]> (heap one_temporary))
            one_temporary).
Proof.
  assert (H : (0 < length (heap one_temporary))%nat) by (vm_compute; lia).
  split; [exact H|].
  exact (proj1 (discard_then_create_recycles one_temporary 0%nat H)).
Defined.

(** C8, as the claim states it, fails on the code: [sym_create_unnamed]
    does not append the symbol to the master list of the identifier
    namespace.  At file scope, with nothing declared yet, the symbol it
    returns is in no master list afterwards, where the one of
    [sym_create_constant] is. *)
Lemma sym_create_unnamed_not_listed :
  let g := after (push_scope ns_ident) initial in
  returned (sym_create_unnamed T_INT) g = Some 0%nat
  /\ symbol_list (idents (after (sym_create_unnamed T_INT) g)) = []
  /\ returned (sym_create_constant T_INT 7) g = Some 0%nat
  /\ symbol_list (idents (after (sym_create_constant T_INT 7) g)) = [0%nat].
Proof. vm_compute. by repeat split. Qed.

(** C8, amended. An unnamed object created by [sym_create_unnamed] has
    internal linkage when the identifier namespace is at file scope
    (depth 0) and no linkage otherwise; the call appends it to no
    master symbol list and registers it in no scope and not in the
    function table: every namespace is left as it was. *)
Theorem sym_create_unnamed_spec ty g :
  (0 < scope_len (idents g))%nat ->
  pool_valid g ->
  exists p g' s,
    sym_create_unnamed ty g = Return p g'
    /\ heap g' !! p = Some s
    /\ linkage s = (if (scope_len (idents g) - 1 =? 0)%nat
                    then LINK_INTERN else LINK_NONE)
    /\ symtype s = SYM_DEFINITION
    /\ name s = PREFIX_UNNAMED
    /\ type s = ty
    /\ (forall ns, get_ns ns g' = get_ns ns g)
    /\ functions g' = functions g.
Proof.
  intros Hs Hv.
  destruct (alloc_sym_returns g Hv) as (p & g1 & Ha & Hz & _ & _ & Hg1).
  assert (Hi : idents g1 = idents g) by (rewrite Hg1; reflexivity).
  eexists p, _, _. split.
  { apply sym_create_unnamed_from; [done..|]. by rewrite Hi. }
  gsimpl. split.
  { apply list_lookup_insert_eq. by eapply lookup_lt_Some. }
  rewrite Hi. repeat split.
  - intros ns. rewrite Hg1. by destruct ns.
  - rewrite Hg1. reflexivity.
Qed.

Definition file_scope : global := after (push_scope ns_ident) initial.

Lemma sym_create_unnamed_spec_witness :
  exists p g' s,
    sym_create_unnamed T_INT file_scope = Return p g'
    /\ heap g' !! p = Some s
    /\ linkage s = LINK_INTERN.
Proof.
  assert (H1 : (0 < scope_len (idents file_scope))%nat) by (vm_compute; lia).
  assert (H2 : pool_valid file_scope) by (vm_compute; constructor).
  destruct (sym_create_unnamed_spec T_INT file_scope H1 H2)
    as (p & g' & s & E1 & E2 & E3 & _).
  exists p, g', s. repeat split; [exact E1|exact E2|exact E3].
Defined.

(** ** Lookup (C5) *)

(** What probing one scope for a name gives: the entry of its table
    under that name when the scope is populated, nothing otherwise. *)
Definition probe (h : list symbol) (sc : scope) (nm : string) : option ptr :=
  match state sc with
  | SCOPE_INITIALIZED => hash_lookup h (table sc) nm
  | _ => None
  end.

Lemma scan_scopes_step h frames nm i sc :
  frames !! i = Some sc ->
  scan_scopes h frames nm (S i)
  = match probe h sc nm with
    | Some p => Some p
    | None => scan_scopes h frames nm i
    end.
Proof. intros H. simpl. rewrite H. unfold probe. by destruct (state sc). Qed.

Lemma scan_scopes_None h frames nm k :
  (k <= length frames)%nat ->
  scan_scopes h frames nm k = None <->
  (forall d sc, (d < k)%nat -> frames !! d = Some sc -> probe h sc nm = None).
Proof.
  induction k as [|i IH]; intros Hk.
  - split; [intros _ d sc Hd; lia|done].
  - destruct (lookup_lt_is_Some_2 frames i) as [sc Hsc]; [lia|].
    assert (Hi : (i <= length frames)%nat) by lia.
    destruct (IH Hi) as [IH1 IH2].
    rewrite (scan_scopes_step _ _ _ _ _ Hsc). split.
    + intros H d sc' Hd Hsc'. destruct (probe h sc nm) eqn:E; [done|].
      destruct (decide (d = i)) as [->|Hne]; [congruence|].
      apply (IH1 H d); [lia|done].
    + intros H. rewrite (H i sc); [|lia|done]. apply IH2.
      intros d sc' Hd. apply H. lia.
Qed.

Lemma scan_scopes_Some h frames nm k p :
  (k <= length frames)%nat ->
  scan_scopes h frames nm k = Some p <->
  (exists d sc, (d < k)%nat /\ frames !! d = Some sc
                /\ probe h sc nm = Some p
                /\ forall d' sc', (d < d' < k)%nat -> frames !! d' = Some sc' ->
                                  probe h sc' nm = None).
Proof.
  induction k as [|i IH]; intros Hk.
  - split; [done|]. intros (d & _ & Hd & _). lia.
  - destruct (lookup_lt_is_Some_2 frames i) as [sc Hsc]; [lia|].
    assert (Hi : (i <= length frames)%nat) by lia.
    destruct (IH Hi) as [IH1 IH2].
    rewrite (scan_scopes_step _ _ _ _ _ Hsc). split.
    + destruct (probe h sc nm) as [q|] eqn:E.
      * intros [= ->]. exists i, sc. repeat split; [lia|done..|]. intros; lia.
      * intros H. destruct (IH1 H) as (d & sc' & Hd & Hsc' & Hp & Hno).
        exists d, sc'. repeat split; [lia|done..|].
        intros d' sc'' Hd' Hsc''. destruct (decide (d' = i)) as [->|Hne].
        -- congruence.
        -- apply (Hno d'); [lia|done].
    + intros (d & sc' & Hd & Hsc' & Hp & Hno).
      destruct (decide (d = i)) as [->|Hne].
      * assert (sc' = sc) as -> by congruence. by rewrite Hp.
      * rewrite (Hno i sc); [|lia|done]. apply IH2.
        exists d, sc'. repeat split; [lia|done..|].
        intros d' sc'' Hd'. apply Hno. lia.
Qed.

Lemma hash_lookup_Some h tab nm p :
  hash_lookup h tab nm = Some p ->
  In p tab /\ exists s, h !! p = Some s /\ name s = nm.
Proof.
  unfold hash_lookup. intros H. apply find_some in H as [Hin Hk].
  split; [done|]. unfold has_key, sym_hash_key in Hk.
  destruct (h !! p) as [s|]; [|done]. simpl in Hk.
  apply String.eqb_eq in Hk. eauto.
Qed.

Lemma has_key_insert h p f x key q :
  h !! p = Some x -> name (f x) = name x ->
  has_key (<[p := f x]> h) key q = has_key h key q.
Proof.
  intros Hx Hn. unfold has_key, sym_hash_key.
  destruct (decide (p = q)) as [->|Hne].
  - rewrite list_lookup_insert_eq by (by eapply lookup_lt_Some).
    rewrite Hx. simpl. by rewrite Hn.
  - by rewrite list_lookup_insert_ne.
Qed.

Lemma hash_lookup_insert h p f x tab key :
  h !! p = Some x -> name (f x) = name x ->
  hash_lookup (<[p := f x]> h) tab key = hash_lookup h tab key.
Proof.
  intros Hx Hn. unfold hash_lookup. induction tab as [|q tab IH]; [done|].
  simpl. rewrite (has_key_insert _ _ _ _ _ _ Hx Hn). by rewrite IH.
Qed.


Lemma sym_lookup_scan ns nm g :
  (scope_len (get_ns ns g) <= length (scope_frames (get_ns ns g)))%nat ->
  sym_lookup ns nm g
  = match scan_scopes (heap g) (scope_frames (get_ns ns g)) nm
            (scope_len (get_ns ns g)) with
    | Some p =>
        match heap g !! p with
        | Some x =>
            Return (Some p) (with_heap (<[p := set_referenced true x]> (heap g)) g)
        | None => Fault Invalid_access
        end
    | None => Return None g
    end.
Proof.
  intros H. unfold sym_lookup, bind, gets.
  destruct (Nat.leb_spec (scope_len (get_ns ns g))
              (length (scope_frames (get_ns ns g)))); [|lia].
  unfold ret. destruct (scan_scopes _ _ _ _) as [p|]; [|done].
  unfold update. by destruct (heap g !! p).
Qed.




(** ** The type merge (C2) *)

(** The symbol already has the type that is applied, and is not a
    function that is still to be defined. *)
Definition already_applied (s : symbol) (ty : Ty) : bool :=
  type_equal (type s) ty
  && negb (is_function (type s)
           && negb (symtype_eqb (symtype s) SYM_DEFINITION)).

(** Two function types with identical return types and as many
    members; two array types with identical element types. *)
Definition function_completion (old new : Ty) : bool :=
  is_function old && is_function new
  && type_equal (type_next old) (type_next new)
  && (nmembers old =? nmembers new)%nat.

Definition array_completion (old new : Ty) : bool :=
  is_array old && is_array new
  && type_equal (type_next old) (type_next new).

Definition report (d : diagnostic) (g : global) : global :=
  with_diagnostics (diagnostics g ++ [d]) g.

Lemma apply_type_cases p ty g s :
  heap g !! p = Some s ->
  apply_type p ty g
  = if already_applied s ty then Return tt g
    else if function_completion (type s) ty then
      Return tt (with_heap (<[p := set_type ty s]> (heap g)) g)
    else if array_completion (type s) ty then
      if (size_of (type s) =? 0)%N then
        if (size_of ty =? 0)%N then Fault Assertion_failed
        else Return tt
               (with_heap
                  (<[p := set_type
                            (set_array_length (type s) (type_array_len ty))
                            s]> (heap g)) g)
      else Return tt g
    else Exit 1 (report (Incompatible_declaration (name s) (type s) ty) g).
Proof.
  intros Hs. unfold apply_type. unfold bind at 1. rewrite (load_Some _ _ _ Hs).
  unfold already_applied, function_completion, array_completion.
  destruct (type_equal (type s) ty
            && negb (is_function (type s)
                     && negb (symtype_eqb (symtype s) SYM_DEFINITION)));
    [done|].
  destruct (type s) as [| | |x|r m v|e len] eqn:Et; simpl;
    try (unfold bind, ret, when, error, modify, exit;
         rewrite (load_Some _ _ _ Hs); by rewrite ?Et).
  - (* function *)
    destruct (is_function ty && type_equal r (type_next ty)) eqn:E1.
    + destruct (length m =? nmembers ty)%nat eqn:E2; simpl.
      * unfold bind, when, ret. simpl. by rewrite (update_Some _ _ _ _ Hs).
      * unfold bind, when, ret, error, modify, exit. simpl.
        rewrite (load_Some _ _ _ Hs). by rewrite Et.
    + unfold bind, when, ret, error, modify, exit. simpl.
      rewrite (load_Some _ _ _ Hs). rewrite Et.
      destruct (length m =? nmembers ty)%nat; by rewrite ?andb_false_r.
  - (* array *)
    destruct (is_array ty && type_equal e (type_next ty)) eqn:E1.
    + destruct (len * size_of e =? 0)%N eqn:E2.
      * destruct (size_of ty =? 0)%N eqn:E3; simpl.
        -- by unfold bind, when, c_assert, fail.
        -- unfold bind, when, c_assert, ret. simpl.
           by rewrite (update_Some _ _ _ _ Hs).
      * by unfold bind, when, ret.
    + unfold bind, when, ret, error, modify, exit. simpl.
      rewrite (load_Some _ _ _ Hs). by rewrite Et.
Qed.

Lemma legacy_load_Some ns i l s :
  Legacy.symbol_list (Legacy.get_ns ns l) !! i = Some s ->
  Legacy.load ns i l = Legacy.Return s l.
Proof. intros H. unfold Legacy.load. by rewrite H. Qed.

(** The record of symbol [i] of namespace [ns] replaced. *)
Definition legacy_store (ns : ns_id) (i : nat) (s : Legacy.symbol)
    (l : Legacy.global) : Legacy.global :=
  Legacy.set_ns ns
    {| Legacy.symbol_list := <[i := s]> (Legacy.symbol_list (Legacy.get_ns ns l));
       Legacy.scope_frames := Legacy.scope_frames (Legacy.get_ns ns l);
       Legacy.current_depth := Legacy.current_depth (Legacy.get_ns ns l) |} l.

Lemma legacy_update_Some ns i f l s :
  Legacy.symbol_list (Legacy.get_ns ns l) !! i = Some s ->
  Legacy.update ns i f l = Legacy.Return tt (legacy_store ns i (f s) l).
Proof. intros H. unfold Legacy.update. by rewrite H. Qed.

Definition legacy_already_applied (s : Legacy.symbol) (ty : Ty) : bool :=
  type_equal (Legacy.type s) ty
  && negb (is_function (Legacy.type s)
           && negb (symtype_eqb (Legacy.symtype s) SYM_DEFINITION)).

(** In the older implementation a function type with no members is
    completed by any member list, and the flags have to agree. *)
Definition legacy_function_completion (old new : Ty) : bool :=
  is_function old && is_function new
  && Bool.eqb (Legacy.type_flags old) (Legacy.type_flags new)
  && type_equal (type_next old) (type_next new)
  && ((nmembers old =? 0)%nat || (nmembers old =? nmembers new)%nat).

Definition legacy_report (d : Legacy.diagnostic) (l : Legacy.global)
  : Legacy.global :=
  Legacy.with_diagnostics (Legacy.diagnostics l ++ [d]) l.

Lemma legacy_apply_type_cases ns i ty l s :
  Legacy.symbol_list (Legacy.get_ns ns l) !! i = Some s ->
  Legacy.apply_type ns i ty l
  = if legacy_already_applied s ty then Legacy.Return tt l
    else if legacy_function_completion (Legacy.type s) ty then
      Legacy.Return tt
        (legacy_store ns i
           (Legacy.set_type (Legacy.set_members (Legacy.type s) ty) s) l)
    else if array_completion (Legacy.type s) ty then
      if (size_of (Legacy.type s) =? 0)%N then
        if (size_of ty =? 0)%N then Legacy.Fault Legacy.Assertion_failed
        else Legacy.Return tt
               (legacy_store ns i
                  (Legacy.set_type (Legacy.set_size (Legacy.type s) ty) s) l)
      else Legacy.Return tt l
    else Legacy.Exit 1
           (legacy_report
              (Legacy.Incompatible_declaration (Legacy.name s)
                 (Legacy.type s) ty) l).
Proof.
  intros Hs. unfold Legacy.apply_type. unfold Legacy.bind at 1.
  rewrite (legacy_load_Some _ _ _ _ Hs).
  unfold legacy_already_applied, legacy_function_completion, array_completion.
  destruct (type_equal (Legacy.type s) ty
            && negb (is_function (Legacy.type s)
                     && negb (symtype_eqb (Legacy.symtype s) SYM_DEFINITION)));
    [done|].
  destruct (Legacy.type s) as [| | |x|r m v|e len] eqn:Et; simpl;
    try (unfold Legacy.bind, Legacy.ret, Legacy.when, Legacy.error,
           Legacy.modify, Legacy.exit;
         rewrite (legacy_load_Some _ _ _ _ Hs); by rewrite ?Et).
  - (* function *)
    destruct ty as [| | |x'|r' m' v'|e' len']; simpl;
      try (unfold Legacy.bind, Legacy.ret, Legacy.when, Legacy.error,
             Legacy.modify, Legacy.exit;
           rewrite (legacy_load_Some _ _ _ _ Hs); by rewrite ?Et).
    destruct (Bool.eqb v v'); simpl;
      [|unfold Legacy.bind, Legacy.ret, Legacy.when, Legacy.error,
          Legacy.modify, Legacy.exit;
        rewrite (legacy_load_Some _ _ _ _ Hs); by rewrite ?Et].
    destruct (type_equal r r'); simpl;
      [|unfold Legacy.bind, Legacy.ret, Legacy.when, Legacy.error,
          Legacy.modify, Legacy.exit;
        rewrite (legacy_load_Some _ _ _ _ Hs); by rewrite ?Et].
    destruct ((length m =? 0)%nat || (length m =? length m')%nat); simpl.
    + unfold Legacy.bind, Legacy.when, Legacy.ret.
      by rewrite (legacy_update_Some _ _ _ _ _ Hs).
    + unfold Legacy.bind, Legacy.ret, Legacy.when, Legacy.error,
        Legacy.modify, Legacy.exit.
      rewrite (legacy_load_Some _ _ _ _ Hs). by rewrite ?Et.
  - (* array *)
    destruct ty as [| | |x'|r' m' v'|e' len']; simpl;
      try (unfold Legacy.bind, Legacy.ret, Legacy.when, Legacy.error,
             Legacy.modify, Legacy.exit;
           rewrite (legacy_load_Some _ _ _ _ Hs); by rewrite ?Et).
    destruct (type_equal e e'); simpl;
      [|unfold Legacy.bind, Legacy.ret, Legacy.when, Legacy.error,
          Legacy.modify, Legacy.exit;
        rewrite (legacy_load_Some _ _ _ _ Hs); by rewrite ?Et].
    destruct (len * size_of e =? 0)%N; simpl; [|done].
    destruct (len' * size_of e' =? 0)%N; simpl; [done|].
    unfold Legacy.bind, Legacy.when, Legacy.c_assert, Legacy.ret. simpl.
    by rewrite (legacy_update_Some _ _ _ _ _ Hs).
Qed.

Definition int_f_int : Ty := T_FUNCTION T_INT [T_INT] false.
Definition int_f_int_int : Ty := T_FUNCTION T_INT [T_INT; T_INT] false.
Definition int_f_unspecified : Ty := T_FUNCTION T_INT [] false.

Definition legacy_file_scope : Legacy.global :=
  Legacy.after (Legacy.push_scope ns_ident) Legacy.initial.

Definition legacy_decl (nm : string) (ty : Ty) (kind : symtype_t)
    (link : linkage_t) : Legacy.symbol :=
  {| Legacy.name := nm; Legacy.type := ty; Legacy.symtype := kind;
     Legacy.linkage := link; Legacy.depth := 0; Legacy.n := 0;
     Legacy.stack_offset := 0 |}.

(** C2, as the claim states it, fails on the code.  A function type
    with an identical return type is refused when the number of
    parameters differs ([int f(int);] then [int f(int, int);] is fatal
    in both implementations), and a mismatch of two known array lengths
    is not an error ([int a[10];] then [int a[20];] returns, with the
    type left as it was).  With a parameterless [int f();] modelled as
    a function of no members, [int f(int, int)] completes it in
    [src/symtab.c] and is fatal in [src/parser/symtab.c]. *)
Lemma apply_type_not_as_claimed :
  let f := after (sym_add ns_ident "f" int_f_int SYM_DECLARATION LINK_EXTERN)
             file_scope in
  let a := after (sym_add ns_ident "a" (T_ARRAY T_INT 10) SYM_DEFINITION
                    LINK_EXTERN) file_scope in
  let f0 := after (sym_add ns_ident "f" int_f_unspecified SYM_DECLARATION
                     LINK_EXTERN) file_scope in
  let lf := Legacy.after
              (Legacy.sym_add ns_ident
                 (legacy_decl "f" int_f_int SYM_DECLARATION LINK_EXTERN))
              legacy_file_scope in
  let la := Legacy.after
              (Legacy.sym_add ns_ident
                 (legacy_decl "a" (T_ARRAY T_INT 10) SYM_DEFINITION LINK_EXTERN))
              legacy_file_scope in
  let lf0 := Legacy.after
               (Legacy.sym_add ns_ident
                  (legacy_decl "f" int_f_unspecified SYM_DECLARATION
                     LINK_EXTERN))
               legacy_file_scope in
  (type <$> heap f !! 0%nat = Some int_f_int
   /\ apply_type 0%nat int_f_int_int f
      = Exit 1
          (report (Incompatible_declaration "f" int_f_int int_f_int_int) f))
  /\ Legacy.exited (Legacy.apply_type ns_ident 0%nat int_f_int_int) lf = Some 1
  /\ (type <$> heap a !! 0%nat = Some (T_ARRAY T_INT 10)
      /\ apply_type 0%nat (T_ARRAY T_INT 20) a = Return tt a)
  /\ Legacy.apply_type ns_ident 0%nat (T_ARRAY T_INT 20) la
     = Legacy.Return tt la
  /\ exited (apply_type 0%nat int_f_int_int) f0 = Some 1
  /\ Legacy.returned (Legacy.apply_type ns_ident 0%nat int_f_int_int) lf0
     = Some tt.
Proof. vm_compute. by repeat split. Qed.

(** C2, amended. [apply_type] returns without a fatal error exactly in
    these cases: the symbol already has the incoming type (and is not a
    function still to be defined); the existing and the incoming type
    are function types with identical return types and the same number
    of members (in [src/symtab.c]: with equal flags, and the existing
    one has no members or the same number), and the incoming member
    list is adopted; both are array types with identical element types,
    where an existing array of size zero adopts the length of an
    incoming array of a known size and an existing array of a known
    size is kept as it is, whatever the incoming length.  Every other
    pair of types is the fatal error of an incompatible declaration:
    the diagnostic is reported and the process exits with status 1,
    the symbol unchanged. *)
Theorem apply_type_completion :
  (forall p ty g s,
     heap g !! p = Some s ->
     (already_applied s ty = true -> apply_type p ty g = Return tt g)
     /\ (already_applied s ty = false ->
         function_completion (type s) ty = true ->
         apply_type p ty g
         = Return tt (with_heap (<[p := set_type ty s]> (heap g)) g))
     /\ (already_applied s ty = false ->
         array_completion (type s) ty = true ->
         size_of (type s) = 0%N -> size_of ty <> 0%N ->
         apply_type p ty g
         = Return tt
             (with_heap
                (<[p := set_type
                          (set_array_length (type s) (type_array_len ty)) s]>
                   (heap g)) g))
     /\ (already_applied s ty = false ->
         array_completion (type s) ty = true ->
         size_of (type s) <> 0%N ->
         apply_type p ty g = Return tt g)
     /\ (already_applied s ty = false ->
         function_completion (type s) ty = false ->
         array_completion (type s) ty = false ->
         apply_type p ty g
         = Exit 1
             (report (Incompatible_declaration (name s) (type s) ty) g)))
  /\ (forall ns i ty l s,
        Legacy.symbol_list (Legacy.get_ns ns l) !! i = Some s ->
        (legacy_already_applied s ty = true ->
         Legacy.apply_type ns i ty l = Legacy.Return tt l)
        /\ (legacy_already_applied s ty = false ->
            legacy_function_completion (Legacy.type s) ty = true ->
            Legacy.apply_type ns i ty l
            = Legacy.Return tt
                (legacy_store ns i
                   (Legacy.set_type (Legacy.set_members (Legacy.type s) ty) s)
                   l))
        /\ (legacy_already_applied s ty = false ->
            array_completion (Legacy.type s) ty = true ->
            size_of (Legacy.type s) = 0%N -> size_of ty <> 0%N ->
            Legacy.apply_type ns i ty l
            = Legacy.Return tt
                (legacy_store ns i
                   (Legacy.set_type (Legacy.set_size (Legacy.type s) ty) s) l))
        /\ (legacy_already_applied s ty = false ->
            array_completion (Legacy.type s) ty = true ->
            size_of (Legacy.type s) <> 0%N ->
            Legacy.apply_type ns i ty l = Legacy.Return tt l)
        /\ (legacy_already_applied s ty = false ->
            legacy_function_completion (Legacy.type s) ty = false ->
            array_completion (Legacy.type s) ty = false ->
            Legacy.apply_type ns i ty l
            = Legacy.Exit 1
                (legacy_report
                   (Legacy.Incompatible_declaration (Legacy.name s)
                      (Legacy.type s) ty) l))).
Proof.
  split.
  - intros p ty g s Hs. rewrite (apply_type_cases _ _ _ _ Hs).
    repeat split.
    + by intros ->.
    + by intros -> ->.
    + intros -> H ->%N.eqb_eq Hn%N.eqb_neq. rewrite Hn.
      destruct (function_completion (type s) ty) eqn:E; [|by rewrite H].
      unfold function_completion, array_completion in *.
      by destruct (type s), ty.
    + intros -> H Hn%N.eqb_neq. rewrite Hn, H.
      destruct (function_completion (type s) ty) eqn:E; [|done].
      unfold function_completion, array_completion in *.
      by destruct (type s), ty.
    + by intros -> -> ->.
  - intros ns i ty l s Hs. rewrite (legacy_apply_type_cases _ _ _ _ _ Hs).
    repeat split.
    + by intros ->.
    + by intros -> ->.
    + intros -> H ->%N.eqb_eq Hn%N.eqb_neq. rewrite Hn.
      destruct (legacy_function_completion (Legacy.type s) ty) eqn:E;
        [|by rewrite H].
      unfold legacy_function_completion, array_completion in *.
      by destruct (Legacy.type s), ty.
    + intros -> H Hn%N.eqb_neq. rewrite Hn, H.
      destruct (legacy_function_completion (Legacy.type s) ty) eqn:E; [|done].
      unfold legacy_function_completion, array_completion in *.
      by destruct (Legacy.type s), ty.
    + by intros -> -> ->.
Qed.

(** [extern int a[];] at file scope. *)
Definition extern_array : global :=
  after (sym_add ns_ident "a" (T_ARRAY T_INT 0) SYM_DECLARATION LINK_EXTERN)
    file_scope.

Definition extern_array_symbol : symbol :=
  {| name := "a"; n := 0; type := T_ARRAY T_INT 0;
     symtype := SYM_DECLARATION; linkage := LINK_EXTERN; depth := 0;
     referenced := false; stack_offset := 0; value := V_ZERO |}.

Lemma apply_type_completion_witness :
  heap extern_array !! 0%nat = Some extern_array_symbol
  /\ apply_type 0%nat (T_ARRAY T_INT 10) extern_array
     = Return tt
         (with_heap
            (<[0%nat := set_type (T_ARRAY T_INT 10) extern_array_symbol]>
               (heap extern_array)) extern_array).
Proof.
  assert (H : heap extern_array !! 0%nat = Some extern_array_symbol)
    by (vm_compute; reflexivity).
  split; [exact H|].
  apply (proj1 apply_type_completion 0%nat (T_ARRAY T_INT 10) extern_array
           extern_array_symbol H); [reflexivity..|discriminate].
Defined.

(** ** Adding a declaration: duplicates (C4) *)

Lemma symtype_eqb_neq a b : a <> b -> symtype_eqb a b = false.
Proof.
  intros H. destruct (symtype_eqb a b) eqn:E; [|done].
  by apply symtype_eqb_eq in E.
Qed.

Lemma sym_lookup_Some_inv ns nm g p g1 :
  sym_lookup ns nm g = Return (Some p) g1 ->
  exists x,
    heap g !! p = Some x /\ name x = nm
    /\ g1 = with_heap (<[p := set_referenced true x]> (heap g)) g
    /\ scan_scopes (heap g) (scope_frames (get_ns ns g)) nm
         (scope_len (get_ns ns g)) = Some p
    /\ (0 < scope_len (get_ns ns g) <= length (scope_frames (get_ns ns g)))%nat.
Proof.
  unfold sym_lookup, bind, gets.
  destruct (Nat.leb_spec (scope_len (get_ns ns g))
              (length (scope_frames (get_ns ns g)))) as [Hle|]; [|done].
  simpl. destruct (scan_scopes _ _ _ _) as [q|] eqn:E; [|done].
  unfold update, ret. destruct (heap g !! q) as [x|] eqn:Hx; [|done].
  intros [= <- <-]. exists x. repeat split; try done.
  - apply scan_scopes_Some in E as (d & sc & _ & _ & Hp & _); [|done].
    unfold probe in Hp. destruct (state sc); try done.
    apply hash_lookup_Some in Hp as (_ & y & Hy & Hn). congruence.
  - destruct (scope_len (get_ns ns g)); [done|lia].
Qed.

Lemma sym_lookup_None_inv ns nm g g1 :
  sym_lookup ns nm g = Return None g1 ->
  g1 = g
  /\ scan_scopes (heap g) (scope_frames (get_ns ns g)) nm
       (scope_len (get_ns ns g)) = None
  /\ (scope_len (get_ns ns g) <= length (scope_frames (get_ns ns g)))%nat.
Proof.
  unfold sym_lookup, bind, gets.
  destruct (Nat.leb_spec (scope_len (get_ns ns g))
              (length (scope_frames (get_ns ns g)))) as [Hle|]; [|done].
  simpl. destruct (scan_scopes _ _ _ _) as [q|] eqn:E.
  - unfold update, ret. by destruct (heap g !! q).
  - by intros [= <-].
Qed.

(** The rule that completes a tentative definition or a definition by
    an [extern] declaration, wherever the symbol was found. *)
Definition extern_completion (kind : symtype_t) (link : linkage_t)
    (s : symbol) : bool :=
  linkage_eqb link LINK_EXTERN && symtype_eqb kind SYM_DECLARATION
  && (symtype_eqb (symtype s) SYM_TENTATIVE
      || symtype_eqb (symtype s) SYM_DEFINITION).

Lemma bind_Return {A B} (m : M A) (k : A -> M B) g a g' :
  m g = Return a g' -> bind m k g = k a g'.
Proof. intros H. unfold bind. by rewrite H. Qed.

Lemma bind_Exit {A B} (m : M A) (k : A -> M B) g c g' :
  m g = Exit c g' -> bind m k g = Exit c g'.
Proof. intros H. unfold bind. by rewrite H. Qed.

Lemma bind_Fault {A B} (m : M A) (k : A -> M B) g f :
  m g = Fault f -> bind m k g = Fault f.
Proof. intros H. unfold bind. by rewrite H. Qed.

(** The asserted precondition of [sym_add]. *)
Definition sym_add_pre (ns : ns_id) (kind : symtype_t) : Prop :=
  kind <> SYM_LABEL /\ (kind = SYM_TAG -> ns = ns_tag).

Lemma sym_add_eq ns nm ty kind link g :
  sym_add_pre ns kind ->
  sym_add ns nm ty kind link g
  = (r <- sym_add_resolve ns nm ty kind ;;
     match r with
     | inl sym => ret sym
     | inr (Some sym) => sym_add_merge ns nm ty kind link sym
     | inr None => sym_add_create ns nm ty kind link
     end) g.
Proof.
  intros [Hl Ht]. unfold sym_add.
  rewrite (symtype_eqb_neq _ _ Hl).
  assert (Htag : negb (symtype_eqb kind SYM_TAG) || ns_id_eqb ns ns_tag = true).
  { destruct (symtype_eqb kind SYM_TAG) eqn:E; [|done].
    apply symtype_eqb_eq in E. by rewrite (Ht E). }
  by rewrite Htag.
Qed.

Lemma sym_add_resolve_found ns nm ty kind g p g1 :
  kind <> SYM_STRING_VALUE ->
  sym_lookup ns nm g = Return (Some p) g1 ->
  sym_add_resolve ns nm ty kind g = Return (inr (Some p)) g1.
Proof.
  intros Hsv Hlook. unfold sym_add_resolve.
  rewrite (symtype_eqb_neq _ _ Hsv). simpl.
  by rewrite (bind_Return _ _ _ _ _ Hlook).
Qed.

Lemma sym_add_resolve_string ns nm ty g :
  sym_add_resolve ns nm ty SYM_STRING_VALUE g = Return (inr None) g.
Proof. reflexivity. Qed.

Lemma current_scope_depth_eq ns g :
  (0 < scope_len (get_ns ns g))%nat ->
  current_scope_depth ns g = Return (scope_len (get_ns ns g) - 1)%nat g.
Proof.
  intros H. unfold current_scope_depth, bind, gets, c_assert.
  by destruct (scope_len (get_ns ns g)); [lia|].
Qed.

Lemma sym_add_merge_duplicate ns nm ty kind link g p s :
  heap g !! p = Some s ->
  (0 < scope_len (get_ns ns g))%nat ->
  depth s = (scope_len (get_ns ns g) - 1)%nat ->
  depth s <> O ->
  extern_completion kind link s = false ->
  sym_add_merge ns nm ty kind link p g
  = Exit 1 (report (Duplicate_definition nm) g).
Proof.
  intros Hs Hlen Hd Hd0 Hext. unfold sym_add_merge.
  rewrite (bind_Return _ _ _ _ _ (load_Some _ _ _ Hs)).
  unfold extern_completion in Hext. rewrite Hext.
  rewrite (bind_Return _ _ _ _ _ (current_scope_depth_eq _ _ Hlen)).
  rewrite <- Hd. rewrite Nat.eqb_refl.
  destruct (Nat.eqb_spec (depth s) 0); [done|]. reflexivity.
Qed.

Lemma sym_add_duplicate ns nm ty kind link g p g1 s :
  sym_add_pre ns kind ->
  kind <> SYM_STRING_VALUE ->
  sym_lookup ns nm g = Return (Some p) g1 ->
  heap g1 !! p = Some s ->
  depth s = (scope_len (get_ns ns g) - 1)%nat ->
  depth s <> O ->
  extern_completion kind link s = false ->
  sym_add ns nm ty kind link g
  = Exit 1 (report (Duplicate_definition nm) g1).
Proof.
  intros Hpre Hsv Hlook Hs Hd Hd0 Hext.
  destruct (sym_lookup_Some_inv _ _ _ _ _ Hlook) as (x & Hx & Hn & Hg1 & _ & Hlen).
  assert (Hns : get_ns ns g1 = get_ns ns g) by (rewrite Hg1; by destruct ns).
  rewrite sym_add_eq by done.
  rewrite (bind_Return _ _ _ _ _ (sym_add_resolve_found _ _ ty _ _ _ _ Hsv Hlook)).
  apply sym_add_merge_duplicate with s; rewrite ?Hns; try done. lia.
Qed.

Lemma legacy_bind_Return {A B} (m : Legacy.M A) (k : A -> Legacy.M B) l a l' :
  m l = Legacy.Return a l' -> Legacy.bind m k l = k a l'.
Proof. intros H. unfold Legacy.bind. by rewrite H. Qed.

Lemma legacy_sym_lookup_state ns nm l r l' :
  Legacy.sym_lookup ns nm l = Legacy.Return r l' -> l' = l.
Proof.
  unfold Legacy.sym_lookup, Legacy.bind, Legacy.gets.
  destruct (_ <? 0); [by intros [= _ <-]|].
  destruct (Legacy.scope_frames _); [|done].
  destruct (Legacy.scan_scopes _ _ _ _); [|done]. by intros [= _ <-].
Qed.

Definition legacy_extern_completion (arg s : Legacy.symbol) : bool :=
  linkage_eqb (Legacy.linkage arg) LINK_EXTERN
  && symtype_eqb (Legacy.symtype arg) SYM_DECLARATION
  && (symtype_eqb (Legacy.symtype s) SYM_TENTATIVE
      || symtype_eqb (Legacy.symtype s) SYM_DEFINITION).

Lemma legacy_sym_add_duplicate ns arg l i l1 s :
  Legacy.sym_lookup ns (Legacy.name arg) l = Legacy.Return (Some i) l1 ->
  Legacy.symbol_list (Legacy.get_ns ns l) !! i = Some s ->
  Legacy.depth s = Legacy.current_depth (Legacy.get_ns ns l) ->
  Legacy.current_depth (Legacy.get_ns ns l) <> 0 ->
  legacy_extern_completion arg s = false ->
  Legacy.sym_add ns arg l
  = Legacy.Exit 1
      (legacy_report (Legacy.Duplicate_definition (Legacy.name arg)) l).
Proof.
  intros Hlook Hs Hd Hd0 Hext.
  pose proof (legacy_sym_lookup_state _ _ _ _ _ Hlook) as ->.
  unfold Legacy.sym_add. rewrite (legacy_bind_Return _ _ _ _ _ Hlook).
  unfold Legacy.sym_add_merge.
  rewrite (legacy_bind_Return _ _ _ _ _ (legacy_load_Some _ _ _ _ Hs)).
  unfold legacy_extern_completion in Hext. rewrite Hext.
  unfold Legacy.bind at 1, Legacy.gets. rewrite Hd, Z.eqb_refl.
  destruct (Z.eqb_spec (Legacy.current_depth (Legacy.get_ns ns l)) 0); [done|].
  reflexivity.
Qed.

(** Two string literals in one block, entered under one name. *)
Definition block_with_string : global :=
  after (sym_add ns_ident ".LC" (T_ARRAY T_CHAR 3) SYM_STRING_VALUE LINK_INTERN)
    (after (push_scope ns_ident) file_scope).

(** C4, as the claim states it, fails on the code: for a declaration
    of kind string literal [sym_add] does not look the name up, so a
    second one under a name that is visible at the same non-zero depth
    is a new symbol, not a duplicate definition. *)
Lemma sym_add_string_value_not_duplicate :
  returned (sym_lookup ns_ident ".LC") block_with_string = Some (Some 0%nat)
  /\ (depth <$> heap block_with_string !! 0%nat) = Some 1%nat
  /\ scope_len (idents block_with_string) = 2%nat
  /\ returned
       (sym_add ns_ident ".LC" (T_ARRAY T_CHAR 3) SYM_STRING_VALUE LINK_INTERN)
       block_with_string = Some 1%nat
  /\ diagnostics
       (after
          (sym_add ns_ident ".LC" (T_ARRAY T_CHAR 3) SYM_STRING_VALUE
             LINK_INTERN) block_with_string) = [].
Proof. vm_compute. by repeat split. Qed.

(** C4, amended. When [sym_add] is called with a kind other than
    string literal, a symbol of that name is visible, its recorded
    depth is the current depth and not zero, and the declaration is not
    an [extern] declaration of a symbol that is tentative or defined,
    then [sym_add] reports a duplicate definition and exits with status
    1; there is no merge at a depth other than zero.  In
    [src/symtab.c], which has no string-literal kind to skip, this
    holds for every kind. *)
Theorem sym_add_duplicate_definition :
  (forall ns nm ty kind link g p g1 s,
     sym_add_pre ns kind ->
     kind <> SYM_STRING_VALUE ->
     sym_lookup ns nm g = Return (Some p) g1 ->
     heap g1 !! p = Some s ->
     depth s = (scope_len (get_ns ns g) - 1)%nat ->
     depth s <> O ->
     extern_completion kind link s = false ->
     sym_add ns nm ty kind link g
     = Exit 1 (report (Duplicate_definition nm) g1))
  /\ (forall ns arg l i l1 s,
        Legacy.sym_lookup ns (Legacy.name arg) l = Legacy.Return (Some i) l1 ->
        Legacy.symbol_list (Legacy.get_ns ns l) !! i = Some s ->
        Legacy.depth s = Legacy.current_depth (Legacy.get_ns ns l) ->
        Legacy.current_depth (Legacy.get_ns ns l) <> 0 ->
        legacy_extern_completion arg s = false ->
        Legacy.sym_add ns arg l
        = Legacy.Exit 1
            (legacy_report (Legacy.Duplicate_definition (Legacy.name arg)) l)).
Proof.
  split.
  - intros. by eapply sym_add_duplicate.
  - intros. by eapply legacy_sym_add_duplicate.
Qed.

(** [int x;] in a block. *)
Definition block_with_x : global :=
  after (sym_add ns_ident "x" T_INT SYM_DEFINITION LINK_NONE)
    (after (push_scope ns_ident) file_scope).

Lemma sym_add_duplicate_definition_witness :
  sym_add ns_ident "x" T_INT SYM_DEFINITION LINK_NONE block_with_x
  = Exit 1
      (report (Duplicate_definition "x")
         (after (sym_lookup ns_ident "x") block_with_x)).
Proof.
  refine (proj1 sym_add_duplicate_definition ns_ident "x" T_INT
            SYM_DEFINITION LINK_NONE block_with_x 0%nat _
            (set_referenced true
               (mk_symbol "x" 0 T_INT SYM_DEFINITION LINK_NONE 1 false 0 V_ZERO))
            _ _ _ _ _ _ _).
  - split; [discriminate|discriminate].
  - discriminate.
  - reflexivity.
  - reflexivity.
  - reflexivity.
  - discriminate.
  - reflexivity.
Defined.

(** ** Function declarations across scopes (C1) *)

Lemma set_type_id s : set_type (type s) s = s.
Proof. by destruct s. Qed.

Lemma set_depth_id s : set_depth (depth s) s = s.
Proof. by destruct s. Qed.

(** A successful [apply_type] changes at most the type of the symbol. *)
Lemma apply_type_Return_inv p ty g g1 :
  apply_type p ty g = Return tt g1 ->
  exists s t,
    heap g !! p = Some s
    /\ g1 = with_heap (<[p := set_type t s]> (heap g)) g.
Proof.
  intros H. destruct (heap g !! p) as [s|] eqn:Hs.
  - rewrite (apply_type_cases _ _ _ _ Hs) in H. exists s.
    assert (Hid : g = with_heap (<[p := set_type (type s) s]> (heap g)) g).
    { rewrite set_type_id, list_insert_id by done. by destruct g. }
    repeat case_match; try done; injection H as <-; eauto.
  - unfold apply_type, bind, load in H. by rewrite Hs in H.
Qed.

Lemma sym_lookup_function_Some_inv nm g p g1 :
  sym_lookup_function nm g = Return (Some p) g1 ->
  g1 = g /\ hash_lookup (heap g) (functions g) nm = Some p.
Proof.
  unfold sym_lookup_function, bind, gets, when, modify, ret.
  destruct (functions_init g) eqn:E; simpl.
  - intros [= H <-]. done.
  - done.
Qed.

Lemma hash_lookup_app_None h tab p nm :
  hash_lookup h tab nm = None ->
  has_key h nm p = true ->
  hash_lookup h (tab ++ [p]) nm = Some p.
Proof.
  unfold hash_lookup. induction tab as [|q tab IH]; simpl.
  - intros _ ->. done.
  - destruct (has_key h nm q); [done|]. apply IH.
Qed.

Lemma sym_make_visible_eq ns p g sc :
  (0 < scope_len (get_ns ns g))%nat ->
  scope_frames (get_ns ns g) !! (scope_len (get_ns ns g) - 1)%nat = Some sc ->
  sym_make_visible ns p g
  = Return tt
      (set_ns ns
         (with_scopes
            (<[(scope_len (get_ns ns g) - 1)%nat :=
                 mk_scope SCOPE_INITIALIZED
                   (hash_insert (heap g)
                      (match state sc with
                       | SCOPE_INITIALIZED => table sc
                       | _ => []
                       end) p)]> (scope_frames (get_ns ns g)))
            (scope_len (get_ns ns g)) (max_scope_depth (get_ns ns g))
            (get_ns ns g)) g).
Proof.
  intros Hlen Hsc. unfold sym_make_visible, bind, gets. rewrite Hsc.
  destruct (scope_len (get_ns ns g)) eqn:E; [lia|].
  unfold update_ns, modify. rewrite E. by destruct (state sc).
Qed.

Lemma sym_add_resolve_function nm ty kind g p :
  kind <> SYM_STRING_VALUE ->
  is_function ty = true ->
  sym_lookup ns_ident nm g = Return None g ->
  sym_lookup_function nm g = Return (Some p) g ->
  sym_add_resolve ns_ident nm ty kind g
  = (apply_type p ty ;;;
     sym_make_visible ns_ident p ;;;
     d <- current_scope_depth ns_ident ;;
     s <- load p ;;
     when (d <? depth s)%nat
       (d' <- current_scope_depth ns_ident ;;
        update p (set_depth d')) ;;;
     ret (inl p)) g.
Proof.
  intros Hsv Hf Hlook Hfun. unfold sym_add_resolve.
  rewrite (symtype_eqb_neq _ _ Hsv). simpl.
  rewrite (bind_Return _ _ _ _ _ Hlook). rewrite Hf. simpl.
  unfold bind at 1. unfold c_assert, ret at 1.
  by rewrite (bind_Return _ _ _ _ _ Hfun).
Qed.

(** The function [bar] declared inside the body of [foo], back at file
    scope after the body. *)
Definition forward_declared : global :=
  after (pop_scope ns_ident)
    (after (pop_scope ns_ident)
       (after (sym_add ns_ident "bar" int_f_int SYM_DECLARATION LINK_EXTERN)
          (after (push_scope ns_ident)
             (after (push_scope ns_ident)
                (after (sym_add ns_ident "foo" (T_FUNCTION T_INT [] false)
                          SYM_DEFINITION LINK_EXTERN) file_scope))))).

(** C1, as the claim states it, fails on the code.  With [bar] not
    visible and present in the cross-scope function table, a
    function-typed declaration of kind string literal is not looked up
    at all and gives a new symbol; and when the type merge fails
    ([char bar(int)] against [int bar(int)]) the process exits and no
    symbol is returned. *)
Lemma sym_add_function_not_always_coerced :
  returned (sym_lookup ns_ident "bar") forward_declared = Some None
  /\ returned (sym_lookup_function "bar") forward_declared = Some (Some 1%nat)
  /\ returned
       (sym_add ns_ident "bar" int_f_int SYM_STRING_VALUE LINK_INTERN)
       forward_declared = Some 2%nat
  /\ symbol_list
       (idents
          (after (sym_add ns_ident "bar" int_f_int SYM_STRING_VALUE LINK_INTERN)
             forward_declared)) = [0; 1; 2]%nat
  /\ sym_add ns_ident "bar" (T_FUNCTION T_CHAR [T_INT] false) SYM_DEFINITION
       LINK_EXTERN forward_declared
     = Exit 1
         (report
            (Incompatible_declaration "bar" int_f_int
               (T_FUNCTION T_CHAR [T_INT] false)) forward_declared).
Proof. vm_compute. by repeat split. Qed.

(** C1, amended.  For a call to [sym_add] in the identifier namespace
    with a kind other than string literal and a function type, for a
    name that has no visible symbol while the cross-scope function
    table holds a symbol [p] of that name, [sym_add] applies the type
    merge to [p]; when the merge is fatal, so is [sym_add]; when it
    succeeds, [sym_add] returns [p] itself and creates no symbol (the
    heap and the master list keep their size), [p] is registered in the
    table of the current scope, which is populated from then on and
    gives [p] for the name, and the recorded depth of [p] is the
    smaller of its previous depth and the current depth.  Nothing else
    changes. *)
Theorem sym_add_function_coerced nm ty kind link g p :
  sym_add_pre ns_ident kind ->
  kind <> SYM_STRING_VALUE ->
  is_function ty = true ->
  (0 < scope_len (idents g))%nat ->
  sym_lookup ns_ident nm g = Return None g ->
  sym_lookup_function nm g = Return (Some p) g ->
  (forall c g1, apply_type p ty g = Exit c g1 ->
                sym_add ns_ident nm ty kind link g = Exit c g1)
  /\ (forall g1, apply_type p ty g = Return tt g1 ->
      exists g2 s1 sc,
        sym_add ns_ident nm ty kind link g = Return p g2
        /\ heap g1 !! p = Some s1
        /\ heap g2
           = <[p := set_depth (Nat.min (depth s1) (scope_len (idents g) - 1))
                      s1]> (heap g1)
        /\ length (heap g2) = length (heap g)
        /\ symbol_list (idents g2) = symbol_list (idents g)
        /\ scope_len (idents g2) = scope_len (idents g)
        /\ scope_frames (idents g2) !! (scope_len (idents g) - 1)%nat = Some sc
        /\ state sc = SCOPE_INITIALIZED
        /\ probe (heap g2) sc nm = Some p
        /\ labels g2 = labels g /\ tags g2 = tags g
        /\ temporaries g2 = temporaries g
        /\ functions g2 = functions g
        /\ diagnostics g2 = diagnostics g).
Proof.
  intros Hpre Hsv Hf Hlen Hlook Hfun.
  pose proof (sym_add_resolve_function nm ty kind g p Hsv Hf Hlook Hfun) as Hres.
  destruct (sym_lookup_None_inv _ _ _ _ Hlook) as (_ & Hscan & Hwf).
  destruct (sym_lookup_function_Some_inv _ _ _ _ Hfun) as (_ & Hftab).
  destruct (hash_lookup_Some _ _ _ _ Hftab) as (_ & s0 & Hs0 & Hn0).
  split.
  - intros c g1 Happ. rewrite sym_add_eq by done.
    unfold bind at 1. rewrite Hres. by rewrite (bind_Exit _ _ _ _ _ Happ).
  - intros g1 Happ.
    destruct (apply_type_Return_inv _ _ _ _ Happ) as (s & t & Hs & Hg1).
    assert (s = s0) as -> by congruence.
    set (s1 := set_type t s0).
    assert (Hs1 : heap g1 !! p = Some s1).
    { rewrite Hg1. gsimpl. apply list_lookup_insert_eq. by eapply lookup_lt_Some. }
    assert (Hns1 : idents g1 = idents g) by (by rewrite Hg1).
    destruct (lookup_lt_is_Some_2 (scope_frames (idents g))
                (scope_len (idents g) - 1)) as [sc0 Hsc0].
    { gsimpl. lia. }
    set (tab := match state sc0 with SCOPE_INITIALIZED => table sc0 | _ => [] end).
    assert (Htab : hash_lookup (heap g) tab nm = None).
    { unfold tab. destruct (state sc0) eqn:Est; try done.
      assert (Hp : probe (heap g) sc0 nm = None).
      { eapply scan_scopes_None; [exact Hwf|exact Hscan| |exact Hsc0]. gsimpl. lia. }
      unfold probe in Hp. by rewrite Est in Hp. }
    assert (Hkey1 : forall tb, hash_lookup (heap g1) tb nm = hash_lookup (heap g) tb nm).
    { intros tb. rewrite Hg1. gsimpl. by apply hash_lookup_insert. }
    assert (Hins : hash_insert (heap g1) tab p = (tab ++ [p])%list).
    { unfold hash_insert, sym_hash_key. rewrite Hs1. simpl.
      rewrite Hn0. by rewrite Hkey1, Htab. }
    set (sc := mk_scope SCOPE_INITIALIZED (tab ++ [p])%list).
    set (d := (scope_len (idents g) - 1)%nat).
    set (g2 := set_ns ns_ident
                 (with_scopes (<[d := sc]> (scope_frames (idents g)))
                    (scope_len (idents g)) (max_scope_depth (idents g))
                    (idents g)) g1).
    assert (Hvis : sym_make_visible ns_ident p g1 = Return tt g2).
    { rewrite (sym_make_visible_eq ns_ident p g1 sc0); gsimpl; rewrite ?Hns1; try done.
      fold tab. by rewrite Hins. }
    set (s2 := set_depth (Nat.min (depth s1) d) s1).
    set (g3 := with_heap (<[p := s2]> (heap g1)) g2).
    assert (Hadd : sym_add ns_ident nm ty kind link g = Return p g3).
    { rewrite sym_add_eq by done. unfold bind at 1. rewrite Hres.
      rewrite (bind_Return _ _ _ _ _ Happ).
      rewrite (bind_Return _ _ _ _ _ Hvis).
      rewrite (bind_Return _ _ _ _ _ (current_scope_depth_eq ns_ident g2 Hlen)).
      assert (Hs2 : heap g2 !! p = Some s1) by done.
      rewrite (bind_Return _ _ _ _ _ (load_Some _ _ _ Hs2)).
      change (scope_len (get_ns ns_ident g2) - 1)%nat with d.
      unfold when. destruct (Nat.ltb_spec d (depth s1)) as [Hlt|Hge].
      - unfold bind at 1.
        rewrite (bind_Return _ _ _ _ _ (current_scope_depth_eq ns_ident g2 Hlen)).
        rewrite (update_Some _ _ _ _ Hs2). unfold ret, g3, s2.
        change (scope_len (get_ns ns_ident g2) - 1)%nat with d.
        by rewrite Nat.min_r by lia.
      - unfold bind, ret, g3, s2. rewrite Nat.min_l by lia.
        rewrite set_depth_id. rewrite list_insert_id by done.
        reflexivity. }
    exists g3, s1, sc. split; [exact Hadd|]. split; [exact Hs1|].
    split; [reflexivity|].
    split. { unfold g3. gsimpl. rewrite length_insert, Hg1. gsimpl.
             by rewrite length_insert. }
    split. { unfold g3, g2. gsimpl. done. }
    split; [reflexivity|].
    split. { unfold g3, g2. gsimpl. apply list_lookup_insert_eq.
             eapply lookup_lt_Some, Hsc0. }
    split; [reflexivity|].
    split.
    { unfold probe, sc. simpl. unfold g3, s2. gsimpl.
      rewrite hash_lookup_insert by done.
      apply hash_lookup_app_None; [by rewrite Hkey1|].
      unfold has_key, sym_hash_key. rewrite Hs1. simpl.
      apply String.eqb_eq. unfold s1. simpl. exact Hn0. }
    unfold g3, g2. gsimpl. rewrite Hg1. by repeat split.
Qed.

Lemma sym_add_function_coerced_witness :
  exists g2,
    sym_add ns_ident "bar" int_f_int SYM_DEFINITION LINK_EXTERN forward_declared
    = Return 1%nat g2
    /\ symbol_list (idents g2) = [0; 1]%nat.
Proof.
  assert (Hpre : sym_add_pre ns_ident SYM_DEFINITION) by (split; discriminate).
  assert (Hsv : SYM_DEFINITION <> SYM_STRING_VALUE) by discriminate.
  assert (Hlen : (0 < scope_len (idents forward_declared))%nat)
    by (vm_compute; lia).
  destruct (proj2 (sym_add_function_coerced "bar" int_f_int SYM_DEFINITION
                     LINK_EXTERN forward_declared 1%nat Hpre Hsv eq_refl Hlen
                     eq_refl eq_refl)
              (after (apply_type 1%nat int_f_int) forward_declared) eq_refl)
    as (g2 & s1 & sc & H1 & _ & _ & _ & H5 & _).
  exists g2. split; [exact H1|exact H5].
Defined.

(** ** Errors (C3) *)

(** What a lookup may change on the way to an error: the [referenced]
    mark of symbols, and the function table when it is initialised at
    its first use. *)
Definition marked (x y : symbol) : Prop := y = x \/ y = set_referenced true x.

Record bookkeeping (g g' : global) : Prop := {
  bk_heap : Forall2 marked (heap g) (heap g');
  bk_functions : functions g' = functions g \/ functions g' = [];
  bk_namespaces : forall ns, get_ns ns g' = get_ns ns g;
  bk_freed : freed g' = freed g;
  bk_temporaries : temporaries g' = temporaries g;
  bk_counters :
    (n_sym_add g', n_temporary g', n_unnamed g', n_label g', n_constant g',
     n_string g')
    = (n_sym_add g, n_temporary g, n_unnamed g, n_label g, n_constant g,
       n_string g);
  bk_decl_memcpy : decl_memcpy g' = decl_memcpy g;
  bk_type_tags : type_tags g' = type_tags g;
  bk_buffer : sym_name_buffer g' = sym_name_buffer g;
  bk_diagnostics : diagnostics g' = diagnostics g;
}.

Lemma marked_refl x : marked x x.
Proof. by left. Qed.

Lemma marked_trans x y z : marked x y -> marked y z -> marked x z.
Proof. intros [->| ->] [->| ->]; unfold marked; auto. Qed.

Lemma bookkeeping_refl g : bookkeeping g g.
Proof.
  split; auto. apply Forall2_same_length_lookup. split; [done|].
  intros i x y Hx Hy. assert (x = y) as -> by congruence. apply marked_refl.
Qed.

Lemma Forall2_marked_trans l1 l2 l3 :
  Forall2 marked l1 l2 -> Forall2 marked l2 l3 -> Forall2 marked l1 l3.
Proof.
  intros H. revert l3. induction H; intros l3 H3; inversion H3; subst;
    constructor; eauto using marked_trans.
Qed.

Lemma bookkeeping_trans g1 g2 g3 :
  bookkeeping g1 g2 -> bookkeeping g2 g3 -> bookkeeping g1 g3.
Proof.
  intros [] []. split; try congruence.
  - by eapply Forall2_marked_trans.
  - destruct bk_functions1 as [->| ->]; auto.
Qed.

(** A clean fatal error: status 1, one diagnostic, reported on a state
    that is the state at the call up to the bookkeeping of lookups. *)
Definition clean_exit (g : global) (c : Z) (g' : global) : Prop :=
  c = 1 /\ exists d g0, bookkeeping g g0 /\ g' = report d g0.

(** The code never exits and reports nothing. *)
Definition silent {A} (m : M A) : Prop :=
  forall g,
    match m g with
    | Return _ g' => diagnostics g' = diagnostics g
    | Exit _ _ => False
    | Fault _ => True
    end.

(** The code only does bookkeeping, or exits cleanly. *)
Definition careful {A} (m : M A) : Prop :=
  forall g,
    match m g with
    | Return _ g' => bookkeeping g g'
    | Exit c g' => clean_exit g c g'
    | Fault _ => True
    end.

(** The code reports a diagnostic only to exit at once, cleanly. *)
Definition fatal_errors {A} (m : M A) : Prop :=
  forall g,
    match m g with
    | Return _ g' => diagnostics g' = diagnostics g
    | Exit c g' => clean_exit g c g'
    | Fault _ => True
    end.

Lemma silent_fatal {A} (m : M A) : silent m -> fatal_errors m.
Proof. intros H g. specialize (H g). by destruct (m g). Qed.

Lemma careful_fatal {A} (m : M A) : careful m -> fatal_errors m.
Proof.
  intros H g. specialize (H g). destruct (m g); [|done..].
  by destruct H.
Qed.

Lemma silent_bind {A B} (m : M A) (k : A -> M B) :
  silent m -> (forall a, silent (k a)) -> silent (bind m k).
Proof.
  intros Hm Hk g. unfold bind. specialize (Hm g).
  destruct (m g) as [a g1| |]; [|done..].
  specialize (Hk a g1). destruct (k a g1); [congruence|done..].
Qed.

Lemma clean_exit_bookkeeping g g1 c g' :
  bookkeeping g g1 -> clean_exit g1 c g' -> clean_exit g c g'.
Proof.
  intros H (-> & d & g0 & H0 & ->). split; [done|].
  exists d, g0. split; [|done]. by eapply bookkeeping_trans.
Qed.

Lemma careful_bind {A B} (m : M A) (k : A -> M B) :
  careful m -> (forall a, careful (k a)) -> careful (bind m k).
Proof.
  intros Hm Hk g. unfold bind. specialize (Hm g).
  destruct (m g) as [a g1| |]; [|done..].
  specialize (Hk a g1). destruct (k a g1).
  - by eapply bookkeeping_trans.
  - by eapply clean_exit_bookkeeping.
  - done.
Qed.

Lemma fatal_bind_careful {A B} (m : M A) (k : A -> M B) :
  careful m -> (forall a, fatal_errors (k a)) -> fatal_errors (bind m k).
Proof.
  intros Hm Hk g. unfold bind. specialize (Hm g).
  destruct (m g) as [a g1| |]; [|done..].
  specialize (Hk a g1). destruct (k a g1).
  - destruct Hm. congruence.
  - by eapply clean_exit_bookkeeping.
  - done.
Qed.

Lemma fatal_bind_silent {A B} (m : M A) (k : A -> M B) :
  fatal_errors m -> (forall a, silent (k a)) -> fatal_errors (bind m k).
Proof.
  intros Hm Hk g. unfold bind. specialize (Hm g).
  destruct (m g) as [a g1| |]; [|done..].
  specialize (Hk a g1). destruct (k a g1); [congruence|done..].
Qed.

Lemma silent_ret {A} (a : A) : silent (ret a).
Proof. by intros g. Qed.

Lemma careful_ret {A} (a : A) : careful (ret a).
Proof. intros g. apply bookkeeping_refl. Qed.

Lemma silent_gets {A} (f : global -> A) : silent (gets f).
Proof. by intros g. Qed.

Lemma careful_gets {A} (f : global -> A) : careful (gets f).
Proof. intros g. apply bookkeeping_refl. Qed.

Lemma silent_c_assert b : silent (c_assert b).
Proof. intros g. by destruct b. Qed.

Lemma careful_c_assert b : careful (c_assert b).
Proof. intros g. destruct b; [apply bookkeeping_refl|done]. Qed.

Lemma silent_fail {A} f : silent (@fail A f).
Proof. by intros g. Qed.

Lemma silent_load p : silent (load p).
Proof. intros g. unfold load. by destruct (heap g !! p). Qed.

Lemma careful_load p : careful (load p).
Proof.
  intros g. unfold load. destruct (heap g !! p); [apply bookkeeping_refl|done].
Qed.

Lemma silent_update p f : silent (update p f).
Proof. intros g. unfold update. by destruct (heap g !! p). Qed.

Lemma silent_modify f :
  (forall g, diagnostics (f g) = diagnostics g) -> silent (modify f).
Proof. intros H g. apply H. Qed.

Lemma silent_update_ns ns f : silent (update_ns ns f).
Proof. apply silent_modify. intros g. by destruct ns. Qed.

Lemma silent_when b m : silent m -> silent (when b m).
Proof. intros H. destruct b; [done|apply silent_ret]. Qed.

Lemma error_exit_clean {A} d : careful (error d ;;; @exit A 1).
Proof.
  intros g. unfold bind, error, modify, exit. split; [done|].
  exists d, g. split; [apply bookkeeping_refl|done].
Qed.

Lemma Forall2_marked_insert h p x :
  h !! p = Some x -> Forall2 marked h (<[p := set_referenced true x]> h).
Proof.
  intros Hx. apply Forall2_same_length_lookup. split; [by rewrite length_insert|].
  intros i a b Ha Hb. destruct (decide (p = i)) as [->|Hne].
  - rewrite list_lookup_insert_eq in Hb by (by eapply lookup_lt_Some).
    right. congruence.
  - rewrite list_lookup_insert_ne in Hb by done. left. congruence.
Qed.

Lemma careful_sym_lookup ns nm : careful (sym_lookup ns nm).
Proof.
  intros g. unfold sym_lookup, bind, gets.
  destruct (_ <=? _)%nat; [|done]. simpl.
  destruct (scan_scopes _ _ _ _) as [p|]; [|apply bookkeeping_refl].
  unfold update. destruct (heap g !! p) as [x|] eqn:Hx; [|done]. simpl.
  split; gsimpl; try done; try (by left); try (by intros []).
  by apply Forall2_marked_insert.
Qed.

Lemma careful_sym_lookup_function nm : careful (sym_lookup_function nm).
Proof.
  intros g. unfold sym_lookup_function, bind, gets, when, modify, ret.
  destruct (functions_init g); simpl; [apply bookkeeping_refl|].
  split; gsimpl; try done; try (by right); try (by intros []).
  apply bookkeeping_refl.
Qed.

Lemma careful_current_scope_depth ns : careful (current_scope_depth ns).
Proof.
  apply careful_bind; [apply careful_gets|]. intros d.
  apply careful_bind; [apply careful_c_assert|]. intros _. apply careful_ret.
Qed.

Lemma silent_current_scope_depth ns : silent (current_scope_depth ns).
Proof.
  apply silent_bind; [apply silent_gets|]. intros d.
  apply silent_bind; [apply silent_c_assert|]. intros _. apply silent_ret.
Qed.

Lemma fatal_apply_type p ty : fatal_errors (apply_type p ty).
Proof.
  intros g. destruct (heap g !! p) as [s|] eqn:Hs.
  - rewrite (apply_type_cases _ _ _ _ Hs).
    destruct (already_applied s ty); [done|].
    destruct (function_completion (type s) ty); [done|].
    destruct (array_completion (type s) ty).
    { destruct (size_of (type s) =? 0)%N; [|done].
      by destruct (size_of ty =? 0)%N. }
    split; [done|]. eexists _, g. split; [apply bookkeeping_refl|done].
  - unfold apply_type, bind, load. by rewrite Hs.
Qed.

Lemma silent_sym_make_visible ns p : silent (sym_make_visible ns p).
Proof.
  intros g. unfold sym_make_visible, bind, gets.
  destruct (scope_len (get_ns ns g)); [done|].
  destruct (scope_frames (get_ns ns g) !! _); [|done].
  unfold update_ns, modify. by destruct ns.
Qed.

Lemma silent_alloc_sym : silent alloc_sym.
Proof.
  intros g. unfold alloc_sym, bind, gets.
  destruct (array_pop_back (temporaries g)) as [[p r]|]; [|done].
  unfold modify, update. simpl. by destruct (heap g !! p).
Qed.

Lemma silent_sym_name p : silent (sym_name p).
Proof.
  apply silent_bind; [apply silent_load|]. intros s.
  destruct (n s =? 0); [apply silent_ret|].
  apply silent_bind; [by apply silent_modify|]. intros _. apply silent_ret.
Qed.

Ltac silence :=
  repeat first
    [ apply silent_ret | apply silent_gets | apply silent_c_assert
    | apply silent_fail | apply silent_load | apply silent_update
    | apply silent_update_ns | apply silent_current_scope_depth
    | apply silent_sym_make_visible | apply silent_alloc_sym
    | apply silent_sym_name
    | apply silent_when
    | apply silent_modify; intros; reflexivity
    | apply silent_bind; [|intros] ].

Lemma silent_sym_add_create ns nm ty kind link :
  silent (sym_add_create ns nm ty kind link).
Proof.
  unfold sym_add_create, bump_sym_add, next_counter, type_set_tag. silence.
Qed.

Lemma bind_returns {A B} (P : B -> Prop) (m : M A) (k : A -> M B) :
  (forall a g b g', k a g = Return b g' -> P b) ->
  forall g b g', bind m k g = Return b g' -> P b.
Proof.
  intros Hk g b g'. unfold bind. destruct (m g) as [a g1| |]; [|done..].
  apply Hk.
Qed.

(** What the first block of [sym_add] leaves: on the way to the merge
    or to the creation only bookkeeping has been done. *)
Lemma sym_add_resolve_outcome ns nm ty kind g :
  match sym_add_resolve ns nm ty kind g with
  | Return (inl _) g' => diagnostics g' = diagnostics g
  | Return (inr _) g' => bookkeeping g g'
  | Exit c g' => clean_exit g c g'
  | Fault _ => True
  end.
Proof.
  unfold sym_add_resolve. destruct (negb _); [|apply bookkeeping_refl].
  unfold bind at 1. pose proof (careful_sym_lookup ns nm g) as H1.
  destruct (sym_lookup ns nm g) as [[p|] g1| |]; [exact H1| |exact H1|done].
  destruct (is_function ty); [|exact H1].
  unfold bind at 1. unfold c_assert.
  destruct (ns_id_eqb ns ns_ident); [|done]. unfold ret at 1.
  unfold bind at 1. pose proof (careful_sym_lookup_function nm g1) as H2.
  destruct (sym_lookup_function nm g1) as [[p|] g2| |];
    [| |by eapply clean_exit_bookkeeping|done].
  2:{ by eapply bookkeeping_trans. }
  assert (H12 : bookkeeping g g2) by (by eapply bookkeeping_trans).
  assert (Hrest : forall a : unit, silent
            (sym_make_visible ns p ;;;
             d <- current_scope_depth ns ;;
             s <- load p ;;
             when (d <? depth s)%nat
               (d' <- current_scope_depth ns ;; update p (set_depth d')) ;;;
             ret (inl p : nat + option nat))).
  { intros _. silence. }
  pose proof (fatal_bind_silent _ _ (fatal_apply_type p ty) Hrest g2) as H3.
  destruct (bind _ _ g2) as [[q|o] g3|c g3|] eqn:E.
  - destruct H12. congruence.
  - exfalso.
    refine (bind_returns
              (fun b : nat + option nat =>
                 match b with inl _ => True | inr _ => False end)
              _ _ _ g2 (inr o) g3 E).
    intros _. do 3 (apply bind_returns; intros ?).
    apply bind_returns. intros _ ? ? ?. by intros [= <- _].
  - by eapply clean_exit_bookkeeping.
  - done.
Qed.

Lemma fatal_sym_add_merge ns nm ty kind link p :
  fatal_errors (sym_add_merge ns nm ty kind link p).
Proof.
  unfold sym_add_merge.
  apply fatal_bind_careful; [apply careful_load|]. intros s.
  destruct (_ && _ && _).
  { apply fatal_bind_silent; [apply fatal_apply_type|]. intros; silence. }
  apply fatal_bind_careful; [apply careful_current_scope_depth|]. intros d.
  destruct (_ && _).
  { apply fatal_bind_silent; [|intros; silence].
    repeat case_match.
    - apply fatal_bind_silent; [apply fatal_apply_type|]. intros; silence.
    - apply fatal_bind_silent; [apply fatal_apply_type|]. intros; silence.
    - apply careful_fatal. unfold when. destruct (negb _).
      + apply error_exit_clean.
      + apply careful_ret.
    - apply careful_fatal, error_exit_clean.
    - apply fatal_apply_type. }
  destruct (_ && _).
  - apply careful_fatal, error_exit_clean.
  - apply silent_fatal, silent_sym_add_create.
Qed.

Lemma fatal_sym_add ns nm ty kind link :
  fatal_errors (sym_add ns nm ty kind link).
Proof.
  unfold sym_add.
  apply fatal_bind_careful; [apply careful_c_assert|]. intros _.
  apply fatal_bind_careful; [apply careful_c_assert|]. intros _.
  intros g. unfold bind.
  pose proof (sym_add_resolve_outcome ns nm ty kind g) as H.
  destruct (sym_add_resolve ns nm ty kind g) as [[q|[q|]] g1|c g1|];
    [done| | |done..].
  - pose proof (fatal_sym_add_merge ns nm ty kind link q g1) as H1.
    destruct (sym_add_merge ns nm ty kind link q g1).
    + destruct H. congruence.
    + by eapply clean_exit_bookkeeping.
    + done.
  - pose proof (silent_sym_add_create ns nm ty kind link g1) as H1.
    destruct (sym_add_create ns nm ty kind link g1); [|done..].
    destruct H. congruence.
Qed.

(** Control comes back from the code, or it stops at a fault: it never
    ends the process. *)
Definition never_exits {A} (m : M A) : Prop :=
  forall g c g', m g <> Exit c g'.

Lemma never_exits_bind {A B} (m : M A) (k : A -> M B) :
  never_exits m -> (forall a, never_exits (k a)) -> never_exits (bind m k).
Proof.
  intros Hm Hk g c g'. unfold bind. destruct (m g) as [a g1|c1 g1|] eqn:E.
  - apply Hk.
  - by destruct (Hm g c1 g1).
  - done.
Qed.

Lemma never_exits_foreach {A} (l : list A) (body : A -> M unit) :
  (forall a, never_exits (body a)) -> never_exits (foreach l body).
Proof.
  intros Hb. induction l as [|x l IH]; simpl; [done|].
  apply never_exits_bind; [apply Hb|]. by intros _.
Qed.

Lemma silent_never_exits {A} (m : M A) : silent m -> never_exits m.
Proof. intros H g c g' E. specialize (H g). by rewrite E in H. Qed.

Lemma never_exits_error d : never_exits (error d).
Proof. by intros g c g'. Qed.

Lemma never_exits_pop_scope ns : never_exits (pop_scope ns).
Proof.
  unfold pop_scope.
  apply never_exits_bind; [apply silent_never_exits; silence|]. intros s.
  apply never_exits_bind; [apply silent_never_exits; silence|]. intros _.
  destruct (_ =? _)%nat; [|apply silent_never_exits; silence].
  apply never_exits_bind.
  { destruct (_ <=? _)%nat; apply silent_never_exits; silence. }
  intros _.
  apply never_exits_bind; [apply silent_never_exits; silence|]. intros _.
  apply never_exits_bind.
  { apply never_exits_foreach. intros p.
    apply never_exits_bind; [apply silent_never_exits; silence|]. intros x.
    apply never_exits_bind.
    - unfold when. destruct (_ && _); [|apply silent_never_exits; silence].
      apply never_exits_bind; [apply silent_never_exits; silence|]. intros c.
      apply never_exits_bind; [apply silent_never_exits; silence|]. intros t.
      apply never_exits_error.
    - intros _. apply silent_never_exits. unfold free. silence. }
  intros _.
  apply never_exits_bind; [apply silent_never_exits; silence|]. intros _.
  unfold when. destruct (ns_id_eqb ns ns_ident); [|apply silent_never_exits; silence].
  unfold sym_clear_buffers.
  apply never_exits_bind; [apply silent_never_exits; silence|]. intros pool.
  apply never_exits_bind.
  { apply never_exits_foreach. intros p. apply silent_never_exits.
    unfold free. silence. }
  intros _. apply silent_never_exits. silence.
Qed.

(** The undefined-label diagnostics of a list of label symbols: one for
    each symbol that is still tentative, in the order of the list. *)
Definition undefined_labels (h : list symbol) (l : list ptr)
  : list diagnostic :=
  flat_map
    (fun p =>
       match h !! p with
       | Some s =>
           if symtype_eqb (symtype s) SYM_TENTATIVE
           then [Undefined_label (emitted_name s)] else []
       | None => []
       end) l.

Lemma label_teardown_loop l g :
  Forall (fun p => (p < length (heap g))%nat) l ->
  exists g',
    foreach l (fun sym =>
      x <- load sym ;;
      when (ns_id_eqb ns_label ns_label && symtype_eqb (symtype x) SYM_TENTATIVE)
        (c <- sym_name sym ;;
         text <- gets (read_cstr c) ;;
         error (Undefined_label text)) ;;;
      free sym) g = Return tt g'
    /\ heap g' = heap g
    /\ diagnostics g' = (diagnostics g ++ undefined_labels (heap g) l)%list
    /\ freed g' = (freed g ++ l)%list
    /\ (forall ns, get_ns ns g' = get_ns ns g)
    /\ temporaries g' = temporaries g
    /\ functions g' = functions g.
Proof.
  revert g. induction l as [|p l IH]; intros g Hv.
  - exists g. simpl. rewrite !app_nil_r. by repeat split.
  - inversion Hv as [|? ? Hp Hl]; subst.
    destruct (lookup_lt_is_Some_2 _ _ Hp) as [x Hx].
    cbn [foreach]. unfold bind at 1. unfold bind at 1.
    rewrite (load_Some _ _ _ Hx). cbn [ns_id_eqb andb].
    set (g1 := if symtype_eqb (symtype x) SYM_TENTATIVE
               then with_freed (freed g ++ [p])
                      (report (Undefined_label (emitted_name x))
                         (if n x =? 0 then g
                          else with_sym_name_buffer (sym_name_text x) g))
               else with_freed (freed g ++ [p]) g).
    assert (Hstep :
      (when (symtype_eqb (symtype x) SYM_TENTATIVE)
         (c <- sym_name p ;; text <- gets (read_cstr c) ;;
          error (Undefined_label text)) ;;; free p) g = Return tt g1).
    { unfold g1, when, sym_name, free, error, emitted_name.
      unfold bind, modify, gets, ret.
      destruct (symtype_eqb (symtype x) SYM_TENTATIVE); [|done].
      rewrite (load_Some _ _ _ Hx). by destruct (n x =? 0). }
    rewrite Hstep.
    assert (Hh1 : heap g1 = heap g).
    { unfold g1. destruct (symtype_eqb _ _); [|done]. by destruct (n x =? 0). }
    destruct (IH g1) as (g' & E & Hh & Hd & Hf & Hn & Ht & Hfn).
    { by rewrite Hh1. }
    assert (Hg1 :
      diagnostics g1
      = (diagnostics g
         ++ (if symtype_eqb (symtype x) SYM_TENTATIVE
             then [Undefined_label (emitted_name x)] else []))%list
      /\ freed g1 = (freed g ++ [p])%list
      /\ (forall ns, get_ns ns g1 = get_ns ns g)
      /\ temporaries g1 = temporaries g
      /\ functions g1 = functions g).
    { unfold g1. destruct (symtype_eqb (symtype x) SYM_TENTATIVE).
      - destruct (n x =? 0); gsimpl; repeat split; try done; by intros [].
      - gsimpl. rewrite app_nil_r. repeat split; try done; by intros []. }
    destruct Hg1 as (Hd1 & Hf1 & Hn1 & Ht1 & Hfn1).
    exists g'. split; [exact E|].
    rewrite Hh, Hd, Hf, Ht, Hfn, Hh1, Hd1, Hf1, Ht1, Hfn1.
    unfold undefined_labels at 2. cbn [flat_map]. rewrite Hx.
    fold (undefined_labels (heap g) l).
    rewrite <- !app_assoc. repeat split; try done.
    intros ns. by rewrite Hn, Hn1.
Qed.

Lemma pop_scope_labels g :
  scope_len (labels g) = 1%nat ->
  (max_scope_depth (labels g) <= length (scope_frames (labels g)))%nat ->
  Forall (fun p => (p < length (heap g))%nat) (symbol_list (labels g)) ->
  exists g',
    pop_scope ns_label g = Return tt g'
    /\ diagnostics g'
       = (diagnostics g
          ++ undefined_labels (heap g) (symbol_list (labels g)))%list
    /\ freed g' = (freed g ++ symbol_list (labels g))%list
    /\ symbol_list (labels g') = []
    /\ scope_len (labels g') = O
    /\ scope_frames (labels g') = []
    /\ heap g' = heap g
    /\ idents g' = idents g /\ tags g' = tags g.
Proof.
  intros Hlen Hmax Hv. unfold pop_scope.
  unfold bind at 1, gets at 1. gsimpl.
  unfold bind at 1, c_assert. rewrite Hlen. cbn [Nat.ltb Nat.leb Nat.eqb ret].
  unfold bind at 1.
  destruct (Nat.leb_spec (max_scope_depth (labels g))
              (length (scope_frames (labels g)))) as [_|]; [|lia].
  unfold ret at 1. unfold bind at 1, update_ns at 1, modify at 1.
  set (g1 := set_ns ns_label _ g).
  destruct (label_teardown_loop (symbol_list (labels g)) g1)
    as (g2 & E & Hh & Hd & Hf & Hn & Ht & Hfn); [done|].
  unfold bind at 1. rewrite E.
  unfold bind, update_ns, modify, when, ret. cbn [ns_id_eqb].
  eexists. split; [reflexivity|]. gsimpl.
  rewrite Hh, Hd, Hf. pose proof (Hn ns_label) as Hl. pose proof (Hn ns_ident) as Hi.
  pose proof (Hn ns_tag) as Htg. gsimpl. rewrite Hl, Hi, Htg. by repeat split.
Qed.

(** A function with [goto missing;] and no label [missing]: the label
    is entered as tentative and the scope of the labels is popped at
    the end of the body. *)
Definition goto_missing : global :=
  after (sym_add ns_label "missing" T_VOID SYM_TENTATIVE LINK_INTERN)
    (after (push_scope ns_label) file_scope).

(** C3, as the claim states it, fails on the code: the undefined label
    is reported with [error] and nothing ends the process.  [pop_scope]
    goes on, frees the symbol, clears the list and returns to its
    caller. *)
Lemma undefined_label_is_not_fatal :
  returned (pop_scope ns_label) goto_missing = Some tt
  /\ exited (pop_scope ns_label) goto_missing = None
  /\ diagnostics goto_missing = []
  /\ diagnostics (after (pop_scope ns_label) goto_missing)
     = [Undefined_label "missing"]
  /\ freed goto_missing = []
  /\ freed (after (pop_scope ns_label) goto_missing) = [0%nat]
  /\ symbol_list (labels goto_missing) = [0%nat]
  /\ symbol_list (labels (after (pop_scope ns_label) goto_missing)) = [].
Proof. vm_compute. by repeat split. Qed.

(** C3, amended.  An incompatible declaration (in [apply_type] and in
    [sym_add]) and a conflicting or duplicate declaration (in
    [sym_add]) are reported through the diagnostic collaborator and end
    the process at once with status 1: the state at the exit is the
    state at the call with that one diagnostic added, up to the
    bookkeeping of the lookups made before ([referenced] marks, the
    first initialisation of the function table), and a call that
    returns has reported nothing.  The undefined-label check is not
    fatal: [pop_scope] never ends the process; popping the outermost
    label scope reports one undefined-label diagnostic for each symbol
    that is still tentative, in the order of the list, then frees every
    symbol, clears the list and the scopes, and returns. *)
Theorem errors_end_the_process_except_undefined_label :
  (forall p ty, fatal_errors (apply_type p ty))
  /\ (forall ns nm ty kind link, fatal_errors (sym_add ns nm ty kind link))
  /\ (forall ns, never_exits (pop_scope ns))
  /\ (forall g,
        scope_len (labels g) = 1%nat ->
        (max_scope_depth (labels g) <= length (scope_frames (labels g)))%nat ->
        Forall (fun p => (p < length (heap g))%nat) (symbol_list (labels g)) ->
        exists g',
          pop_scope ns_label g = Return tt g'
          /\ diagnostics g'
             = (diagnostics g
                ++ undefined_labels (heap g) (symbol_list (labels g)))%list
          /\ freed g' = (freed g ++ symbol_list (labels g))%list
          /\ symbol_list (labels g') = []
          /\ scope_len (labels g') = O
          /\ scope_frames (labels g') = []
          /\ heap g' = heap g
          /\ idents g' = idents g /\ tags g' = tags g).
Proof.
  split; [exact fatal_apply_type|].
  split; [exact fatal_sym_add|].
  split; [exact never_exits_pop_scope|].
  exact pop_scope_labels.
Qed.

Lemma errors_end_the_process_except_undefined_label_witness :
  exists g',
    pop_scope ns_label goto_missing = Return tt g'
    /\ diagnostics g' = [Undefined_label "missing"].
Proof.
  assert (H1 : scope_len (labels goto_missing) = 1%nat) by reflexivity.
  assert (H2 : (max_scope_depth (labels goto_missing)
                <= length (scope_frames (labels goto_missing)))%nat)
    by (vm_compute; lia).
  assert (H3 : Forall (fun p => (p < length (heap goto_missing))%nat)
                 (symbol_list (labels goto_missing))).
  { vm_compute. repeat constructor. }
  destruct (proj2 (proj2 (proj2 errors_end_the_process_except_undefined_label))
              goto_missing H1 H2 H3) as (g' & E & Hd & _).
  exists g'. split; [exact E|]. rewrite Hd. reflexivity.
Defined.

(** ** The two implementations side by side (C7) *)

(** The entries of a scope that a probe can see: none until the scope
    is populated again after its creation or reuse. *)
Definition visible_entries (sc : scope) : list ptr :=
  match state sc with
  | SCOPE_INITIALIZED => table sc
  | _ => []
  end.

Lemma probe_visible_entries h sc nm :
  probe h sc nm = hash_lookup h (visible_entries sc) nm.
Proof. unfold probe, visible_entries. by destruct (state sc). Qed.

(** A symbol record of the parser implementation and one of the older
    implementation that stand for the same declaration. *)
Definition sym_match (s : symbol) (ls : Legacy.symbol) : Prop :=
  Legacy.name ls = name s
  /\ Legacy.type ls = type s
  /\ Legacy.symtype ls = symtype s
  /\ Legacy.linkage ls = linkage s
  /\ Legacy.depth ls = Z.of_nat (depth s)
  /\ Legacy.n ls = n s.









Lemma legacy_sym_lookup_eq ns l lframes nm :
  Legacy.scope_frames (Legacy.get_ns ns l) = Some lframes ->
  0 <= Legacy.current_depth (Legacy.get_ns ns l) ->
  Legacy.sym_lookup ns nm l
  = match Legacy.scan_scopes (Legacy.symbol_list (Legacy.get_ns ns l)) lframes
            nm (S (Z.to_nat (Legacy.current_depth (Legacy.get_ns ns l)))) with
    | Some r => Legacy.Return r l
    | None => Legacy.Fault Legacy.Invalid_access
    end.
Proof.
  intros Hf Hd. unfold Legacy.sym_lookup, Legacy.bind, Legacy.gets.
  destruct (Z.ltb_spec (Legacy.current_depth (Legacy.get_ns ns l)) 0); [lia|].
  rewrite Hf. by destruct (Legacy.scan_scopes _ _ _ _).
Qed.


Lemma legacy_get_set_ns ns x l : Legacy.get_ns ns (Legacy.set_ns ns x l) = x.
Proof. by destruct ns. Qed.








Lemma get_ns_with_heap ns h g : get_ns ns (with_heap h g) = get_ns ns g.
Proof. by destruct ns. Qed.
Lemma get_ns_with_counters ns a t u b c d g :
  get_ns ns (with_counters a t u b c d g) = get_ns ns g.
Proof. by destruct ns. Qed.
Lemma get_ns_with_decl_memcpy ns x g :
  get_ns ns (with_decl_memcpy x g) = get_ns ns g.
Proof. by destruct ns. Qed.
Lemma get_ns_with_type_tags ns x g :
  get_ns ns (with_type_tags x g) = get_ns ns g.
Proof. by destruct ns. Qed.
Lemma get_ns_with_sym_name_buffer ns x g :
  get_ns ns (with_sym_name_buffer x g) = get_ns ns g.
Proof. by destruct ns. Qed.
Lemma get_ns_with_functions ns x i g :
  get_ns ns (with_functions x i g) = get_ns ns g.
Proof. by destruct ns. Qed.
Lemma temporaries_set_ns ns x g : temporaries (set_ns ns x g) = temporaries g.
Proof. by destruct ns. Qed.
Lemma n_sym_add_set_ns ns x g : n_sym_add (set_ns ns x g) = n_sym_add g.
Proof. by destruct ns. Qed.

Ltac nsimpl :=
  rewrite ?get_set_ns, ?heap_set_ns, ?temporaries_set_ns, ?n_sym_add_set_ns,
    ?get_ns_with_heap, ?get_ns_with_counters, ?get_ns_with_decl_memcpy,
    ?get_ns_with_type_tags, ?get_ns_with_sym_name_buffer,
    ?get_ns_with_functions.

Lemma insert_snoc {A} (l : list A) (x y : A) :
  <[length l := x]> (l ++ [y])%list = (l ++ [x])%list.
Proof.
  induction l as [|a l IH]; [done|]. cbn [length app]. simpl. by f_equal.
Qed.

(** The record of a symbol created by [sym_add] at depth [d], with the
    counter of scoped statics at [c]. *)
Definition new_symbol (nm : string) (ty : Ty) (kind : symtype_t)
    (link : linkage_t) (d : nat) (c : Z) : symbol :=
  {| name := nm;
     n := if linkage_eqb link LINK_INTERN && negb (d =? 0)%nat
          then wrap_int (c + 1) else 0;
     type := ty; symtype := kind; linkage := link; depth := d;
     referenced := false; stack_offset := 0; value := V_ZERO |}.

Lemma sym_add_create_fresh ns nm ty kind link g sc :
  temporaries g = [] ->
  (0 < scope_len (get_ns ns g))%nat ->
  scope_frames (get_ns ns g) !! (scope_len (get_ns ns g) - 1)%nat = Some sc ->
  is_function ty = false ->
  exists g',
    sym_add_create ns nm ty kind link g = Return (length (heap g)) g'
    /\ heap g'
       = (heap g
          ++ [new_symbol nm ty kind link (scope_len (get_ns ns g) - 1)
                (n_sym_add g)])%list
    /\ get_ns ns g'
       = with_scopes
           (<[(scope_len (get_ns ns g) - 1)%nat :=
                mk_scope SCOPE_INITIALIZED
                  (hash_insert (heap g') (visible_entries sc)
                     (length (heap g)))]> (scope_frames (get_ns ns g)))
           (scope_len (get_ns ns g)) (max_scope_depth (get_ns ns g))
           (with_symbol_list
              (symbol_list (get_ns ns g) ++ [length (heap g)])%list
              (get_ns ns g))
    /\ temporaries g' = []
    /\ n_sym_add g'
       = (if linkage_eqb link LINK_INTERN
             && negb (scope_len (get_ns ns g) - 1 =? 0)%nat
          then wrap_int (n_sym_add g + 1) else n_sym_add g)
    /\ (forall ns', ns' <> ns -> get_ns ns' g' = get_ns ns' g).
Proof.
  intros Hpool Hlen Hsc Hf.
  unfold sym_add_create.
  rewrite (bind_Return _ _ _ _ _ (alloc_sym_fresh g Hpool)).
  assert (Hns0 : get_ns ns (with_heap (heap g ++ [zero_symbol]) g) = get_ns ns g)
    by (by destruct ns).
  rewrite (bind_Return _ _ _ _ _
             (current_scope_depth_eq ns _ ltac:(by rewrite Hns0))).
  rewrite Hns0.
  assert (Hz : (heap g ++ [zero_symbol])%list !! length (heap g)
               = Some zero_symbol).
  { rewrite lookup_app_r by lia. by rewrite Nat.sub_diag. }
  assert (Hlt : (length (heap g) < length (heap g ++ [zero_symbol])%list)%nat)
    by (by eapply lookup_lt_Some).
  rewrite Hf. unfold new_symbol.
  destruct (linkage_eqb link LINK_INTERN
            && negb (scope_len (get_ns ns g) - 1 =? 0)%nat) eqn:Es;
  destruct (symtype_eqb kind SYM_TAG || symtype_eqb kind SYM_TYPEDEF) eqn:Et;
  destruct (negb (is_Some_b (decl_memcpy g)) && ("memcpy" =? nm)%string) eqn:Em.
  all: unfold bump_sym_add, next_counter, type_set_tag, update_ns, sym_name,
         when;
    unfold bind, gets, modify, ret; gsimpl;
    repeat (first [run_update | progress rewrite ?Em, ?Es, ?Et]; gsimpl);
    nsimpl;
    rewrite (sym_make_visible_eq ns _ _ sc) by (nsimpl; gsimpl; done);
    nsimpl; gsimpl;
    (erewrite load_Some
       by (nsimpl; gsimpl; apply list_lookup_insert_eq;
           rewrite ?length_insert; exact Hlt)).
  all: nsimpl; gsimpl; cbn [n set_n set_linkage set_symtype set_type set_name
                             set_depth zero_symbol name];
    rewrite insert_snoc;
    match goal with
    | |- context [if ?b then _ else _] => destruct b
    end;
    (eexists; split; [reflexivity|]); nsimpl; gsimpl; nsimpl;
    unfold new_symbol, visible_entries, array_push_back; rewrite ?Es;
    repeat apply conj;
    first [exact Hpool | reflexivity
          | intros ns' Hne; nsimpl; rewrite get_set_ns_ne by done; nsimpl;
            rewrite ?get_set_ns_ne by done; nsimpl; reflexivity].
Qed.

Definition legacy_new_symbol (arg : Legacy.symbol) (d c : Z) : Legacy.symbol :=
  Legacy.set_depth d
    (if linkage_eqb (Legacy.linkage arg) LINK_INTERN && negb (d =? 0)
     then Legacy.set_n (wrap_int (c + 1)) arg else arg).

Lemma legacy_sym_add_create_eq ns arg l lf lsc :
  Legacy.scope_frames (Legacy.get_ns ns l) = Some lf ->
  0 <= Legacy.current_depth (Legacy.get_ns ns l) ->
  lf !! Z.to_nat (Legacy.current_depth (Legacy.get_ns ns l)) = Some lsc ->
  Legacy.sym_add_create ns arg l
  = Legacy.Return (length (Legacy.symbol_list (Legacy.get_ns ns l)))
      (Legacy.set_ns ns
         {| Legacy.symbol_list :=
              (Legacy.symbol_list (Legacy.get_ns ns l)
               ++ [legacy_new_symbol arg
                     (Legacy.current_depth (Legacy.get_ns ns l))
                     (Legacy.svc l)])%list;
            Legacy.scope_frames :=
              Some (<[Z.to_nat (Legacy.current_depth (Legacy.get_ns ns l)) :=
                        Legacy.mk_scope
                          (Legacy.idx lsc
                           ++ [length (Legacy.symbol_list (Legacy.get_ns ns l))])%list]>
                      lf);
            Legacy.current_depth := Legacy.current_depth (Legacy.get_ns ns l) |}
         (if linkage_eqb (Legacy.linkage arg) LINK_INTERN
             && negb (Legacy.current_depth (Legacy.get_ns ns l) =? 0)
          then Legacy.with_svc (wrap_int (Legacy.svc l + 1)) l else l)).
Proof.
  intros Hf Hd Hsc. unfold Legacy.sym_add_create, legacy_new_symbol.
  unfold Legacy.bind at 1, Legacy.gets at 1.
  destruct (linkage_eqb (Legacy.linkage arg) LINK_INTERN
            && negb (Legacy.current_depth (Legacy.get_ns ns l) =? 0)) eqn:Es.
  - unfold Legacy.create_symbol, Legacy.register_in_scope, Legacy.update_ns.
    unfold Legacy.bind, Legacy.gets, Legacy.modify, Legacy.ret, Legacy.c_assert.
    assert (Hw : forall x, Legacy.get_ns ns (Legacy.with_svc x l) = Legacy.get_ns ns l)
      by (intros; by destruct ns).
    rewrite !Hw, !legacy_get_set_ns.
    cbn [Legacy.symbol_list Legacy.scope_frames Legacy.current_depth].
    rewrite length_app. cbn [length].
    destruct (Nat.ltb_spec (length (Legacy.symbol_list (Legacy.get_ns ns l)))
                (length (Legacy.symbol_list (Legacy.get_ns ns l)) + 1));
      [|lia].
    rewrite Hf. destruct (Z.leb_spec 0 (Legacy.current_depth (Legacy.get_ns ns l)));
      [|lia].
    rewrite Hsc. rewrite ?Hw, ?legacy_get_set_ns.
    cbn [Legacy.symbol_list Legacy.scope_frames Legacy.current_depth].
    f_equal. by destruct ns.
  - unfold Legacy.create_symbol, Legacy.register_in_scope, Legacy.update_ns.
    unfold Legacy.bind, Legacy.gets, Legacy.modify, Legacy.ret, Legacy.c_assert.
    rewrite !legacy_get_set_ns.
    cbn [Legacy.symbol_list Legacy.scope_frames Legacy.current_depth].
    rewrite length_app. cbn [length].
    destruct (Nat.ltb_spec (length (Legacy.symbol_list (Legacy.get_ns ns l)))
                (length (Legacy.symbol_list (Legacy.get_ns ns l)) + 1));
      [|lia].
    rewrite Hf. destruct (Z.leb_spec 0 (Legacy.current_depth (Legacy.get_ns ns l)));
      [|lia].
    rewrite Hsc. rewrite ?legacy_get_set_ns.
    cbn [Legacy.symbol_list Legacy.scope_frames Legacy.current_depth].
    f_equal. by destruct ns.
Qed.



























(** [sym_add] without the cases of string literals and functions. *)
Lemma sym_add_plain ns nm ty kind link g :
  sym_add_pre ns kind ->
  kind <> SYM_STRING_VALUE ->
  is_function ty = false ->
  sym_add ns nm ty kind link g
  = (found <- sym_lookup ns nm ;;
     match found with
     | Some sym => sym_add_merge ns nm ty kind link sym
     | None => sym_add_create ns nm ty kind link
     end) g.
Proof.
  intros Hpre Hk Hf. rewrite sym_add_eq by done. unfold sym_add_resolve.
  rewrite Hf. replace (negb (symtype_eqb kind SYM_STRING_VALUE)) with true
    by (by destruct kind).
  unfold bind, ret. by destruct (sym_lookup ns nm g) as [[?|] ?| |].
Qed.


#[local] Instance ns_id_eq_dec : EqDecision ns_id.
Proof. solve_decision. Defined.

































(** ** Disambiguation counters and emitted names (C6) *)

(** An identifier of 127 characters. *)
Definition long_name : string := string_of_list_ascii (repeat "a"%char 127).

(** Two blocks one after the other, as the bodies of two functions,
    each declaring [static int nm;]: the symbols that the two [sym_add]
    return. *)
Definition statics_in_two_blocks (nm : string) : M (ptr * ptr) :=
  push_scope ns_ident ;;;
  a <- sym_add ns_ident nm T_INT SYM_DEFINITION LINK_INTERN ;;
  pop_scope ns_ident ;;;
  push_scope ns_ident ;;;
  b <- sym_add ns_ident nm T_INT SYM_DEFINITION LINK_INTERN ;;
  pop_scope ns_ident ;;;
  ret (a, b).

(** The text behind the result of [sym_name], read before any other
    call overwrites the buffer. *)
Definition sym_name_read (sym : ptr) : M string :=
  c <- sym_name sym ;;
  gets (read_cstr c).

(** C6, at the failing input.  Two [static int] declarations of one
    identifier of 127 characters, in two blocks: [sym_add] creates two
    symbols with internal linkage at depth 1 and gives them the fresh
    counters 1 and 2, yet [sym_name] returns the same text for both,
    the bare identifier: [snprintf] into the buffer of 128 characters
    cuts the period and the counter off.  With the identifier [x] the
    emitted names are [x.1] and [x.2]. *)
Theorem scoped_statics_of_one_long_name_collide :
  let g := after (statics_in_two_blocks long_name) file_scope in
  returned (statics_in_two_blocks long_name) file_scope = Some (0, 1)%nat
  /\ (linkage <$> heap g !! 0%nat) = Some LINK_INTERN
  /\ (linkage <$> heap g !! 1%nat) = Some LINK_INTERN
  /\ (depth <$> heap g !! 0%nat) = Some 1%nat
  /\ (depth <$> heap g !! 1%nat) = Some 1%nat
  /\ (n <$> heap g !! 0%nat) = Some 1
  /\ (n <$> heap g !! 1%nat) = Some 2
  /\ returned (sym_name_read 0) g = Some long_name
  /\ returned (sym_name_read 1) g = Some long_name
  /\ (emitted_name <$> heap g !! 0%nat) = (emitted_name <$> heap g !! 1%nat)
  /\ (let g' := after (statics_in_two_blocks "x") file_scope in
      returned (sym_name_read 0) g' = Some "x.1"
      /\ returned (sym_name_read 1) g' = Some "x.2").
Proof. vm_compute. by repeat split. Qed.

Lemma substring_all (t : string) (k : nat) :
  (String.length t <= k)%nat -> String.substring 0 k t = t.
Proof.
  revert k. induction t as [|c t IH]; intros k Hk.
  - by destruct k.
  - destruct k as [|k]; [simpl in Hk; lia|]. simpl. f_equal. apply IH.
    simpl in Hk. lia.
Qed.

Lemma append_cancel (a x y : string) : (a ++ x = a ++ y)%string -> x = y.
Proof. induction a as [|c a IH]; [done|]. simpl. intros [= H]. by apply IH. Qed.

Lemma length_append (a b : string) :
  String.length (a ++ b) = (String.length a + String.length b)%nat.
Proof. induction a as [|c a IH]; [done|]. simpl. by rewrite IH. Qed.

Lemma to_int_not_nil (z : Z) :
  Z.to_int z <> Decimal.Pos Decimal.Nil /\ Z.to_int z <> Decimal.Neg Decimal.Nil.
Proof.
  split; intros E; pose proof (f_equal Z.of_int E) as E';
    rewrite DecimalZ.of_to in E'; cbn in E'; subst z; discriminate E.
Qed.

Lemma fmt_d_inj (a b : Z) : fmt_d a = fmt_d b -> a = b.
Proof.
  unfold fmt_d. intros H. apply (f_equal NilZero.int_of_string) in H.
  destruct (to_int_not_nil a) as [Ha1 Ha2], (to_int_not_nil b) as [Hb1 Hb2].
  rewrite !NilZero.isi in H by done. injection H as H.
  by apply DecimalZ.to_int_inj.
Qed.

(** The formatted text of [sym_name] fits in the buffer. *)
Definition fits (s : symbol) : Prop :=
  (String.length (name s) + 1 + String.length (fmt_d (n s)) <= 127)%nat.

(** Two symbols of one source name with different counters have
    different emitted names, as long as the formatted names fit in the
    buffer of [sym_name]. *)
Lemma emitted_names_differ_when_they_fit s1 s2 :
  name s1 = name s2 ->
  n s1 <> 0 -> n s2 <> 0 -> n s1 <> n s2 ->
  fits s1 -> fits s2 ->
  emitted_name s1 <> emitted_name s2.
Proof.
  intros Hn H1 H2 Hne F1 F2. unfold emitted_name.
  destruct (Z.eqb_spec (n s1) 0); [done|].
  destruct (Z.eqb_spec (n s2) 0); [done|].
  assert (Hb : match name s1 with String "." _ => true | _ => false end
               = match name s2 with String "." _ => true | _ => false end)
    by (by rewrite Hn).
  unfold fits in F1, F2.
  assert (E1 : sym_name_text s1
               = match name s1 with
                 | String "." _ => (name s1 ++ fmt_d (n s1))%string
                 | _ => (name s1 ++ "." ++ fmt_d (n s1))%string
                 end).
  { unfold sym_name_text, snprintf.
    destruct (name s1) as [|[[] [] [] [] [] [] [] []] t];
      apply substring_all; rewrite ?length_append; simpl in *; lia. }
  assert (E2 : sym_name_text s2
               = match name s2 with
                 | String "." _ => (name s2 ++ fmt_d (n s2))%string
                 | _ => (name s2 ++ "." ++ fmt_d (n s2))%string
                 end).
  { unfold sym_name_text, snprintf.
    destruct (name s2) as [|[[] [] [] [] [] [] [] []] t];
      apply substring_all; rewrite ?length_append; simpl in *; lia. }
  rewrite E1, E2, Hn. intros H. apply Hne.
  destruct (name s2) as [|[[] [] [] [] [] [] [] []] t];
    first [ apply append_cancel, append_cancel in H; by apply fmt_d_inj
          | apply append_cancel in H; by apply fmt_d_inj ].
Qed.

Lemma emitted_names_differ_when_they_fit_witness :
  emitted_name (new_symbol "x" T_INT SYM_DEFINITION LINK_INTERN 1 0) = "x.1"
  /\ emitted_name (new_symbol "x" T_INT SYM_DEFINITION LINK_INTERN 1 1) = "x.2"
  /\ emitted_name (new_symbol "x" T_INT SYM_DEFINITION LINK_INTERN 1 0)
     <> emitted_name (new_symbol "x" T_INT SYM_DEFINITION LINK_INTERN 1 1).
Proof.
  split; [reflexivity|]. split; [reflexivity|].
  apply emitted_names_differ_when_they_fit;
    [reflexivity | discriminate | discriminate | discriminate
    | vm_compute; lia | vm_compute; lia].
Defined.

Lemma sym_name_read_eq p s g :
  heap g !! p = Some s ->
  sym_name_read p g
  = Return (emitted_name s)
      (if n s =? 0 then g else with_sym_name_buffer (sym_name_text s) g).
Proof.
  intros Hs. unfold sym_name_read, sym_name, bind, load, emitted_name.
  rewrite Hs. by destruct (n s =? 0).
Qed.

(** Two queries of [sym_name] for one symbol, one after the other, give
    the same text, and no record changes. *)
Lemma sym_name_is_stable p s g :
  heap g !! p = Some s ->
  exists g1 g2,
    sym_name_read p g = Return (emitted_name s) g1
    /\ sym_name_read p g1 = Return (emitted_name s) g2
    /\ heap g1 = heap g /\ heap g2 = heap g.
Proof.
  intros Hs. rewrite (sym_name_read_eq _ _ _ Hs).
  eexists _, _. split; [reflexivity|].
  assert (Hh : heap (if n s =? 0 then g
                     else with_sym_name_buffer (sym_name_text s) g) = heap g)
    by (by destruct (n s =? 0)).
  rewrite (sym_name_read_eq p s) by (by rewrite Hh).
  split; [reflexivity|]. split; [done|]. by destruct (n s =? 0).
Qed.

Lemma sym_name_is_stable_witness :
  exists g1 g2,
    sym_name_read 0
      (with_heap [new_symbol "x" T_INT SYM_DEFINITION LINK_INTERN 1 0] initial)
    = Return "x.1" g1
    /\ sym_name_read 0 g1 = Return "x.1" g2.
Proof.
  destruct (sym_name_is_stable 0
              (new_symbol "x" T_INT SYM_DEFINITION LINK_INTERN 1 0)
              (with_heap [new_symbol "x" T_INT SYM_DEFINITION LINK_INTERN 1 0]
                 initial) eq_refl) as (g1 & g2 & H1 & H2 & _).
  exists g1, g2. split; [exact H1|exact H2].
Defined.

(** A block-scope [static] whose name is not visible: [sym_add] creates
    a symbol whose counter is the one after the last counter given, and
    leaves the records that exist, their counters included, as they
    are. *)
Lemma sym_add_static_counter ns nm ty kind g sc :
  sym_add_pre ns kind ->
  kind <> SYM_STRING_VALUE ->
  is_function ty = false ->
  temporaries g = [] ->
  (1 < scope_len (get_ns ns g) <= length (scope_frames (get_ns ns g)))%nat ->
  scope_frames (get_ns ns g) !! (scope_len (get_ns ns g) - 1)%nat = Some sc ->
  scan_scopes (heap g) (scope_frames (get_ns ns g)) nm
    (scope_len (get_ns ns g)) = None ->
  -1 <= n_sym_add g < INT_MAX ->
  exists g',
    sym_add ns nm ty kind LINK_INTERN g = Return (length (heap g)) g'
    /\ n_sym_add g' = n_sym_add g + 1
    /\ (n <$> heap g' !! length (heap g)) = Some (n_sym_add g + 1)
    /\ (forall q s, heap g !! q = Some s -> heap g' !! q = Some s).
Proof.
  intros Hpre Hk Hf Hpool Hlen Hsc Hscan Hc.
  rewrite sym_add_plain by done.
  assert (Hl : sym_lookup ns nm g = Return None g).
  { rewrite sym_lookup_scan by lia. by rewrite Hscan. }
  rewrite (bind_Return _ _ _ _ _ Hl).
  destruct (sym_add_create_fresh ns nm ty kind LINK_INTERN g sc)
    as (g' & Hadd & Hheap & _ & _ & Hcnt & _); try done; [lia|].
  assert (Hd : (scope_len (get_ns ns g) - 1 =? 0)%nat = false)
    by (apply Nat.eqb_neq; lia).
  rewrite Hd in Hcnt. cbn in Hcnt.
  assert (Hw : wrap_int (n_sym_add g + 1) = n_sym_add g + 1)
    by (apply wrap_int_small; unfold INT_MAX in *; lia).
  exists g'. split; [exact Hadd|]. split; [by rewrite Hcnt, Hw|]. split.
  - rewrite Hheap, lookup_app_r by lia. rewrite Nat.sub_diag.
    cbn. rewrite Hd. cbn. by rewrite Hw.
  - intros q s Hs. rewrite Hheap. by apply lookup_app_l_Some.
Qed.

Definition in_a_block : global := after (push_scope ns_ident) file_scope.

Lemma sym_add_static_counter_witness :
  exists g',
    sym_add ns_ident "x" T_INT SYM_DEFINITION LINK_INTERN in_a_block
    = Return 0%nat g'
    /\ n_sym_add g' = 1
    /\ (n <$> heap g' !! 0%nat) = Some 1.
Proof.
  destruct (sym_add_static_counter ns_ident "x" T_INT SYM_DEFINITION in_a_block
              (mk_scope SCOPE_CREATED []))
    as (g' & H1 & H2 & H3 & _);
    [split; [discriminate|discriminate] | discriminate | reflexivity
    | reflexivity | vm_compute; lia | reflexivity | reflexivity
    | unfold INT_MAX; cbn; lia |].
  exists g'. split; [exact H1|]. split; [exact H2|exact H3].
Defined.

(** ** Lookup in the older implementation *)

(** No symbol among the indices [ids] has the name [nm]. *)
Definition unnamed_in (symbols : list Legacy.symbol) (nm : string)
    (ids : list nat) : Prop :=
  Forall (fun j => forall s, symbols !! j = Some s -> Legacy.name s <> nm) ids.

(** The indices of a scope are indices of the symbol list. *)
Definition valid_scope (symbols : list Legacy.symbol) (sc : Legacy.scope) : Prop :=
  Forall (fun j => (j < length symbols)%nat) (Legacy.idx sc).

Lemma legacy_scan_scope_spec symbols nm ids :
  Forall (fun j => (j < length symbols)%nat) ids ->
  match Legacy.scan_scope symbols nm ids with
  | Some (Some i) =>
      exists before rest s,
        ids = (before ++ i :: rest)%list
        /\ symbols !! i = Some s /\ Legacy.name s = nm
        /\ unnamed_in symbols nm before
  | Some None => unnamed_in symbols nm ids
  | None => False
  end.
Proof.
  induction 1 as [|j ids Hj _ IH]; [by constructor|].
  cbn [Legacy.scan_scope].
  destruct (lookup_lt_is_Some_2 symbols j Hj) as [s Hs]. rewrite Hs.
  destruct (String.eqb_spec nm (Legacy.name s)) as [->|Hne].
  - exists [], ids, s. repeat split; [done|]. constructor.
  - destruct (Legacy.scan_scope symbols nm ids) as [[i|]|]; [| |done].
    + destruct IH as (before & rest & s' & -> & Hs' & Hn & Hb).
      exists (j :: before), rest, s'. repeat split; try done.
      constructor; [|done]. intros s0 Hs0. congruence.
    + constructor; [|done]. intros s0 Hs0. congruence.
Qed.

Lemma legacy_scan_scopes_spec symbols frames nm k :
  (k <= length frames)%nat ->
  Forall (valid_scope symbols) frames ->
  match Legacy.scan_scopes symbols frames nm k with
  | Some (Some i) =>
      exists d sc,
        (d < k)%nat /\ frames !! d = Some sc
        /\ Legacy.scan_scope symbols nm (Legacy.idx sc) = Some (Some i)
        /\ forall d' sc', (d < d' < k)%nat -> frames !! d' = Some sc' ->
                          unnamed_in symbols nm (Legacy.idx sc')
  | Some None =>
      forall d sc, (d < k)%nat -> frames !! d = Some sc ->
                   unnamed_in symbols nm (Legacy.idx sc)
  | None => False
  end.
Proof.
  intros Hk Hv. induction k as [|k IH].
  - cbn. intros d sc Hd. lia.
  - cbn [Legacy.scan_scopes].
    destruct (lookup_lt_is_Some_2 frames k) as [sc Hsc]; [lia|]. rewrite Hsc.
    assert (Hsv : valid_scope symbols sc).
    { rewrite Forall_forall in Hv. apply Hv.
      by eapply list_elem_of_lookup_2. }
    pose proof (legacy_scan_scope_spec symbols nm _ Hsv) as Hscan.
    destruct (Legacy.scan_scope symbols nm (Legacy.idx sc)) as [[i|]|] eqn:E;
      [| |done].
    + exists k, sc. repeat split; [lia|done..|]. intros d' sc' Hd'. lia.
    + specialize (IH ltac:(lia)).
      destruct (Legacy.scan_scopes symbols frames nm k) as [[i|]|]; [| |done].
      * destruct IH as (d & sc0 & Hd & Hsc0 & Hfound & Habove).
        exists d, sc0. repeat split; [lia|done..|].
        intros d' sc' Hd' Hsc'. destruct (decide (d' = k)) as [->|Hne].
        -- congruence.
        -- apply (Habove d'); [lia|done].
      * intros d sc' Hd Hsc'. destruct (decide (d = k)) as [->|Hne].
        -- congruence.
        -- apply (IH d); [lia|done].
Qed.

(** The lookup of [src/symtab.c] scans the scopes from the current
    depth down to depth 0 and each scope in the order of its entries;
    the first symbol with the name is returned, and not-found when no
    scope has one.  The lookup changes nothing: the symbols of this
    implementation have no [referenced] flag. *)
Theorem legacy_sym_lookup_innermost_first ns nm l frames :
  Legacy.scope_frames (Legacy.get_ns ns l) = Some frames ->
  0 <= Legacy.current_depth (Legacy.get_ns ns l) ->
  (Z.to_nat (Legacy.current_depth (Legacy.get_ns ns l)) < length frames)%nat ->
  Forall (valid_scope (Legacy.symbol_list (Legacy.get_ns ns l))) frames ->
  exists r,
    Legacy.sym_lookup ns nm l = Legacy.Return r l
    /\ match r with
       | Some i =>
           exists d sc before rest s,
             (d <= Z.to_nat (Legacy.current_depth (Legacy.get_ns ns l)))%nat
             /\ frames !! d = Some sc
             /\ Legacy.idx sc = (before ++ i :: rest)%list
             /\ Legacy.symbol_list (Legacy.get_ns ns l) !! i = Some s
             /\ Legacy.name s = nm
             /\ unnamed_in (Legacy.symbol_list (Legacy.get_ns ns l)) nm before
             /\ forall d' sc',
                  (d < d' <= Z.to_nat (Legacy.current_depth (Legacy.get_ns ns l)))%nat ->
                  frames !! d' = Some sc' ->
                  unnamed_in (Legacy.symbol_list (Legacy.get_ns ns l)) nm
                    (Legacy.idx sc')
       | None =>
           forall d sc,
             (d <= Z.to_nat (Legacy.current_depth (Legacy.get_ns ns l)))%nat ->
             frames !! d = Some sc ->
             unnamed_in (Legacy.symbol_list (Legacy.get_ns ns l)) nm
               (Legacy.idx sc)
       end.
Proof.
  intros Hf Hd Hlen Hv.
  rewrite (legacy_sym_lookup_eq ns l frames nm Hf Hd).
  pose proof (legacy_scan_scopes_spec
                (Legacy.symbol_list (Legacy.get_ns ns l)) frames nm
                (S (Z.to_nat (Legacy.current_depth (Legacy.get_ns ns l))))
                ltac:(lia) Hv) as H.
  destruct (Legacy.scan_scopes _ _ _ _) as [[i|]|]; [| |done].
  - destruct H as (d & sc & Hdk & Hsc & Hfound & Habove).
    exists (Some i). split; [done|].
    assert (Hsv : valid_scope (Legacy.symbol_list (Legacy.get_ns ns l)) sc).
    { rewrite Forall_forall in Hv. apply Hv. by eapply list_elem_of_lookup_2. }
    pose proof (legacy_scan_scope_spec _ nm _ Hsv) as Hscan.
    rewrite Hfound in Hscan.
    destruct Hscan as (before & rest & s & Hidx & Hs & Hn & Hb).
    exists d, sc, before, rest, s. repeat split; try done; [lia|].
    intros d' sc' Hd'. apply Habove. lia.
  - exists None. split; [done|]. intros d sc Hdk. apply H. lia.
Qed.

(** [int x;] at file scope and [char x;] in a block. *)
Definition legacy_shadowed : Legacy.global :=
  Legacy.after
    (Legacy.bind
       (Legacy.sym_add ns_ident (legacy_decl "x" T_INT SYM_TENTATIVE LINK_EXTERN))
       (fun _ =>
          Legacy.bind (Legacy.push_scope ns_ident)
            (fun _ =>
               Legacy.sym_add ns_ident
                 (legacy_decl "x" T_CHAR SYM_DEFINITION LINK_NONE))))
    legacy_file_scope.

Lemma legacy_sym_lookup_innermost_first_witness :
  Legacy.sym_lookup ns_ident "x" legacy_shadowed
  = Legacy.Return (Some 1%nat) legacy_shadowed
  /\ exists r,
       Legacy.sym_lookup ns_ident "x" legacy_shadowed
       = Legacy.Return r legacy_shadowed.
Proof.
  split; [reflexivity|].
  destruct (legacy_sym_lookup_innermost_first ns_ident "x" legacy_shadowed
              [Legacy.mk_scope [0%nat]; Legacy.mk_scope [1%nat]])
    as (r & Hr & _);
    [reflexivity | vm_compute; discriminate | vm_compute; lia
    | repeat constructor |].
  by exists r.
Defined.

(** ** Declaring a name and finding it again *)

(** The creation of a symbol by [sym_add], on the cleared record [p]
    that [alloc_sym] hands to it, whether recycled or fresh. *)
Lemma sym_add_create_from ns nm ty kind link g p g1 sc :
  alloc_sym g = Return p g1 ->
  heap g1 !! p = Some zero_symbol ->
  (0 < scope_len (get_ns ns g1))%nat ->
  scope_frames (get_ns ns g1) !! (scope_len (get_ns ns g1) - 1)%nat = Some sc ->
  exists g',
    sym_add_create ns nm ty kind link g = Return p g'
    /\ heap g'
       = <[p := new_symbol nm ty kind link (scope_len (get_ns ns g1) - 1)
                  (n_sym_add g1)]> (heap g1)
    /\ get_ns ns g'
       = with_scopes
           (<[(scope_len (get_ns ns g1) - 1)%nat :=
                mk_scope SCOPE_INITIALIZED
                  (hash_insert (heap g') (visible_entries sc) p)]>
              (scope_frames (get_ns ns g1)))
           (scope_len (get_ns ns g1)) (max_scope_depth (get_ns ns g1))
           (with_symbol_list (symbol_list (get_ns ns g1) ++ [p])%list
              (get_ns ns g1))
    /\ (forall ns', ns' <> ns -> get_ns ns' g' = get_ns ns' g1)
    /\ temporaries g' = temporaries g1
    /\ functions g'
       = (if is_function ty then hash_insert (heap g') (functions g1) p
          else functions g1)
    /\ functions_init g' = functions_init g1
    /\ n_sym_add g'
       = (if linkage_eqb link LINK_INTERN
             && negb (scope_len (get_ns ns g1) - 1 =? 0)%nat
          then wrap_int (n_sym_add g1 + 1) else n_sym_add g1)
    /\ decl_memcpy g'
       = (if negb (is_Some_b (decl_memcpy g1)) && String.eqb "memcpy" nm
          then Some p else decl_memcpy g1)
    /\ freed g' = freed g1 /\ diagnostics g' = diagnostics g1.
Proof.
  intros Ha Hz Hlen Hsc.
  unfold sym_add_create.
  rewrite (bind_Return _ _ _ _ _ Ha).
  rewrite (bind_Return _ _ _ _ _ (current_scope_depth_eq ns _ Hlen)).
  assert (Hlt : (p < length (heap g1))%nat) by (by eapply lookup_lt_Some).
  unfold new_symbol.
  destruct (linkage_eqb link LINK_INTERN
            && negb (scope_len (get_ns ns g1) - 1 =? 0)%nat) eqn:Es;
  destruct (symtype_eqb kind SYM_TAG || symtype_eqb kind SYM_TYPEDEF) eqn:Et;
  destruct (negb (is_Some_b (decl_memcpy g1)) && ("memcpy" =? nm)%string) eqn:Em;
  destruct (is_function ty) eqn:Ef.
  all: unfold bump_sym_add, next_counter, type_set_tag, update_ns, sym_name,
         when;
    unfold bind, gets, modify, ret; gsimpl;
    repeat (first [run_update | progress rewrite ?Em, ?Es, ?Et, ?Ef]; gsimpl);
    nsimpl;
    rewrite (sym_make_visible_eq ns _ _ sc) by (nsimpl; gsimpl; done);
    nsimpl; gsimpl; nsimpl;
    (erewrite load_Some
       by (gsimpl; nsimpl; gsimpl; apply list_lookup_insert_eq;
           rewrite ?length_insert; exact Hlt)).
  all: nsimpl; gsimpl; cbn [n set_n set_linkage set_symtype set_type set_name
                             set_depth zero_symbol name];
    match goal with
    | |- context [if ?b then _ else _] => destruct b
    end;
    (eexists; split; [reflexivity|]); nsimpl; gsimpl; nsimpl;
    unfold new_symbol, visible_entries, array_push_back; rewrite ?Es;
    repeat apply conj;
    first [reflexivity
          | intros ns' Hne; nsimpl; rewrite get_set_ns_ne by done; nsimpl;
            rewrite ?get_set_ns_ne by done; nsimpl; reflexivity
          | destruct ns; reflexivity].
Qed.

(** What [alloc_sym] returns and what it leaves alone. *)
Lemma alloc_sym_frame g :
  pool_valid g ->
  exists p g1,
    alloc_sym g = Return p g1
    /\ heap g1 !! p = Some zero_symbol
    /\ (forall q, q <> p -> heap g1 !! q = heap g !! q)
    /\ (In p (temporaries g) \/ p = length (heap g))
    /\ (forall q, In q (temporaries g1) -> In q (temporaries g))
    /\ g1 = with_heap (heap g1) (with_temporaries (temporaries g1) g).
Proof.
  intros Hv. destruct (array_pop_back (temporaries g)) as [[p rest]|] eqn:E.
  - apply array_pop_back_Some in E.
    assert (Hp : (p < length (heap g))%nat).
    { unfold pool_valid in Hv. rewrite E in Hv. unfold array_push_back in Hv.
      apply Forall_app in Hv as [_ Hv]. by inversion Hv. }
    eexists _, _. split; [by apply alloc_sym_pool|]. gsimpl.
    split; [by apply list_lookup_insert_eq|].
    split; [intros q Hq; by apply list_lookup_insert_ne|].
    rewrite E. unfold array_push_back.
    split; [left; apply in_or_app; right; by left|].
    split; [intros q Hq; apply in_or_app; by left|done].
  - apply array_pop_back_None in E.
    eexists _, _. split; [by apply alloc_sym_fresh|]. gsimpl.
    split; [rewrite lookup_app_r by lia; by rewrite Nat.sub_diag|].
    split.
    { intros q Hq. destruct (decide (q < length (heap g))%nat).
      - by apply lookup_app_l.
      - rewrite !lookup_ge_None_2; [done|lia|rewrite length_app; simpl; lia]. }
    split; [by right|]. split; [by rewrite E|done].
Qed.

Lemma hash_lookup_None h tab nm q :
  hash_lookup h tab nm = None -> In q tab -> has_key h nm q = false.
Proof. unfold hash_lookup. intros H Hq. by apply (find_none _ _ H). Qed.

(** A table without an entry under a name, after a record [p] was
    given that name and entered: the table gives [p] for the name. *)
Lemma hash_lookup_insert_new h h' tab nm p s :
  h' !! p = Some s -> name s = nm ->
  (forall q, q <> p -> h' !! q = h !! q) ->
  hash_lookup h tab nm = None ->
  hash_lookup h' (hash_insert h' tab p) nm = Some p.
Proof.
  intros Hp Hnm Hold Hnone.
  assert (Hkey : has_key h' nm p = true).
  { unfold has_key, sym_hash_key. rewrite Hp. cbn. rewrite Hnm.
    apply String.eqb_refl. }
  unfold hash_insert, sym_hash_key. rewrite Hp.
  cbn [fmap option_fmap option_map]. rewrite Hnm.
  destruct (hash_lookup h' tab nm) as [q|] eqn:E.
  - rewrite E. f_equal. destruct (decide (q = p)) as [|Hne]; [done|].
    destruct (hash_lookup_Some _ _ _ _ E) as (Hin & s' & Hs' & Hn').
    rewrite (Hold q Hne) in Hs'.
    pose proof (hash_lookup_None _ _ _ q Hnone Hin) as Hno.
    unfold has_key, sym_hash_key in Hno. rewrite Hs' in Hno. cbn in Hno.
    rewrite Hn', String.eqb_refl in Hno. discriminate.
  - by apply hash_lookup_app_None.
Qed.

Lemma sym_lookup_function_eq nm g :
  sym_lookup_function nm g
  = Return
      (if functions_init g then hash_lookup (heap g) (functions g) nm else None)
      (if functions_init g then g else with_functions [] true g).
Proof.
  unfold sym_lookup_function, bind, gets, when, modify, ret.
  by destruct (functions_init g).
Qed.

(** The creation of a symbol by [sym_add] in a scope whose table has
    no entry under the name: the new record, what becomes of the
    namespace, and the lookup of the name afterwards. *)
Lemma sym_add_create_visible ns nm ty kind link g sc :
  pool_valid g ->
  (0 < scope_len (get_ns ns g) <= length (scope_frames (get_ns ns g)))%nat ->
  scope_frames (get_ns ns g) !! (scope_len (get_ns ns g) - 1)%nat = Some sc ->
  hash_lookup (heap g) (visible_entries sc) nm = None ->
  exists p g',
    let s := new_symbol nm ty kind link (scope_len (get_ns ns g) - 1)
               (n_sym_add g) in
    sym_add_create ns nm ty kind link g = Return p g'
    /\ heap g' !! p = Some s
    /\ (forall q, q <> p -> heap g' !! q = heap g !! q)
    /\ (In p (temporaries g) \/ p = length (heap g))
    /\ (forall q, In q (temporaries g') -> In q (temporaries g))
    /\ get_ns ns g'
       = with_scopes
           (<[(scope_len (get_ns ns g) - 1)%nat :=
                mk_scope SCOPE_INITIALIZED
                  (hash_insert (heap g') (visible_entries sc) p)]>
              (scope_frames (get_ns ns g)))
           (scope_len (get_ns ns g)) (max_scope_depth (get_ns ns g))
           (with_symbol_list (symbol_list (get_ns ns g) ++ [p])%list
              (get_ns ns g))
    /\ decl_memcpy g'
       = (if negb (is_Some_b (decl_memcpy g)) && String.eqb "memcpy" nm
          then Some p else decl_memcpy g)
    /\ functions g'
       = (if is_function ty then hash_insert (heap g') (functions g) p
          else functions g)
    /\ functions_init g' = functions_init g
    /\ diagnostics g' = diagnostics g
    /\ sym_lookup ns nm g'
       = Return (Some p)
           (with_heap (<[p := set_referenced true s]> (heap g')) g').
Proof.
  intros Hv Hlen Hsc Hprobe.
  destruct (alloc_sym_frame g Hv)
    as (p & g1 & Ha & Hz & Hq & Hwhere & Hpool & Hg1).
  assert (Hns1 : get_ns ns g1 = get_ns ns g) by (rewrite Hg1; by destruct ns).
  assert (Hc1 : n_sym_add g1 = n_sym_add g) by (by rewrite Hg1).
  assert (Hm1 : decl_memcpy g1 = decl_memcpy g) by (by rewrite Hg1).
  assert (Hf1 : functions g1 = functions g
                /\ functions_init g1 = functions_init g)
    by (by rewrite Hg1).
  destruct Hf1 as (Hf1 & Hi1).
  destruct (sym_add_create_from ns nm ty kind link g p g1 sc Ha Hz)
    as (g' & Hadd & Hheap & Hns & _ & Htmp & Hfn & Hfi & _ & Hmem & _ & Hdg);
    [rewrite Hns1; first [lia | done]..|].
  assert (Hd1 : diagnostics g1 = diagnostics g) by (by rewrite Hg1).
  rewrite Hd1 in Hdg.
  rewrite Hm1 in Hmem. rewrite Hf1 in Hfn. rewrite Hi1 in Hfi.
  rewrite Hns1, Hc1 in Hheap. rewrite Hns1 in Hns.
  assert (Hlt : (p < length (heap g1))%nat) by (by eapply lookup_lt_Some).
  assert (Hp : heap g' !! p
               = Some (new_symbol nm ty kind link
                         (scope_len (get_ns ns g) - 1) (n_sym_add g))).
  { rewrite Hheap. by apply list_lookup_insert_eq. }
  assert (Hold : forall q, q <> p -> heap g' !! q = heap g !! q).
  { intros q Hne. rewrite Hheap, list_lookup_insert_ne by done. by apply Hq. }
  exists p, g'. cbv zeta.
  split; [exact Hadd|]. split; [exact Hp|]. split; [exact Hold|].
  split; [exact Hwhere|]. split; [by rewrite Htmp|]. split; [exact Hns|].
  split; [exact Hmem|]. split; [exact Hfn|]. split; [exact Hfi|].
  split; [exact Hdg|].
  assert (Htab : hash_lookup (heap g')
                   (hash_insert (heap g') (visible_entries sc) p) nm = Some p).
  { by eapply hash_lookup_insert_new. }
  rewrite sym_lookup_scan by (rewrite Hns; gsimpl; rewrite length_insert; lia).
  rewrite Hns. gsimpl.
  destruct (scope_len (get_ns ns g)) as [|d] eqn:Ed; [lia|].
  replace (S d - 1)%nat with d in * by lia.
  rewrite (scan_scopes_step _ _ _ d
             (mk_scope SCOPE_INITIALIZED
                (hash_insert (heap g') (visible_entries sc) p)))
    by (apply list_lookup_insert_eq; lia).
  unfold probe. cbn [state table]. rewrite Htab. by rewrite Hp.
Qed.

(** The state in which [sym_add] goes on after the function table
    was consulted for a function type: the table is initialised at its
    first use. *)
Definition function_table_ready (ty : Ty) (g : global) : global :=
  if is_function ty
  then (if functions_init g then g else with_functions [] true g)
  else g.

Lemma function_table_ready_same ty g :
  heap (function_table_ready ty g) = heap g
  /\ temporaries (function_table_ready ty g) = temporaries g
  /\ n_sym_add (function_table_ready ty g) = n_sym_add g
  /\ decl_memcpy (function_table_ready ty g) = decl_memcpy g
  /\ forall ns, get_ns ns (function_table_ready ty g) = get_ns ns g.
Proof.
  unfold function_table_ready.
  destruct (is_function ty), (functions_init g);
    repeat split; try done; by intros [].
Qed.

(** A name that is neither visible nor, for a function type, in the
    function table: [sym_add] creates a symbol. *)
Lemma sym_add_new_name ns nm ty kind link g :
  sym_add_pre ns kind ->
  kind <> SYM_STRING_VALUE ->
  sym_lookup ns nm g = Return None g ->
  (is_function ty = true ->
   ns = ns_ident /\ exists g0, sym_lookup_function nm g = Return None g0) ->
  sym_add ns nm ty kind link g
  = sym_add_create ns nm ty kind link (function_table_ready ty g).
Proof.
  intros Hpre Hk Hlook Hfun.
  rewrite sym_add_eq by done. unfold sym_add_resolve.
  replace (negb (symtype_eqb kind SYM_STRING_VALUE)) with true
    by (by destruct kind).
  cbv beta iota. unfold bind at 1 2. rewrite Hlook.
  unfold function_table_ready. destruct (is_function ty) eqn:Ef; [|done].
  destruct (Hfun eq_refl) as (-> & g0' & Hf).
  rewrite sym_lookup_function_eq in Hf. injection Hf as Hf _.
  unfold bind, c_assert, ret. cbn [ns_id_eqb].
  rewrite sym_lookup_function_eq. by rewrite Hf.
Qed.

(** The symbol that [sym_add] creates for a new name, and the lookup
    of the name afterwards. *)
Lemma sym_add_new_name_visible ns nm ty kind link g :
  sym_add_pre ns kind ->
  kind <> SYM_STRING_VALUE ->
  pool_valid g ->
  (0 < scope_len (get_ns ns g))%nat ->
  sym_lookup ns nm g = Return None g ->
  (is_function ty = true ->
   ns = ns_ident /\ exists g0, sym_lookup_function nm g = Return None g0) ->
  exists p g',
    let s := new_symbol nm ty kind link (scope_len (get_ns ns g) - 1)
               (n_sym_add g) in
    sym_add ns nm ty kind link g = Return p g'
    /\ heap g' !! p = Some s
    /\ symbol_list (get_ns ns g') = (symbol_list (get_ns ns g) ++ [p])%list
    /\ (In p (temporaries g) \/ p = length (heap g))
    /\ decl_memcpy g'
       = (if negb (is_Some_b (decl_memcpy g)) && String.eqb "memcpy" nm
          then Some p else decl_memcpy g)
    /\ sym_lookup ns nm g'
       = Return (Some p)
           (with_heap (<[p := set_referenced true s]> (heap g')) g').
Proof.
  intros Hpre Hk Hv Hlen Hlook Hfun.
  destruct (sym_lookup_None_inv _ _ _ _ Hlook) as (_ & Hscan & Hfit).
  destruct (lookup_lt_is_Some_2 (scope_frames (get_ns ns g))
              (scope_len (get_ns ns g) - 1)) as [sc Hsc]; [lia|].
  assert (Hprobe : hash_lookup (heap g) (visible_entries sc) nm = None).
  { rewrite <- probe_visible_entries.
    apply (proj1 (scan_scopes_None _ _ _ _ Hfit) Hscan
             (scope_len (get_ns ns g) - 1)%nat sc); [lia|done]. }
  destruct (function_table_ready_same ty g) as (Hh0 & Ht0 & Hn0 & Hm0 & Hns0).
  set (g0 := function_table_ready ty g) in *.
  assert (Hv0 : pool_valid g0) by (unfold pool_valid; by rewrite Ht0, Hh0).
  destruct (sym_add_create_visible ns nm ty kind link g0 sc Hv0)
    as (p & g' & Hadd & Hp & _ & Hwhere & _ & Hns & Hmem & _ & _ & _ & Hfind);
    [rewrite Hns0; lia | by rewrite Hns0 | by rewrite Hh0 |].
  rewrite Hns0, Hn0 in Hp, Hfind. rewrite Hns0 in Hns.
  rewrite Ht0, Hh0 in Hwhere. rewrite Hm0 in Hmem.
  exists p, g'. cbv zeta.
  rewrite (sym_add_new_name ns nm ty kind link g) by done.
  split; [exact Hadd|]. split; [exact Hp|]. split; [by rewrite Hns|].
  split; [exact Hwhere|]. split; [exact Hmem|]. exact Hfind.
Qed.

(** A name that is not visible, and for a function type not in the
    function table either: [sym_add] creates a symbol with the fields
    of the declaration at the current depth and appends it to the list
    of the namespace, and a lookup of the name then finds that
    symbol. *)
Theorem sym_add_then_lookup ns nm ty kind link g :
  sym_add_pre ns kind ->
  kind <> SYM_STRING_VALUE ->
  pool_valid g ->
  (0 < scope_len (get_ns ns g))%nat ->
  sym_lookup ns nm g = Return None g ->
  (is_function ty = true ->
   ns = ns_ident /\ exists g0, sym_lookup_function nm g = Return None g0) ->
  exists p g' s,
    sym_add ns nm ty kind link g = Return p g'
    /\ heap g' !! p = Some s
    /\ name s = nm /\ type s = ty /\ symtype s = kind /\ linkage s = link
    /\ depth s = (scope_len (get_ns ns g) - 1)%nat
    /\ referenced s = false
    /\ symbol_list (get_ns ns g') = (symbol_list (get_ns ns g) ++ [p])%list
    /\ sym_lookup ns nm g'
       = Return (Some p)
           (with_heap (<[p := set_referenced true s]> (heap g')) g').
Proof.
  intros Hpre Hk Hv Hlen Hlook Hfun.
  destruct (sym_add_new_name_visible ns nm ty kind link g Hpre Hk Hv Hlen
              Hlook Hfun) as (p & g' & Hadd & Hp & Hl & _ & _ & Hfind).
  exists p, g', (new_symbol nm ty kind link (scope_len (get_ns ns g) - 1)
                   (n_sym_add g)).
  split; [exact Hadd|]. split; [exact Hp|].
  do 6 (split; [reflexivity|]). split; [exact Hl|exact Hfind].
Qed.

Lemma sym_add_then_lookup_witness :
  exists p g' s,
    sym_add ns_ident "x" T_INT SYM_TENTATIVE LINK_EXTERN file_scope
    = Return p g'
    /\ heap g' !! p = Some s
    /\ name s = "x"
    /\ sym_lookup ns_ident "x" g'
       = Return (Some p)
           (with_heap (<[p := set_referenced true s]> (heap g')) g').
Proof.
  destruct (sym_add_then_lookup ns_ident "x" T_INT SYM_TENTATIVE LINK_EXTERN
              file_scope)
    as (p & g' & s & H1 & H2 & H3 & _ & _ & _ & _ & _ & _ & H4);
    [ split; discriminate | discriminate | constructor | vm_compute; lia
    | reflexivity | discriminate |].
  exists p, g', s. repeat split; assumption.
Defined.

(** The scan of one scope of the older implementation, after a symbol
    was appended to the list and its index to the scope. *)
Lemma legacy_scan_scope_snoc symbols x nm ids :
  Legacy.scan_scope symbols nm ids = Some None ->
  Legacy.name x = nm ->
  Legacy.scan_scope (symbols ++ [x]) nm (ids ++ [length symbols])
  = Some (Some (length symbols)).
Proof.
  intros H Hx. induction ids as [|j ids IH].
  - cbn. rewrite lookup_app_r by lia. rewrite Nat.sub_diag. cbn.
    by rewrite Hx, String.eqb_refl.
  - cbn in *. destruct (symbols !! j) as [s|] eqn:E; [|done].
    rewrite (lookup_app_l_Some _ _ _ _ E).
    destruct (nm =? Legacy.name s)%string; [done|]. by apply IH.
Qed.

(** A name that is not visible: [sym_add] of [src/symtab.c] appends a
    symbol with the fields of the declaration and the current depth,
    and a lookup of the name then finds it. *)
Theorem legacy_sym_add_then_lookup ns arg l frames :
  Legacy.scope_frames (Legacy.get_ns ns l) = Some frames ->
  0 <= Legacy.current_depth (Legacy.get_ns ns l) ->
  (Z.to_nat (Legacy.current_depth (Legacy.get_ns ns l)) < length frames)%nat ->
  Legacy.sym_lookup ns (Legacy.name arg) l = Legacy.Return None l ->
  exists l',
    Legacy.sym_add ns arg l
    = Legacy.Return (length (Legacy.symbol_list (Legacy.get_ns ns l))) l'
    /\ Legacy.symbol_list (Legacy.get_ns ns l')
       = (Legacy.symbol_list (Legacy.get_ns ns l)
          ++ [legacy_new_symbol arg (Legacy.current_depth (Legacy.get_ns ns l))
                (Legacy.svc l)])%list
    /\ Legacy.sym_lookup ns (Legacy.name arg) l'
       = Legacy.Return
           (Some (length (Legacy.symbol_list (Legacy.get_ns ns l)))) l'.
Proof.
  intros Hf Hd Hlen Hlook.
  destruct (lookup_lt_is_Some_2 frames _ Hlen) as [lsc Hlsc].
  unfold Legacy.sym_add. rewrite (legacy_bind_Return _ _ _ _ _ Hlook).
  rewrite (legacy_sym_add_create_eq ns arg l frames lsc Hf Hd Hlsc).
  eexists. split; [reflexivity|].
  rewrite legacy_get_set_ns. cbn [Legacy.symbol_list]. split; [reflexivity|].
  rewrite (legacy_sym_lookup_eq _ _ _ _ Hf Hd) in Hlook.
  cbn [Legacy.scan_scopes] in Hlook. rewrite Hlsc in Hlook.
  destruct (Legacy.scan_scope _ _ (Legacy.idx lsc)) as [[i|]|] eqn:E;
    try done.
  erewrite legacy_sym_lookup_eq;
    [|rewrite legacy_get_set_ns; reflexivity
     |by rewrite legacy_get_set_ns].
  rewrite legacy_get_set_ns.
  cbn [Legacy.symbol_list Legacy.current_depth Legacy.scan_scopes].
  rewrite list_lookup_insert_eq by done. cbn [Legacy.idx].
  rewrite (legacy_scan_scope_snoc _ _ _ _ E); [done|].
  unfold legacy_new_symbol. by destruct (linkage_eqb _ _ && _).
Qed.

Lemma legacy_sym_add_then_lookup_witness :
  exists l',
    Legacy.sym_add ns_ident (legacy_decl "x" T_INT SYM_TENTATIVE LINK_EXTERN)
      legacy_file_scope = Legacy.Return 0%nat l'
    /\ Legacy.sym_lookup ns_ident "x" l' = Legacy.Return (Some 0%nat) l'.
Proof.
  destruct (legacy_sym_add_then_lookup ns_ident
              (legacy_decl "x" T_INT SYM_TENTATIVE LINK_EXTERN)
              legacy_file_scope [Legacy.mk_scope []])
    as (l' & H1 & _ & H2);
    [reflexivity | vm_compute; discriminate | vm_compute; lia | reflexivity |].
  by exists l'.
Defined.

(** ** The function table across scopes *)

(** The first [k] scopes of a namespace hold live symbols: addresses
    of the heap that are not in the recycling pool. *)
Definition scopes_live (ns : ns_id) (k : nat) (g : global) : Prop :=
  forall d sc q,
    (d < k)%nat ->
    scope_frames (get_ns ns g) !! d = Some sc ->
    In q (visible_entries sc) ->
    (q < length (heap g))%nat /\ ~ In q (temporaries g).

(** A function declared in an inner scope outlives that scope in the
    function table: once the scope is popped the name is not visible
    any more, and [sym_lookup_function] still gives the symbol. *)
Theorem function_outlives_its_scope nm ty kind link g :
  sym_add_pre ns_ident kind ->
  kind <> SYM_STRING_VALUE ->
  is_function ty = true ->
  pool_valid g ->
  scopes_live ns_ident (scope_len (idents g) - 1) g ->
  (2 <= scope_len (idents g))%nat ->
  sym_lookup ns_ident nm g = Return None g ->
  (exists g0, sym_lookup_function nm g = Return None g0) ->
  exists p g1 g2,
    sym_add ns_ident nm ty kind link g = Return p g1
    /\ pop_scope ns_ident g1 = Return tt g2
    /\ sym_lookup ns_ident nm g2 = Return None g2
    /\ sym_lookup_function nm g2 = Return (Some p) g2.
Proof.
  intros Hpre Hk Hf Hv Hlive Hlen Hlook [gf Hfun].
  destruct (sym_lookup_None_inv _ _ _ _ Hlook) as (_ & Hscan & Hfit).
  cbn [get_ns] in Hscan, Hfit.
  destruct (lookup_lt_is_Some_2 (scope_frames (idents g))
              (scope_len (idents g) - 1)) as [sc Hsc]; [lia|].
  assert (Hres : sym_add ns_ident nm ty kind link g
                 = sym_add_create ns_ident nm ty kind link
                     (function_table_ready ty g)).
  { apply sym_add_new_name; try done. intros _. split; [done|by exists gf]. }
  rewrite sym_lookup_function_eq in Hfun. injection Hfun as Hfun _.
  unfold function_table_ready in Hres. rewrite Hf in Hres.
  set (g0 := if functions_init g then g else with_functions [] true g) in *.
  assert (Hg0 : heap g0 = heap g /\ temporaries g0 = temporaries g
                /\ idents g0 = idents g /\ functions_init g0 = true
                /\ hash_lookup (heap g) (functions g0) nm = None).
  { unfold g0. revert Hfun. destruct (functions_init g) eqn:Ei; intros Hfun;
      repeat apply conj; first [reflexivity | exact Hfun | exact Ei]. }
  destruct Hg0 as (Hh0 & Ht0 & Hi0 & Hinit0 & Hft0).
  assert (Hv0 : pool_valid g0) by (unfold pool_valid; by rewrite Ht0, Hh0).
  destruct (alloc_sym_frame g0 Hv0)
    as (p & g1 & Ha & Hz & Hq & Hwhere & _ & Hg1).
  assert (Hi1 : idents g1 = idents g) by (by rewrite Hg1, <- Hi0).
  assert (Hf1 : functions g1 = functions g0 /\ functions_init g1 = true).
  { rewrite Hg1. by split. }
  destruct Hf1 as (Hf1 & Hinit1).
  destruct (sym_add_create_from ns_ident nm ty kind link g0 p g1 sc Ha Hz)
    as (g' & Hadd & Hheap & Hns & _ & _ & Hfn & Hfi & _);
    [cbn [get_ns]; rewrite Hi1; lia | cbn [get_ns]; by rewrite Hi1|].
  cbn [get_ns] in Hheap, Hns. rewrite Hi1 in Hheap, Hns.
  rewrite Hf, Hf1 in Hfn. rewrite Hinit1 in Hfi.
  assert (Hp : exists s, heap g' !! p = Some s /\ name s = nm).
  { eexists. rewrite Hheap. split; [apply list_lookup_insert_eq|done].
    by eapply lookup_lt_Some. }
  destruct Hp as (s & Hp & Hnm).
  assert (Hold : forall q, q <> p -> heap g' !! q = heap g !! q).
  { intros q Hne. rewrite Hheap, list_lookup_insert_ne by done.
    rewrite (Hq q Hne). by rewrite Hh0. }
  assert (Hsame : forall tab,
            hash_lookup (heap g) tab nm = None ->
            forall q, hash_lookup (heap g') tab nm = Some q -> q = p).
  { intros tab Hnone q E. destruct (decide (q = p)) as [|Hne]; [done|].
    destruct (hash_lookup_Some _ _ _ _ E) as (Hin & s' & Hs' & Hn').
    rewrite (Hold q Hne) in Hs'.
    pose proof (hash_lookup_None _ _ _ q Hnone Hin) as Hno.
    unfold has_key, sym_hash_key in Hno. rewrite Hs' in Hno. cbn in Hno.
    rewrite Hn', String.eqb_refl in Hno. discriminate. }
  exists p, g'. rewrite Hres.
  rewrite (parser_pop_scope_inner ns_ident g')
    by (cbn [get_ns]; rewrite Hns; gsimpl; lia).
  eexists. split; [exact Hadd|]. split; [reflexivity|]. cbn [get_ns].
  rewrite Hns. gsimpl. split.
  - (* the name is not visible in the outer scopes *)
    rewrite sym_lookup_scan by (gsimpl; rewrite length_insert; lia).
    gsimpl.
    replace (scan_scopes (heap g') _ nm (scope_len (idents g) - 1)) with
      (@None ptr); [done|]. symmetry.
    apply scan_scopes_None; [rewrite length_insert; lia|].
    intros d sc' Hd Hsc'. rewrite list_lookup_insert_ne in Hsc' by lia.
    rewrite probe_visible_entries.
    assert (Hnone : hash_lookup (heap g) (visible_entries sc') nm = None).
    { rewrite <- probe_visible_entries.
      apply (proj1 (scan_scopes_None _ _ _ _ Hfit) Hscan d sc'); [lia|done]. }
    destruct (hash_lookup (heap g') (visible_entries sc') nm) as [q|] eqn:E;
      [|done].
    exfalso. pose proof (Hsame _ Hnone q E) as ->.
    destruct (hash_lookup_Some _ _ _ _ E) as (Hin & _).
    destruct (Hlive d sc' p) as [Hlt Hnp]; [cbn [get_ns]; lia|done|done|].
    destruct Hwhere as [Hin'|Heq]; [|rewrite Heq, Hh0 in Hlt; lia].
    apply Hnp. by rewrite <- Ht0.
  - (* the function table *)
    rewrite sym_lookup_function_eq. gsimpl. rewrite Hfi, Hfn.
    f_equal. by eapply hash_lookup_insert_new.
Qed.

Lemma function_outlives_its_scope_witness :
  exists p g1 g2,
    sym_add ns_ident "bar" int_f_int SYM_DECLARATION LINK_EXTERN in_a_block
    = Return p g1
    /\ pop_scope ns_ident g1 = Return tt g2
    /\ sym_lookup ns_ident "bar" g2 = Return None g2
    /\ sym_lookup_function "bar" g2 = Return (Some p) g2.
Proof.
  apply function_outlives_its_scope;
    [ split; discriminate | discriminate | reflexivity | constructor
    | | vm_compute; lia | reflexivity | by eexists ].
  intros d sc q Hd Hsc Hin.
  assert (d = 0%nat) as -> by (vm_compute in Hd; lia).
  vm_compute in Hsc. injection Hsc as <-. destruct Hin.
Defined.

(** ** Handing the declarations to the back end *)

Definition with_cursor (x : nat) (s : namespace) : namespace :=
  {| symbol_list := symbol_list s; scope_frames := scope_frames s;
     scope_len := scope_len s; max_scope_depth := max_scope_depth s;
     cursor := x |}.

Section Yield.

(** [is_real] of the type component ([typetree.h], not part of the
    sources) is a parameter. *)
Variable is_real : Ty -> bool.

(** The [switch] of [yield_declaration]: the symbols that leave the
    loop through [break] and are returned. *)
Definition due (memcpy : option ptr) (sym : ptr) (s : symbol) : bool :=
  match symtype s with
  | SYM_TENTATIVE | SYM_STRING_VALUE => true
  | SYM_CONSTANT => is_real (type s)
  | SYM_DECLARATION =>
      linkage_eqb (linkage s) LINK_EXTERN
      && (referenced s
          || match memcpy with
             | Some m => (sym =? m)%nat
             | None => false
             end)
  | _ => false
  end.

(** The loop of [yield_declaration] over the symbols from the cursor
    on: each round takes the symbol at the cursor and moves the cursor
    past it. *)
Fixpoint yield_loop (ns : ns_id) (pending : list ptr) : M (option ptr) :=
  match pending with
  | [] => ret None
  | sym :: rest =>
      update_ns ns (fun s => with_cursor (S (cursor s)) s) ;;;
      x <- load sym ;;
      memcpy <- gets decl_memcpy ;;
      if due memcpy sym x then ret (Some sym) else yield_loop ns rest
  end.

Definition yield_declaration (ns : ns_id) : M (option ptr) :=
  s <- gets (get_ns ns) ;;
  yield_loop ns (drop (cursor s) (symbol_list s)).

(** [yields ns g l g']: from [g], the calls of [yield_declaration]
    that a caller makes until it gets the null pointer return the
    symbols of [l], one per call, and leave [g']. *)
Inductive yields (ns : ns_id) : global -> list ptr -> global -> Prop :=
| yields_none g g' :
    yield_declaration ns g = Return None g' -> yields ns g [] g'
| yields_some g p g1 l g' :
    yield_declaration ns g = Return (Some p) g1 ->
    yields ns g1 l g' ->
    yields ns g (p :: l) g'.

(** Whether the symbol at address [p] is due, in the heap of [g]. *)
Definition due_in (g : global) (p : ptr) : bool :=
  match heap g !! p with
  | Some s => due (decl_memcpy g) p s
  | None => false
  end.

Definition move_cursor (ns : ns_id) (c : nat) (g : global) : global :=
  set_ns ns (with_cursor c (get_ns ns g)) g.

Lemma move_cursor_twice ns c c' g :
  move_cursor ns c (move_cursor ns c' g) = move_cursor ns c g.
Proof. by destruct ns. Qed.

Lemma get_ns_move_cursor ns c g :
  get_ns ns (move_cursor ns c g) = with_cursor c (get_ns ns g).
Proof. unfold move_cursor. by rewrite get_set_ns. Qed.

Lemma due_in_move_cursor ns c g p :
  due_in (move_cursor ns c g) p = due_in g p.
Proof. by destruct ns. Qed.

Lemma move_cursor_id ns g : move_cursor ns (cursor (get_ns ns g)) g = g.
Proof.
  assert (Hs : forall s, with_cursor (cursor s) s = s) by (by intros []).
  unfold move_cursor. rewrite Hs. by destruct ns, g.
Qed.

(** One pass of the loop: the symbols that are not due are passed
    over, the first one that is due is returned, and the cursor is left
    behind it; with none due, the cursor is left at the end. *)
Lemma yield_loop_spec ns pending :
  forall g,
    Forall (fun p => (p < length (heap g))%nat) pending ->
    match yield_loop ns pending g with
    | Return (Some p) g' =>
        exists skipped rest,
          pending = (skipped ++ p :: rest)%list
          /\ Forall (fun q => due_in g q = false) skipped
          /\ due_in g p = true
          /\ g' = move_cursor ns
                    (cursor (get_ns ns g) + S (length skipped))%nat g
    | Return None g' =>
        Forall (fun q => due_in g q = false) pending
        /\ g' = move_cursor ns (cursor (get_ns ns g) + length pending)%nat g
    | _ => False
    end.
Proof.
  induction pending as [|p pending IH]; intros g Hv.
  - cbn. split; [constructor|]. by rewrite Nat.add_0_r, move_cursor_id.
  - inversion Hv as [|? ? Hp Hv']; subst.
    destruct (lookup_lt_is_Some_2 _ _ Hp) as [s Hs].
    cbn [yield_loop]. unfold update_ns, modify, bind at 1.
    unfold bind at 1, load. rewrite heap_set_ns, Hs.
    unfold bind at 1, gets.
    assert (Hd : due_in g p = due (decl_memcpy g) p s)
      by (unfold due_in; by rewrite Hs).
    replace (decl_memcpy (set_ns ns (with_cursor (S (cursor (get_ns ns g)))
                                       (get_ns ns g)) g))
      with (decl_memcpy g) by (by destruct ns).
    destruct (due (decl_memcpy g) p s) eqn:E.
    + unfold ret. exists [], pending. cbn [app length].
      repeat split; [constructor|congruence|].
      unfold move_cursor. do 3 f_equal. lia.
    + fold (move_cursor ns (S (cursor (get_ns ns g))) g).
      specialize (IH (move_cursor ns (S (cursor (get_ns ns g))) g)).
      assert (Hv1 : Forall (fun q => (q < length
                        (heap (move_cursor ns (S (cursor (get_ns ns g))) g)))%nat)
                      pending)
        by (unfold move_cursor; by rewrite heap_set_ns).
      specialize (IH Hv1).
      destruct (yield_loop ns pending _) as [[q|] g'| |]; [| |done..].
      * destruct IH as (skipped & rest & -> & Hsk & Hq & ->).
        exists (p :: skipped), rest. rewrite due_in_move_cursor in Hq.
        repeat split; [|done|].
        -- constructor; [congruence|].
           eapply Forall_impl; [exact Hsk|]. intros x. cbv beta.
           by rewrite due_in_move_cursor.
        -- rewrite move_cursor_twice, get_ns_move_cursor.
           cbn [cursor with_cursor length]. f_equal. lia.
      * destruct IH as (Hsk & ->). split.
        -- constructor; [congruence|].
           eapply Forall_impl; [exact Hsk|]. intros x. cbv beta.
           by rewrite due_in_move_cursor.
        -- rewrite move_cursor_twice, get_ns_move_cursor.
           cbn [cursor with_cursor length]. f_equal. lia.
Qed.

Lemma filter_not_due g l :
  Forall (fun q => due_in g q = false) l -> List.filter (due_in g) l = [].
Proof.
  induction 1 as [|q l Hq _ IH]; [done|]. cbn. by rewrite Hq.
Qed.

(** [yield_declaration] passes over the symbols that are not due and
    returns the first symbol at or after the cursor that is due:
    a tentative definition, a string literal, a constant of a real
    type, or an [extern] declaration that was referenced or is the one
    of [memcpy].  Taking declarations until there is none gives each
    due symbol from the cursor on, once and in the order of the list,
    and leaves the cursor at the end of the list; nothing else
    changes. *)
Theorem yield_declaration_enumerates ns g :
  Forall (fun p => (p < length (heap g))%nat)
    (drop (cursor (get_ns ns g)) (symbol_list (get_ns ns g))) ->
  (cursor (get_ns ns g) <= length (symbol_list (get_ns ns g)))%nat ->
  yields ns g
    (List.filter (due_in g)
       (drop (cursor (get_ns ns g)) (symbol_list (get_ns ns g))))
    (move_cursor ns (length (symbol_list (get_ns ns g))) g).
Proof.
  assert (Hall : forall k g,
    Forall (fun p => (p < length (heap g))%nat)
      (drop (cursor (get_ns ns g)) (symbol_list (get_ns ns g))) ->
    (cursor (get_ns ns g) <= length (symbol_list (get_ns ns g)))%nat ->
    (length (List.filter (due_in g)
               (drop (cursor (get_ns ns g)) (symbol_list (get_ns ns g))))
     < k)%nat ->
    yields ns g
      (List.filter (due_in g)
         (drop (cursor (get_ns ns g)) (symbol_list (get_ns ns g))))
      (move_cursor ns (length (symbol_list (get_ns ns g))) g)).
  { clear g. induction k as [|k IH]; intros g Hv Hc Hk; [lia|].
    assert (Hcall : yield_declaration ns g
                    = yield_loop ns
                        (drop (cursor (get_ns ns g))
                           (symbol_list (get_ns ns g))) g) by reflexivity.
    pose proof (yield_loop_spec ns _ g Hv) as H.
    destruct (yield_loop ns _ g) as [[p|] g'| |]; [| |done..].
    - destruct H as (skipped & rest & Hdrop & Hsk & Hp & ->).
      rewrite Hdrop in Hk |- *.
      rewrite List.filter_app, (filter_not_due _ _ Hsk) in Hk |- *.
      cbn [app List.filter] in Hk |- *. rewrite Hp in Hk |- *.
      cbn [length] in Hk.
      set (c' := (cursor (get_ns ns g) + S (length skipped))%nat) in *.
      assert (Hrest : drop c' (symbol_list (get_ns ns g)) = rest).
      { unfold c'. rewrite <- drop_drop, Hdrop.
        rewrite (cons_middle p skipped rest), app_assoc.
        apply drop_app_length'. rewrite length_app. cbn. lia. }
      assert (Hlen : (c' <= length (symbol_list (get_ns ns g)))%nat).
      { apply (f_equal (@length ptr)) in Hdrop.
        rewrite length_drop, length_app in Hdrop. cbn in Hdrop.
        unfold c'. lia. }
      apply (yields_some ns g p (move_cursor ns c' g)); [exact Hcall|].
      specialize (IH (move_cursor ns c' g)).
      rewrite get_ns_move_cursor in IH.
      cbn [cursor symbol_list with_cursor] in IH.
      rewrite Hrest, move_cursor_twice in IH.
      erewrite List.filter_ext in IH;
        [|intros q; apply (due_in_move_cursor ns)].
      apply IH.
      + unfold move_cursor. rewrite heap_set_ns.
        rewrite Hdrop in Hv. apply Forall_app in Hv as [_ Hv].
        by inversion Hv.
      + exact Hlen.
      + exact (proj2 (Nat.succ_lt_mono _ _) Hk).
    - destruct H as (Hno & ->). rewrite (filter_not_due _ _ Hno).
      apply yields_none. rewrite Hcall.
      rewrite length_drop.
      replace (cursor (get_ns ns g)
               + (length (symbol_list (get_ns ns g)) - cursor (get_ns ns g)))%nat
        with (length (symbol_list (get_ns ns g))) by lia.
      reflexivity. }
  intros Hv Hc. by apply (Hall _ g Hv Hc (Nat.lt_succ_diag_r _)).
Qed.

End Yield.

(** [int x;], a string literal and [int y = ...;] at file scope. *)
Definition three_symbols : global :=
  after (sym_add ns_ident "y" T_INT SYM_DEFINITION LINK_EXTERN)
    (after (sym_create_string "hi")
       (after (sym_add ns_ident "x" T_INT SYM_TENTATIVE LINK_EXTERN)
          file_scope)).

Lemma yield_declaration_enumerates_witness :
  symbol_list (idents three_symbols) = [0; 1; 2]%nat
  /\ yields (fun _ => false) ns_ident three_symbols [0; 1]%nat
       (move_cursor ns_ident 3 three_symbols).
Proof.
  split; [reflexivity|].
  refine (yield_declaration_enumerates (fun _ => false) ns_ident
            three_symbols _ _).
  - vm_compute. repeat constructor.
  - vm_compute. lia.
Defined.

(** The address kept in [decl_memcpy], when there is one, is a record
    in use. *)
Definition memcpy_live (g : global) : Prop :=
  match decl_memcpy g with
  | Some m => (m < length (heap g))%nat /\ ~ In m (temporaries g)
  | None => True
  end.

(** An [extern] declaration of a name other than [memcpy] is not
    handed to the back end as long as nothing refers to it; the first
    lookup that finds it makes it due. *)
Theorem declaration_due_once_looked_up is_real ns nm ty g :
  pool_valid g ->
  memcpy_live g ->
  (0 < scope_len (get_ns ns g))%nat ->
  sym_lookup ns nm g = Return None g ->
  (is_function ty = true ->
   ns = ns_ident /\ exists g0, sym_lookup_function nm g = Return None g0) ->
  nm <> "memcpy" ->
  exists p g1 g2,
    sym_add ns nm ty SYM_DECLARATION LINK_EXTERN g = Return p g1
    /\ due_in is_real g1 p = false
    /\ sym_lookup ns nm g1 = Return (Some p) g2
    /\ due_in is_real g2 p = true.
Proof.
  intros Hv Hm Hd Hl Hf Hnm.
  destruct (sym_add_new_name_visible ns nm ty SYM_DECLARATION LINK_EXTERN g)
    as (p & g1 & Hadd & Hs & _ & Hp & Hmem & Hlook); [by split|done..|].
  cbv zeta in *.
  set (s := new_symbol nm ty SYM_DECLARATION LINK_EXTERN
              (scope_len (get_ns ns g) - 1) (n_sym_add g)) in *.
  assert (Hk : symtype s = SYM_DECLARATION) by reflexivity.
  assert (Hlk : linkage s = LINK_EXTERN) by reflexivity.
  assert (Href : referenced s = false) by reflexivity.
  eexists p, g1, _. split; [exact Hadd|].
  assert (Hcpy : decl_memcpy g1 = decl_memcpy g).
  { rewrite Hmem. destruct (String.eqb_spec "memcpy" nm) as [E|_];
      [by destruct Hnm|]. by rewrite andb_false_r. }
  split; [|split; [exact Hlook|]].
  - unfold due_in. rewrite Hs. unfold due. rewrite Hk, Hlk, Href, Hcpy.
    cbn [linkage_eqb andb orb]. unfold memcpy_live in Hm.
    destruct (decl_memcpy g) as [m|]; [|done].
    destruct (Nat.eqb_spec p m) as [->|_]; [|done].
    destruct Hm as [Hlt Hin]. destruct Hp as [Hp| ->]; [done|lia].
  - unfold due_in. cbn [heap with_heap]. rewrite list_lookup_insert_eq.
    + unfold due, set_referenced. cbn [symtype linkage referenced].
      by rewrite Hk, Hlk.
    + by apply lookup_lt_Some in Hs.
Qed.

Lemma declaration_due_once_looked_up_witness :
  exists p g1 g2,
    sym_add ns_ident "puts" T_INT SYM_DECLARATION LINK_EXTERN file_scope
    = Return p g1
    /\ due_in (fun _ => false) g1 p = false
    /\ sym_lookup ns_ident "puts" g1 = Return (Some p) g2
    /\ due_in (fun _ => false) g2 p = true.
Proof.
  apply (declaration_due_once_looked_up (fun _ => false) ns_ident "puts"
           T_INT file_scope).
  - vm_compute. constructor.
  - vm_compute. exact I.
  - vm_compute. lia.
  - reflexivity.
  - intros H. discriminate H.
  - intros H. discriminate H.
Defined.

(** ** Block scope *)

Lemma hash_lookup_ext h h' tab nm :
  (forall e, In e tab -> sym_hash_key h' e = sym_hash_key h e) ->
  hash_lookup h' tab nm = hash_lookup h tab nm.
Proof.
  unfold hash_lookup. induction tab as [|e tab IH]; intros H; [done|].
  cbn [List.find]. unfold has_key at 1 3. rewrite (H e) by (by left).
  fold (has_key h nm e). destruct (has_key h nm e); [done|].
  apply IH. intros e' He'. apply H. by right.
Qed.

(** A lookup depends on the frames in scope and on the names of the
    symbols that their tables hold, on nothing else. *)
Lemma scan_scopes_ext h h' frames frames' nm k :
  (forall d, (d < k)%nat -> frames' !! d = frames !! d) ->
  (forall d sc e, (d < k)%nat -> frames !! d = Some sc ->
                  In e (visible_entries sc) ->
                  sym_hash_key h' e = sym_hash_key h e) ->
  scan_scopes h' frames' nm k = scan_scopes h frames nm k.
Proof.
  induction k as [|i IH]; intros Hf He; [done|].
  cbn [scan_scopes]. rewrite (Hf i) by lia.
  destruct (frames !! i) as [sc|] eqn:Hsc; [|done].
  assert (IH' : scan_scopes h' frames' nm i = scan_scopes h frames nm i).
  { apply IH; [intros d Hd; apply Hf; lia|].
    intros d sc' e Hd. apply He. lia. }
  specialize (He i sc). unfold visible_entries in He.
  destruct (state sc); try exact IH'.
  rewrite (hash_lookup_ext h h') by (intros e; apply He; [lia|done]).
  by rewrite IH'.
Qed.

(** [push_scope] opens a scope without entries, on a frame that is
    new or reused, and leaves the frames below as they are. *)
Lemma push_scope_opens ns g :
  (scope_len (get_ns ns g) <= max_scope_depth (get_ns ns g)
   <= length (scope_frames (get_ns ns g)))%nat ->
  exists frames1 maxd1 sc1,
    push_scope ns g
    = Return tt
        (set_ns ns
           (with_scopes frames1 (S (scope_len (get_ns ns g))) maxd1
              (get_ns ns g)) g)
    /\ frames1 !! scope_len (get_ns ns g) = Some sc1
    /\ visible_entries sc1 = []
    /\ (forall d, (d < scope_len (get_ns ns g))%nat ->
                  frames1 !! d = scope_frames (get_ns ns g) !! d)
    /\ (scope_len (get_ns ns g) < maxd1 <= length frames1)%nat.
Proof.
  intros Hmax. unfold push_scope, bind, gets.
  destruct (Nat.ltb_spec (scope_len (get_ns ns g))
              (max_scope_depth (get_ns ns g))) as [Hlt|Hge].
  - unfold c_assert.
    destruct (Nat.ltb_spec (scope_len (get_ns ns g))
                (length (scope_frames (get_ns ns g)))) as [Hin|]; [|lia].
    destruct (lookup_lt_is_Some_2 _ _ Hin) as [sc Hsc]. rewrite Hsc.
    unfold ret, update_ns, modify.
    eexists _, _, _. split; [reflexivity|].
    split; [by apply list_lookup_insert_eq|].
    split.
    { unfold visible_entries. destruct (state sc) eqn:E; cbn [state];
        by rewrite ?E. }
    split; [intros d Hd; apply list_lookup_insert_ne; lia|].
    rewrite length_insert. lia.
  - unfold update_ns, modify, array_push_back.
    eexists _, _, _. split; [reflexivity|].
    assert (Hk : length (take (scope_len (get_ns ns g))
                           (scope_frames (get_ns ns g)))
                 = scope_len (get_ns ns g))
      by (rewrite length_take; lia).
    split.
    { rewrite lookup_app_r by lia. rewrite Hk, Nat.sub_diag. reflexivity. }
    split; [reflexivity|].
    split; [intros d Hd; rewrite lookup_app_l by lia; by apply lookup_take_lt|].
    rewrite length_app, Hk. cbn [length]. lia.
Qed.

(** A visible symbol of another depth, that the declaration does not
    complete, is shadowed: [sym_add] goes on to create a symbol. *)
Lemma sym_add_merge_shadows ns nm ty kind link g p s :
  heap g !! p = Some s ->
  (0 < scope_len (get_ns ns g))%nat ->
  depth s <> (scope_len (get_ns ns g) - 1)%nat ->
  extern_completion kind link s = false ->
  sym_add_merge ns nm ty kind link p g = sym_add_create ns nm ty kind link g.
Proof.
  intros Hs Hlen Hd Hext. unfold sym_add_merge.
  rewrite (bind_Return _ _ _ _ _ (load_Some _ _ _ Hs)).
  unfold extern_completion in Hext. rewrite Hext.
  rewrite (bind_Return _ _ _ _ _ (current_scope_depth_eq _ _ Hlen)).
  by destruct (Nat.eqb_spec (depth s) (scope_len (get_ns ns g) - 1)).
Qed.

Lemma with_heap_id g : with_heap (heap g) g = g.
Proof. by destruct g. Qed.

Lemma set_referenced_id s : referenced s = true -> set_referenced true s = s.
Proof. destruct s. cbn. by intros ->. Qed.

(** The creation of a symbol in a scope that was just opened, followed
    by the end of that scope. *)
Lemma block_of_one_declaration ns nm ty kind link g ga frames1 maxd1 sc1 r :
  pool_valid ga ->
  scopes_live ns (scope_len (get_ns ns g)) g ->
  (0 < scope_len (get_ns ns g) <= length (scope_frames (get_ns ns g)))%nat ->
  length (heap ga) = length (heap g) ->
  (forall e, sym_hash_key (heap ga) e = sym_hash_key (heap g) e) ->
  temporaries ga = temporaries g ->
  get_ns ns ga
  = with_scopes frames1 (S (scope_len (get_ns ns g))) maxd1 (get_ns ns g) ->
  frames1 !! scope_len (get_ns ns g) = Some sc1 ->
  visible_entries sc1 = [] ->
  (forall d, (d < scope_len (get_ns ns g))%nat ->
             frames1 !! d = scope_frames (get_ns ns g) !! d) ->
  scan_scopes (heap g) (scope_frames (get_ns ns g)) nm
    (scope_len (get_ns ns g)) = r ->
  (forall q, r = Some q ->
             exists x, heap ga !! q = Some x /\ referenced x = true) ->
  exists p g2 g3 g4,
    sym_add_create ns nm ty kind link ga = Return p g2
    /\ r <> Some p
    /\ sym_lookup ns nm g2 = Return (Some p) g3
    /\ pop_scope ns g3 = Return tt g4
    /\ sym_lookup ns nm g4 = Return r g4
    /\ get_ns ns g4
       = with_scopes
           (<[scope_len (get_ns ns g) :=
                mk_scope SCOPE_INITIALIZED [p]]> frames1)
           (scope_len (get_ns ns g)) maxd1
           (with_symbol_list (symbol_list (get_ns ns g) ++ [p])%list
              (get_ns ns g))
    /\ (exists s, heap g4 !! p = Some s /\ name s = nm).
Proof.
  intros Hv Hlive Hlen Hhl Hkeys Htmp Hga Hsc1 Hvis Hbelow Hscan Href.
  set (len := scope_len (get_ns ns g)) in *.
  assert (Hl1 : (len < length frames1)%nat) by (by eapply lookup_lt_Some).
  destruct (sym_add_create_visible ns nm ty kind link ga sc1 Hv)
    as (p & g2 & Hadd & Hp & Hold & Hwhere & _ & Hns & _ & _ & _ & _ & Hfind).
  { rewrite Hga. gsimpl. lia. }
  { rewrite Hga. gsimpl. by rewrite Nat.sub_succ, Nat.sub_0_r. }
  { by rewrite Hvis. }
  cbv zeta in *. rewrite Hga in Hp, Hns, Hfind. gsimpl.
  rewrite ?Nat.sub_succ, ?Nat.sub_0_r in Hp, Hns, Hfind.
  rewrite Htmp, Hhl in Hwhere.
  set (s := new_symbol nm ty kind link len (n_sym_add ga)) in *.
  assert (Hnot : forall d sc, (d < len)%nat ->
            scope_frames (get_ns ns g) !! d = Some sc ->
            ~ In p (visible_entries sc)).
  { intros d sc Hd Hsc Hin. destruct (Hlive d sc p Hd Hsc Hin) as [Hlt Hnp].
    destruct Hwhere as [Hw|Hw]; [done|lia]. }
  assert (Hrp : r <> Some p).
  { intros E. rewrite E in Hscan.
    apply scan_scopes_Some in Hscan as (d & sc & Hd & Hsc & Hpr & _); [|lia].
    rewrite probe_visible_entries in Hpr.
    apply hash_lookup_Some in Hpr as [Hin _]. by apply (Hnot d sc). }
  exists p, g2. eexists. eexists.
  split; [exact Hadd|]. split; [exact Hrp|]. split; [exact Hfind|].
  rewrite (parser_pop_scope_inner ns)
    by (nsimpl; rewrite Hns; gsimpl; lia).
  split; [reflexivity|]. nsimpl. rewrite Hns. gsimpl.
  assert (Htab : hash_insert (heap g2) [] p = [p]).
  { unfold hash_insert, sym_hash_key. by rewrite Hp. }
  rewrite Hvis, Htab.
  split; [|split; [by rewrite ?Nat.sub_succ, ?Nat.sub_0_r|]].
  2:{ exists (set_referenced true s). split; [|done].
      apply list_lookup_insert_eq. by eapply lookup_lt_Some. }
  rewrite sym_lookup_scan
    by (nsimpl; gsimpl; rewrite length_insert; lia).
  nsimpl. gsimpl. rewrite ?Nat.sub_succ, ?Nat.sub_0_r.
  match goal with
  | |- context [scan_scopes ?h ?f nm len] =>
      replace (scan_scopes h f nm len) with r
  end.
  2:{ rewrite <- Hscan. symmetry. apply scan_scopes_ext.
      - intros d Hd. rewrite list_lookup_insert_ne by lia. by apply Hbelow.
      - intros d sc e Hd Hsc Hin.
        assert (e <> p) by (intros ->; by apply (Hnot d sc)).
        unfold sym_hash_key. rewrite list_lookup_insert_ne by done.
        rewrite (Hold e) by done. apply Hkeys. }
  destruct r as [q|]; [|done].
  destruct (Href q eq_refl) as (x & Hx & Hr).
  assert (Hq : q <> p) by congruence.
  rewrite list_lookup_insert_ne by done. rewrite (Hold q Hq), Hx.
  rewrite (set_referenced_id _ Hr). f_equal.
  rewrite list_insert_id.
  - destruct ns, g2; reflexivity.
  - rewrite list_lookup_insert_ne by done. by rewrite (Hold q Hq).
Qed.

(** The run of a block with one declaration: the scope is pushed, the
    name declared and looked up, the scope popped. *)
Lemma block_run ns nm ty kind link g r g0 :
  sym_add_pre ns kind ->
  kind <> SYM_STRING_VALUE ->
  pool_valid g ->
  scopes_live ns (scope_len (get_ns ns g)) g ->
  (0 < scope_len (get_ns ns g) <= max_scope_depth (get_ns ns g))%nat ->
  (max_scope_depth (get_ns ns g) <= length (scope_frames (get_ns ns g)))%nat ->
  sym_lookup ns nm g = Return r g0 ->
  match r with
  | Some q =>
      exists sq,
        heap g !! q = Some sq
        /\ (depth sq < scope_len (get_ns ns g))%nat
        /\ extern_completion kind link sq = false
  | None =>
      is_function ty = true ->
      ns = ns_ident /\ exists g', sym_lookup_function nm g = Return None g'
  end ->
  exists p g1 g2 g3 g4 frames1 maxd1,
    push_scope ns g = Return tt g1
    /\ sym_add ns nm ty kind link g1 = Return p g2
    /\ r <> Some p
    /\ sym_lookup ns nm g2 = Return (Some p) g3
    /\ pop_scope ns g3 = Return tt g4
    /\ sym_lookup ns nm g4 = Return r g4
    /\ get_ns ns g4
       = with_scopes
           (<[scope_len (get_ns ns g) :=
                mk_scope SCOPE_INITIALIZED [p]]> frames1)
           (scope_len (get_ns ns g)) maxd1
           (with_symbol_list (symbol_list (get_ns ns g) ++ [p])%list
              (get_ns ns g))
    /\ (scope_len (get_ns ns g) < maxd1 <= length frames1)%nat
    /\ (exists s, heap g4 !! p = Some s /\ name s = nm).
Proof.
  intros Hpre Hk Hv Hlive Hlen Hmax Hlook Hr.
  assert (Hfit : (scope_len (get_ns ns g)
                  <= length (scope_frames (get_ns ns g)))%nat
                 /\ scan_scopes (heap g) (scope_frames (get_ns ns g)) nm
                      (scope_len (get_ns ns g)) = r).
  { destruct r as [q|].
    - destruct (sym_lookup_Some_inv _ _ _ _ _ Hlook)
        as (_ & _ & _ & _ & Hs & Hf). split; [lia|done].
    - destruct (sym_lookup_None_inv _ _ _ _ Hlook) as (_ & Hs & Hf). done. }
  destruct Hfit as [Hfit Hscan].
  destruct (push_scope_opens ns g ltac:(lia))
    as (frames1 & maxd1 & sc1 & Hpush & Hsc1 & Hvis & Hbelow & Hmax1).
  set (g1 := set_ns ns _ g) in Hpush.
  assert (Hl1 : (scope_len (get_ns ns g) < length frames1)%nat)
    by (by eapply lookup_lt_Some).
  assert (Hns1 : get_ns ns g1
                 = with_scopes frames1 (S (scope_len (get_ns ns g))) maxd1
                     (get_ns ns g)) by apply get_set_ns.
  assert (Hh1 : heap g1 = heap g) by apply heap_set_ns.
  assert (Ht1 : temporaries g1 = temporaries g) by apply temporaries_set_ns.
  assert (Hlook1 :
    sym_lookup ns nm g1
    = match r with
      | Some q =>
          match heap g !! q with
          | Some x =>
              Return (Some q)
                (with_heap (<[q := set_referenced true x]> (heap g)) g1)
          | None => Fault Invalid_access
          end
      | None => Return None g1
      end).
  { rewrite sym_lookup_scan by (rewrite Hns1; gsimpl; lia).
    rewrite Hns1, Hh1. gsimpl.
    rewrite (scan_scopes_step _ _ _ _ _ Hsc1), probe_visible_entries, Hvis.
    cbn [hash_lookup List.find].
    rewrite (scan_scopes_ext (heap g) (heap g) (scope_frames (get_ns ns g))
               frames1) by done.
    by rewrite Hscan. }
  destruct r as [q|].
  - (* a visible symbol is shadowed *)
    destruct Hr as (sq & Hsq & Hd & Hext). rewrite Hsq in Hlook1.
    set (ga := with_heap (<[q := set_referenced true sq]> (heap g)) g1) in *.
    assert (Hlt : (q < length (heap g))%nat) by (by eapply lookup_lt_Some).
    assert (Hq : heap ga !! q = Some (set_referenced true sq))
      by (by apply list_lookup_insert_eq).
    assert (Hnsa : get_ns ns ga
                   = with_scopes frames1 (S (scope_len (get_ns ns g))) maxd1
                       (get_ns ns g))
      by (unfold ga; by rewrite get_ns_with_heap).
    destruct (block_of_one_declaration ns nm ty kind link g ga frames1 maxd1
                sc1 (Some q))
      as (p & g2 & g3 & g4 & H1 & H2 & H3 & H4 & H5 & H6 & H7);
      [ | exact Hlive | lia | | | exact Ht1 | exact Hnsa | exact Hsc1
        | exact Hvis | exact Hbelow | exact Hscan | |].
    + unfold pool_valid, ga. gsimpl. rewrite length_insert. by rewrite Ht1.
    + unfold ga. gsimpl. by rewrite length_insert.
    + intros e. unfold ga, sym_hash_key. gsimpl.
      destruct (decide (e = q)) as [->|Hne].
      * rewrite list_lookup_insert_eq by done. by rewrite Hsq.
      * by rewrite list_lookup_insert_ne.
    + intros q' [= <-]. eexists. split; [exact Hq|done].
    + exists p, g1, g2, g3, g4, frames1, maxd1. split; [exact Hpush|].
      split; [|repeat split; first [done | lia]].
      rewrite sym_add_eq by done.
      rewrite (bind_Return _ _ _ _ _
                 (sym_add_resolve_found _ _ ty _ _ _ _ Hk Hlook1)).
      rewrite (sym_add_merge_shadows _ _ _ _ _ _ _ _ Hq); [exact H1|..].
      * rewrite Hnsa. gsimpl. lia.
      * rewrite Hnsa. gsimpl. cbn [depth set_referenced]. lia.
      * exact Hext.
  - (* the name is new *)
    set (ga := function_table_ready ty g1).
    assert (Hga : heap ga = heap g /\ temporaries ga = temporaries g
                  /\ get_ns ns ga = get_ns ns g1).
    { destruct (function_table_ready_same ty g1) as (E1 & E2 & _ & _ & E3).
      unfold ga. rewrite E1, E2, E3. by rewrite Hh1, Ht1. }
    destruct Hga as (Hha & Hta & Hnsa).
    destruct (block_of_one_declaration ns nm ty kind link g ga frames1 maxd1
                sc1 None)
      as (p & g2 & g3 & g4 & H1 & H2 & H3 & H4 & H5 & H6 & H7);
      [ | exact Hlive | lia | by rewrite Hha | by rewrite Hha | exact Hta
        | by rewrite Hnsa | exact Hsc1 | exact Hvis | exact Hbelow
        | exact Hscan | done |].
    + unfold pool_valid. by rewrite Hta, Hha.
    + exists p, g1, g2, g3, g4, frames1, maxd1. split; [exact Hpush|].
      split; [|repeat split; first [done | lia]].
      rewrite (sym_add_new_name ns nm ty kind link g1); [exact H1|done..|].
      intros Ef. destruct (Hr Ef) as (-> & g' & Hf). split; [done|].
      rewrite sym_lookup_function_eq in Hf. injection Hf as Hf _.
      rewrite sym_lookup_function_eq. eexists.
      replace (functions_init g1) with (functions_init g) by done.
      replace (functions g1) with (functions g) by done.
      rewrite Hh1. by rewrite Hf.
Qed.

(** A declaration made in a block of its own ends with the block.
    With a scope open, a new scope is pushed, the name is declared in
    it, and the scope is popped.  The declaration gets a symbol of its
    own, which the lookup gives while the block is open; after the
    block the lookup gives what it gave before it, the symbol that was
    shadowed or nothing, and the symbol of the block stays in the list
    of the namespace.  The conditions on the declaration are those
    under which [sym_add] creates a symbol: a visible symbol is not one
    that an [extern] declaration completes, and for a function type a
    name that is not visible is not in the function table either. *)
Theorem declaration_ends_with_its_block ns nm ty kind link g r g0 :
  sym_add_pre ns kind ->
  kind <> SYM_STRING_VALUE ->
  pool_valid g ->
  scopes_live ns (scope_len (get_ns ns g)) g ->
  (0 < scope_len (get_ns ns g) <= max_scope_depth (get_ns ns g))%nat ->
  (max_scope_depth (get_ns ns g) <= length (scope_frames (get_ns ns g)))%nat ->
  sym_lookup ns nm g = Return r g0 ->
  match r with
  | Some q =>
      exists sq,
        heap g !! q = Some sq
        /\ (depth sq < scope_len (get_ns ns g))%nat
        /\ extern_completion kind link sq = false
  | None =>
      is_function ty = true ->
      ns = ns_ident /\ exists g', sym_lookup_function nm g = Return None g'
  end ->
  exists p g1 g2 g3 g4,
    push_scope ns g = Return tt g1
    /\ sym_add ns nm ty kind link g1 = Return p g2
    /\ r <> Some p
    /\ sym_lookup ns nm g2 = Return (Some p) g3
    /\ pop_scope ns g3 = Return tt g4
    /\ sym_lookup ns nm g4 = Return r g4
    /\ symbol_list (get_ns ns g4) = (symbol_list (get_ns ns g) ++ [p])%list.
Proof.
  intros Hpre Hk Hv Hlive Hlen Hmax Hlook Hr.
  destruct (block_run ns nm ty kind link g r g0 Hpre Hk Hv Hlive Hlen Hmax
              Hlook Hr)
    as (p & g1 & g2 & g3 & g4 & frames1 & maxd1 & H1 & H2 & H3 & H4 & H5 & H6
        & H7 & _).
  exists p, g1, g2, g3, g4. repeat split; try done. by rewrite H7.
Qed.

(** [int x;] at file scope. *)
Definition file_scope_x : global :=
  after (sym_add ns_ident "x" T_INT SYM_TENTATIVE LINK_EXTERN) file_scope.

Lemma declaration_ends_with_its_block_witness :
  exists p g1 g2 g3 g4,
    push_scope ns_ident file_scope_x = Return tt g1
    /\ sym_add ns_ident "x" T_CHAR SYM_DEFINITION LINK_NONE g1 = Return p g2
    /\ Some 0%nat <> Some p
    /\ sym_lookup ns_ident "x" g2 = Return (Some p) g3
    /\ pop_scope ns_ident g3 = Return tt g4
    /\ sym_lookup ns_ident "x" g4 = Return (Some 0%nat) g4
    /\ symbol_list (idents g4) = [0%nat; p].
Proof.
  refine (declaration_ends_with_its_block ns_ident "x" T_CHAR SYM_DEFINITION
            LINK_NONE file_scope_x (Some 0%nat)
            (after (sym_lookup ns_ident "x") file_scope_x) _ _ _ _ _ _ _ _).
  - split; discriminate.
  - discriminate.
  - constructor.
  - intros d sc q Hd Hsc Hin.
    assert (d = 0%nat) as -> by (vm_compute in Hd; lia).
    vm_compute in Hsc. injection Hsc as <-.
    destruct Hin as [<-|[]]. split; [vm_compute; lia|]. intros [].
  - vm_compute. lia.
  - vm_compute. lia.
  - reflexivity.
  - eexists. split; [reflexivity|]. split; [vm_compute; lia|reflexivity].
Defined.

(** [push_scope] on a frame that an earlier block has left: the frame
    is taken again, and marked dirty when it has a table. *)
Lemma push_scope_reuses ns g sc :
  (scope_len (get_ns ns g) < max_scope_depth (get_ns ns g))%nat ->
  scope_frames (get_ns ns g) !! scope_len (get_ns ns g) = Some sc ->
  push_scope ns g
  = Return tt
      (set_ns ns
         (with_scopes
            (<[scope_len (get_ns ns g) :=
                 match state sc with
                 | SCOPE_INITIALIZED => mk_scope SCOPE_DIRTY (table sc)
                 | _ => sc
                 end]> (scope_frames (get_ns ns g)))
            (S (scope_len (get_ns ns g))) (max_scope_depth (get_ns ns g))
            (get_ns ns g)) g).
Proof.
  intros Hlt Hsc. unfold push_scope, bind, gets.
  destruct (Nat.ltb_spec (scope_len (get_ns ns g))
              (max_scope_depth (get_ns ns g))); [|lia].
  unfold c_assert.
  destruct (Nat.ltb_spec (scope_len (get_ns ns g))
              (length (scope_frames (get_ns ns g)))) as [_|Hge].
  - by rewrite Hsc.
  - apply lookup_lt_Some in Hsc. lia.
Qed.

(** Two blocks that follow each other do not see each other's
    declarations.  After a block that declares a name, the next
    [push_scope] takes the frame of that block again; the table of the
    frame still holds the symbol of the first block, under its name,
    but the frame is marked dirty and the lookup passes over it: in the
    second block the name resolves to what it resolved to before the
    first one. *)
Theorem sibling_blocks_are_isolated ns nm ty kind link g r g0 :
  sym_add_pre ns kind ->
  kind <> SYM_STRING_VALUE ->
  pool_valid g ->
  scopes_live ns (scope_len (get_ns ns g)) g ->
  (0 < scope_len (get_ns ns g) <= max_scope_depth (get_ns ns g))%nat ->
  (max_scope_depth (get_ns ns g) <= length (scope_frames (get_ns ns g)))%nat ->
  sym_lookup ns nm g = Return r g0 ->
  match r with
  | Some q =>
      exists sq,
        heap g !! q = Some sq
        /\ (depth sq < scope_len (get_ns ns g))%nat
        /\ extern_completion kind link sq = false
  | None =>
      is_function ty = true ->
      ns = ns_ident /\ exists g', sym_lookup_function nm g = Return None g'
  end ->
  exists p g1 g2 g3 g4 g5,
    push_scope ns g = Return tt g1
    /\ sym_add ns nm ty kind link g1 = Return p g2
    /\ sym_lookup ns nm g2 = Return (Some p) g3
    /\ pop_scope ns g3 = Return tt g4
    /\ push_scope ns g4 = Return tt g5
    /\ scope_frames (get_ns ns g5) !! scope_len (get_ns ns g)
       = Some (mk_scope SCOPE_DIRTY [p])
    /\ (exists s, heap g5 !! p = Some s /\ name s = nm)
    /\ r <> Some p
    /\ sym_lookup ns nm g5 = Return r g5.
Proof.
  intros Hpre Hk Hv Hlive Hlen Hmax Hlook Hr.
  destruct (block_run ns nm ty kind link g r g0 Hpre Hk Hv Hlive Hlen Hmax
              Hlook Hr)
    as (p & g1 & g2 & g3 & g4 & frames1 & maxd1 & H1 & H2 & H3 & H4 & H5 & H6
        & H7 & H8 & H9).
  set (len := scope_len (get_ns ns g)) in *.
  set (frames4 := <[len := mk_scope SCOPE_INITIALIZED [p]]> frames1) in *.
  assert (Hl4 : scope_len (get_ns ns g4) = len) by (by rewrite H7).
  assert (Hf4 : scope_frames (get_ns ns g4) = frames4) by (by rewrite H7).
  assert (Hm4 : max_scope_depth (get_ns ns g4) = maxd1) by (by rewrite H7).
  assert (Htop : frames4 !! len = Some (mk_scope SCOPE_INITIALIZED [p]))
    by (apply list_lookup_insert_eq; lia).
  pose proof (push_scope_reuses ns g4 (mk_scope SCOPE_INITIALIZED [p]))
    as Hpush.
  rewrite Hl4, Hf4, Hm4 in Hpush. specialize (Hpush ltac:(lia) Htop).
  cbn [state table] in Hpush.
  set (frames5 := <[len := mk_scope SCOPE_DIRTY [p]]> frames4) in *.
  set (g5 := set_ns ns _ g4) in Hpush.
  assert (Hns5 : get_ns ns g5
                 = with_scopes frames5 (S len) maxd1 (get_ns ns g4))
    by apply get_set_ns.
  assert (Hh5 : heap g5 = heap g4) by apply heap_set_ns.
  assert (Hl5 : length frames5 = length frames1)
    by (unfold frames5, frames4; by rewrite !length_insert).
  assert (Ht5 : frames5 !! len = Some (mk_scope SCOPE_DIRTY [p])).
  { apply list_lookup_insert_eq. unfold frames4. rewrite length_insert. lia. }
  exists p, g1, g2, g3, g4, g5.
  do 5 (split; [done|]).
  split; [by rewrite Hns5|]. split; [by rewrite Hh5|]. split; [done|].
  (* the lookup in the second block *)
  assert (Hscan : scan_scopes (heap g4) frames4 nm len = r
                  /\ (len <= length frames4)%nat).
  { rewrite <- Hl4, <- Hf4. destruct r as [q|].
    - destruct (sym_lookup_Some_inv _ _ _ _ _ H6)
        as (_ & _ & _ & _ & Hs & Hf). split; [done|lia].
    - by destruct (sym_lookup_None_inv _ _ _ _ H6) as (_ & Hs & Hf). }
  destruct Hscan as [Hscan Hfit].
  rewrite sym_lookup_scan by (rewrite Hns5; gsimpl; lia).
  rewrite Hns5, Hh5. gsimpl.
  rewrite (scan_scopes_step _ _ _ _ _ Ht5). unfold probe. cbn [state].
  rewrite (scan_scopes_ext (heap g4) (heap g4) frames4 frames5); [|..|done].
  2:{ intros d Hd. unfold frames5. apply list_lookup_insert_ne. lia. }
  rewrite Hscan. destruct r as [q|]; [|done].
  destruct (sym_lookup_Some_inv _ _ _ _ _ H6) as (x & Hx & _ & Hg4 & _).
  rewrite Hx. f_equal. apply (f_equal heap) in Hg4. gsimpl.
  rewrite <- Hg4, <- Hh5. apply with_heap_id.
Qed.

Lemma sibling_blocks_are_isolated_witness :
  exists p g1 g2 g3 g4 g5,
    push_scope ns_ident file_scope_x = Return tt g1
    /\ sym_add ns_ident "x" T_CHAR SYM_DEFINITION LINK_NONE g1 = Return p g2
    /\ sym_lookup ns_ident "x" g2 = Return (Some p) g3
    /\ pop_scope ns_ident g3 = Return tt g4
    /\ push_scope ns_ident g4 = Return tt g5
    /\ scope_frames (idents g5) !! 1%nat = Some (mk_scope SCOPE_DIRTY [p])
    /\ (exists s, heap g5 !! p = Some s /\ name s = "x")
    /\ Some 0%nat <> Some p
    /\ sym_lookup ns_ident "x" g5 = Return (Some 0%nat) g5.
Proof.
  refine (sibling_blocks_are_isolated ns_ident "x" T_CHAR SYM_DEFINITION
            LINK_NONE file_scope_x (Some 0%nat)
            (after (sym_lookup ns_ident "x") file_scope_x) _ _ _ _ _ _ _ _).
  - split; discriminate.
  - discriminate.
  - constructor.
  - intros d sc q Hd Hsc Hin.
    assert (d = 0%nat) as -> by (vm_compute in Hd; lia).
    vm_compute in Hsc. injection Hsc as <-.
    destruct Hin as [<-|[]]. split; [vm_compute; lia|]. intros [].
  - vm_compute. lia.
  - vm_compute. lia.
  - reflexivity.
  - eexists. split; [reflexivity|]. split; [vm_compute; lia|reflexivity].
Defined.

(** *** Block scope in the older implementation *)

(** A scan that stays inside the symbol list gives the same result on
    a longer list. *)
Lemma legacy_scan_scope_app symbols ext nm ids res :
  Legacy.scan_scope symbols nm ids = Some res ->
  Legacy.scan_scope (symbols ++ ext) nm ids = Some res.
Proof.
  induction ids as [|j ids IH]; [done|]. cbn [Legacy.scan_scope].
  destruct (symbols !! j) as [s|] eqn:E; [|done].
  rewrite (lookup_app_l_Some _ _ _ _ E).
  by destruct (nm =? Legacy.name s)%string.
Qed.

Lemma legacy_scan_scopes_app symbols ext frames nm k res :
  Legacy.scan_scopes symbols frames nm k = Some res ->
  Legacy.scan_scopes (symbols ++ ext) frames nm k = Some res.
Proof.
  induction k as [|d IH]; [done|]. cbn [Legacy.scan_scopes].
  destruct (frames !! d) as [sc|]; [|done].
  destruct (Legacy.scan_scope symbols nm (Legacy.idx sc)) as [[i|]|] eqn:E;
    [| |done].
  - by rewrite (legacy_scan_scope_app _ ext _ _ _ E).
  - rewrite (legacy_scan_scope_app _ ext _ _ _ E). exact IH.
Qed.

Lemma legacy_scan_scopes_ext symbols frames frames' nm k :
  (forall d, (d < k)%nat -> frames' !! d = frames !! d) ->
  Legacy.scan_scopes symbols frames' nm k
  = Legacy.scan_scopes symbols frames nm k.
Proof.
  induction k as [|d IH]; intros H; [done|]. cbn [Legacy.scan_scopes].
  rewrite (H d) by lia. rewrite IH by (intros; apply H; lia). done.
Qed.

Lemma legacy_scan_scopes_Some_lt symbols frames nm k i :
  Legacy.scan_scopes symbols frames nm k = Some (Some i) ->
  (i < length symbols)%nat.
Proof.
  induction k as [|d IH]; [done|]. cbn [Legacy.scan_scopes].
  destruct (frames !! d) as [sc|]; [|done].
  destruct (Legacy.scan_scope symbols nm (Legacy.idx sc)) as [[j|]|] eqn:E;
    [| |done].
  - intros [= ->]. clear IH. revert E.
    induction (Legacy.idx sc) as [|a ids IH]; [done|].
    cbn [Legacy.scan_scope]. destruct (symbols !! a) as [s|] eqn:Ea; [|done].
    destruct (nm =? Legacy.name s)%string; [|exact IH].
    intros [= <-]. by eapply lookup_lt_Some.
  - exact IH.
Qed.

(** A visible symbol of another depth, that the declaration does not
    complete, is shadowed. *)
Lemma legacy_sym_add_merge_shadows ns arg l i s :
  Legacy.symbol_list (Legacy.get_ns ns l) !! i = Some s ->
  Legacy.depth s <> Legacy.current_depth (Legacy.get_ns ns l) ->
  legacy_extern_completion arg s = false ->
  Legacy.sym_add_merge ns arg i l = Legacy.sym_add_create ns arg l.
Proof.
  intros Hs Hd Hext. unfold Legacy.sym_add_merge.
  rewrite (legacy_bind_Return _ _ _ _ _ (legacy_load_Some _ _ _ _ Hs)).
  unfold legacy_extern_completion in Hext. rewrite Hext.
  unfold Legacy.bind at 1, Legacy.gets.
  by destruct (Z.eqb_spec (Legacy.depth s)
                 (Legacy.current_depth (Legacy.get_ns ns l))).
Qed.

(** A declaration made in a block of its own ends with the block, in
    [src/symtab.c] as well.  With a scope open, a new scope is pushed,
    the name is declared in it, and the scope is popped.  The
    declaration gets a symbol of its own at the end of the list, which
    the lookup gives while the block is open; after the block the
    lookup gives what it gave before it, and the symbol of the block
    stays in the list.  A visible symbol must not be one that an
    [extern] declaration completes, and its recorded depth must not be
    beyond the current one. *)
Theorem legacy_declaration_ends_with_its_block ns arg l frames r :
  Legacy.scope_frames (Legacy.get_ns ns l) = Some frames ->
  0 <= Legacy.current_depth (Legacy.get_ns ns l) ->
  (Z.to_nat (Legacy.current_depth (Legacy.get_ns ns l)) < length frames)%nat ->
  Legacy.sym_lookup ns (Legacy.name arg) l = Legacy.Return r l ->
  match r with
  | Some q =>
      exists sq,
        Legacy.symbol_list (Legacy.get_ns ns l) !! q = Some sq
        /\ Legacy.depth sq <= Legacy.current_depth (Legacy.get_ns ns l)
        /\ legacy_extern_completion arg sq = false
  | None => True
  end ->
  exists l1 l2 l3,
    let i := length (Legacy.symbol_list (Legacy.get_ns ns l)) in
    Legacy.push_scope ns l = Legacy.Return tt l1
    /\ Legacy.sym_add ns arg l1 = Legacy.Return i l2
    /\ r <> Some i
    /\ Legacy.sym_lookup ns (Legacy.name arg) l2 = Legacy.Return (Some i) l2
    /\ Legacy.pop_scope ns l2 = Legacy.Return tt l3
    /\ Legacy.sym_lookup ns (Legacy.name arg) l3 = Legacy.Return r l3
    /\ Legacy.symbol_list (Legacy.get_ns ns l3)
       = (Legacy.symbol_list (Legacy.get_ns ns l)
          ++ [legacy_new_symbol arg
                (Legacy.current_depth (Legacy.get_ns ns l) + 1)
                (Legacy.svc l)])%list
    /\ Legacy.current_depth (Legacy.get_ns ns l3)
       = Legacy.current_depth (Legacy.get_ns ns l).
Proof.
  intros Hf Hd Hlen Hlook Hr.
  set (symbols := Legacy.symbol_list (Legacy.get_ns ns l)) in *.
  set (depth := Legacy.current_depth (Legacy.get_ns ns l)) in *.
  set (n := Z.to_nat depth) in *.
  assert (Hn1 : Z.to_nat (depth + 1) = S n) by (unfold n; lia).
  (* the lookup before the block *)
  assert (Hscan : Legacy.scan_scopes symbols frames (Legacy.name arg) (S n)
                  = Some r).
  { rewrite (legacy_sym_lookup_eq _ _ _ _ Hf Hd) in Hlook.
    fold symbols depth n in Hlook.
    destruct (Legacy.scan_scopes symbols frames _ (S n)); [|done].
    by injection Hlook as ->. }
  assert (Hri : r <> Some (length symbols)).
  { intros ->. apply legacy_scan_scopes_Some_lt in Hscan. lia. }
  (* the block is opened *)
  set (frames1 := (take (S n) frames ++ [Legacy.mk_scope []])%list).
  set (l1 := Legacy.set_ns ns
               {| Legacy.symbol_list := symbols;
                  Legacy.scope_frames := Some frames1;
                  Legacy.current_depth := depth + 1 |} l).
  assert (Hpush : Legacy.push_scope ns l = Legacy.Return tt l1).
  { unfold Legacy.push_scope, Legacy.update_ns, Legacy.modify.
    rewrite Hf. cbn [default]. fold depth. by rewrite Hn1. }
  assert (Hk : length (take (S n) frames) = S n)
    by (rewrite length_take; lia).
  assert (Hbelow : forall d, (d < S n)%nat -> frames1 !! d = frames !! d).
  { intros d Hlt. unfold frames1. rewrite lookup_app_l by lia.
    by apply lookup_take_lt. }
  assert (Htop : frames1 !! S n = Some (Legacy.mk_scope [])).
  { unfold frames1. rewrite lookup_app_r by lia.
    by rewrite Hk, Nat.sub_diag. }
  assert (Hns1 : Legacy.get_ns ns l1
                 = {| Legacy.symbol_list := symbols;
                      Legacy.scope_frames := Some frames1;
                      Legacy.current_depth := depth + 1 |})
    by apply legacy_get_set_ns.
  assert (Hlook1 : Legacy.sym_lookup ns (Legacy.name arg) l1
                   = Legacy.Return r l1).
  { rewrite (legacy_sym_lookup_eq ns l1 frames1) by (rewrite Hns1; cbn [Legacy.current_depth Legacy.scope_frames]; first [done | lia]).
    rewrite Hns1. cbn [Legacy.symbol_list Legacy.current_depth].
    rewrite Hn1. cbn [Legacy.scan_scopes]. rewrite Htop.
    cbn [Legacy.idx Legacy.scan_scope].
    change (match frames1 !! n with
            | Some sc =>
                match Legacy.scan_scope symbols (Legacy.name arg)
                        (Legacy.idx sc) with
                | Some (Some i) => Some (Some i)
                | Some None =>
                    Legacy.scan_scopes symbols frames1 (Legacy.name arg) n
                | None => None
                end
            | None => None
            end)
      with (Legacy.scan_scopes symbols frames1 (Legacy.name arg) (S n)).
    rewrite (legacy_scan_scopes_ext _ frames frames1) by exact Hbelow.
    by rewrite Hscan. }
  (* the declaration *)
  assert (Hcreate :
    Legacy.sym_add ns arg l1 = Legacy.sym_add_create ns arg l1).
  { unfold Legacy.sym_add. rewrite (legacy_bind_Return _ _ _ _ _ Hlook1).
    destruct r as [q|]; [|done].
    destruct Hr as (sq & Hsq & Hdq & Hext).
    apply (legacy_sym_add_merge_shadows _ _ _ _ sq); [|..|exact Hext].
    - by rewrite Hns1.
    - rewrite Hns1. cbn [Legacy.current_depth]. lia. }
  rewrite (legacy_sym_add_create_eq ns arg l1 frames1 (Legacy.mk_scope []))
    in Hcreate;
    [ | by rewrite Hns1
      | rewrite Hns1; cbn [Legacy.current_depth]; lia
      | rewrite Hns1; cbn [Legacy.current_depth]; by rewrite Hn1 ].
  rewrite Hns1 in Hcreate.
  cbn [Legacy.symbol_list Legacy.current_depth Legacy.idx app] in Hcreate.
  rewrite Hn1 in Hcreate.
  set (x := legacy_new_symbol arg (depth + 1) (Legacy.svc l1)) in *.
  set (frames2 := <[S n := Legacy.mk_scope [length symbols]]> frames1) in *.
  set (l2 := Legacy.set_ns ns _ _) in Hcreate.
  assert (Hns2 : Legacy.get_ns ns l2
                 = {| Legacy.symbol_list := (symbols ++ [x])%list;
                      Legacy.scope_frames := Some frames2;
                      Legacy.current_depth := depth + 1 |})
    by apply legacy_get_set_ns.
  assert (Hl2 : (S n < length frames2)%nat).
  { unfold frames2. rewrite length_insert. by eapply lookup_lt_Some. }
  assert (Hx : Legacy.name x = Legacy.name arg).
  { unfold x, legacy_new_symbol. by destruct (linkage_eqb _ _ && _). }
  exists l1, l2. eexists. cbv zeta.
  split; [exact Hpush|]. split; [exact Hcreate|]. split; [exact Hri|].
  split.
  { rewrite (legacy_sym_lookup_eq ns l2 frames2) by (rewrite Hns2; cbn [Legacy.current_depth Legacy.scope_frames]; first [done | lia]).
    rewrite Hns2. cbn [Legacy.symbol_list Legacy.current_depth].
    rewrite Hn1. cbn [Legacy.scan_scopes]. unfold frames2 at 1.
    rewrite list_lookup_insert_eq by (by eapply lookup_lt_Some).
    cbn [Legacy.idx].
    pose proof (legacy_scan_scope_snoc symbols x (Legacy.name arg) []
                  eq_refl Hx) as Hs.
    cbn [app] in Hs. by rewrite Hs. }
  rewrite (legacy_pop_scope_inner ns l2 frames2)
    by (rewrite Hns2; cbn [Legacy.current_depth Legacy.scope_frames]; first [done | lia]).
  split; [reflexivity|].
  rewrite !legacy_get_set_ns, Hns2.
  cbn [Legacy.symbol_list Legacy.current_depth].
  split; [|split; [|lia]].
  - erewrite legacy_sym_lookup_eq;
      [|rewrite legacy_get_set_ns; reflexivity
       |rewrite legacy_get_set_ns; cbn [Legacy.current_depth]; lia].
    rewrite legacy_get_set_ns.
    cbn [Legacy.symbol_list Legacy.current_depth].
    replace (Z.to_nat (depth + 1 - 1)) with n by lia.
    rewrite (legacy_scan_scopes_ext (symbols ++ [x]) frames).
    + by rewrite (legacy_scan_scopes_app _ _ _ _ _ _ Hscan).
    + intros d Hlt. rewrite Hn1. unfold frames2.
      rewrite !list_lookup_insert_ne by lia. by apply Hbelow.
  - unfold x, l1. by destruct ns.
Qed.

(** [int x;] at file scope, in the older implementation. *)
Definition legacy_file_scope_x : Legacy.global :=
  Legacy.after
    (Legacy.sym_add ns_ident (legacy_decl "x" T_INT SYM_TENTATIVE LINK_EXTERN))
    legacy_file_scope.

Lemma legacy_declaration_ends_with_its_block_witness :
  exists l1 l2 l3,
    Legacy.push_scope ns_ident legacy_file_scope_x = Legacy.Return tt l1
    /\ Legacy.sym_add ns_ident (legacy_decl "x" T_CHAR SYM_DEFINITION LINK_NONE)
         l1 = Legacy.Return 1%nat l2
    /\ Legacy.sym_lookup ns_ident "x" l2 = Legacy.Return (Some 1%nat) l2
    /\ Legacy.pop_scope ns_ident l2 = Legacy.Return tt l3
    /\ Legacy.sym_lookup ns_ident "x" l3 = Legacy.Return (Some 0%nat) l3.
Proof.
  destruct (legacy_declaration_ends_with_its_block ns_ident
              (legacy_decl "x" T_CHAR SYM_DEFINITION LINK_NONE)
              legacy_file_scope_x [Legacy.mk_scope [0%nat]] (Some 0%nat))
    as (l1 & l2 & l3 & H1 & H2 & _ & H3 & H4 & H5 & _).
  - reflexivity.
  - vm_compute. discriminate.
  - vm_compute. lia.
  - reflexivity.
  - eexists. split; [reflexivity|]. split; [vm_compute; discriminate|].
    reflexivity.
  - by exists l1, l2, l3.
Defined.

(** ** The end of the identifiers *)

Lemma foreach_free l g :
  foreach l free g = Return tt (with_freed (freed g ++ l) g).
Proof.
  revert g. induction l as [|p l IH]; intros g.
  - cbn. rewrite app_nil_r. by destruct g.
  - cbn [foreach]. unfold bind, free at 1, modify. rewrite IH. gsimpl.
    by rewrite <- app_assoc.
Qed.

(** The loop of [pop_scope] over the symbols of a namespace other than
    that of the labels: every symbol is read and freed. *)
Lemma teardown_loop ns l g :
  ns <> ns_label ->
  Forall (fun p => (p < length (heap g))%nat) l ->
  foreach l (fun sym =>
    x <- load sym ;;
    when (ns_id_eqb ns ns_label && symtype_eqb (symtype x) SYM_TENTATIVE)
      (c <- sym_name sym ;;
       text <- gets (read_cstr c) ;;
       error (Undefined_label text)) ;;;
    free sym) g
  = Return tt (with_freed (freed g ++ l) g).
Proof.
  intros Hns. replace (ns_id_eqb ns ns_label) with false by (by destruct ns).
  revert g. induction l as [|p l IH]; intros g Hv.
  - cbn. rewrite app_nil_r. by destruct g.
  - inversion Hv as [|? ? Hp Hl]; subst.
    destruct (lookup_lt_is_Some_2 _ _ Hp) as [x Hx].
    cbn [foreach]. unfold bind at 1. unfold bind at 1.
    rewrite (load_Some _ _ _ Hx). cbn [andb when].
    unfold bind at 1, ret at 1, free at 1, modify.
    rewrite IH by done. gsimpl. by rewrite <- app_assoc.
Qed.

(** Popping the outermost scope of the identifiers releases
    everything: each symbol of the list is freed, in the order of the
    list, and then each record of the recycling pool; the list, the
    scopes and the pool are empty afterwards and the function table is
    destroyed, so that no name is visible any more.  Nothing is
    reported.  The cursor of [yield_declaration] is not reset. *)
Theorem pop_scope_releases_the_identifiers g :
  scope_len (idents g) = 1%nat ->
  (max_scope_depth (idents g) <= length (scope_frames (idents g)))%nat ->
  Forall (fun p => (p < length (heap g))%nat) (symbol_list (idents g)) ->
  exists g',
    pop_scope ns_ident g = Return tt g'
    /\ freed g' = (freed g ++ symbol_list (idents g) ++ temporaries g)%list
    /\ idents g'
       = {| symbol_list := []; scope_frames := []; scope_len := 0;
            max_scope_depth := 0; cursor := cursor (idents g) |}
    /\ temporaries g' = []
    /\ functions g' = []
    /\ diagnostics g' = diagnostics g
    /\ labels g' = labels g /\ tags g' = tags g
    /\ (forall nm, sym_lookup ns_ident nm g' = Return None g').
Proof.
  intros Hlen Hmax Hv. unfold pop_scope.
  unfold bind at 1, gets at 1. gsimpl.
  unfold bind at 1, c_assert. rewrite Hlen. cbn [Nat.ltb Nat.leb Nat.eqb ret].
  unfold bind at 1.
  destruct (Nat.leb_spec (max_scope_depth (idents g))
              (length (scope_frames (idents g)))) as [_|]; [|lia].
  unfold ret at 1. unfold bind at 1, update_ns at 1, modify at 1.
  unfold bind at 1.
  rewrite (teardown_loop ns_ident) by done.
  unfold bind, update_ns, modify, when, ret. cbn [ns_id_eqb].
  unfold sym_clear_buffers, bind, gets, modify. rewrite foreach_free.
  eexists. split; [reflexivity|]. gsimpl.
  rewrite <- app_assoc. by repeat split.
Qed.

Lemma pop_scope_releases_the_identifiers_witness :
  exists g',
    pop_scope ns_ident file_scope_x = Return tt g'
    /\ freed g' = [0%nat]
    /\ symbol_list (idents g') = []
    /\ sym_lookup ns_ident "x" g' = Return None g'.
Proof.
  destruct (pop_scope_releases_the_identifiers file_scope_x)
    as (g' & H1 & H2 & H3 & _ & _ & _ & _ & _ & H4).
  - reflexivity.
  - vm_compute. lia.
  - vm_compute. repeat constructor.
  - exists g'. split; [exact H1|]. split; [exact H2|].
    split; [by rewrite H3|apply H4].
Defined.

(** ** Declaring a name again at file scope *)

(** What the kind of a file-scope symbol becomes when the name is
    declared again with the same linkage, read off the branches of
    [sym_add]; [None] is the mismatch. *)
Definition merged_symtype (old new : symtype_t) : option symtype_t :=
  if (symtype_eqb old SYM_TENTATIVE && symtype_eqb new SYM_DEFINITION)
     || (symtype_eqb old SYM_DEFINITION && symtype_eqb new SYM_TENTATIVE)
  then Some SYM_DEFINITION
  else if symtype_eqb old SYM_DECLARATION && symtype_eqb new SYM_TENTATIVE
  then Some SYM_TENTATIVE
  else if symtype_eqb old SYM_DEFINITION && symtype_eqb new SYM_DECLARATION
  then Some SYM_DEFINITION
  else if symtype_eqb old new then Some old
  else None.

Lemma set_symtype_id s : set_symtype (symtype s) s = s.
Proof. by destruct s. Qed.

(** [sym_add] at file scope, on a name whose symbol is visible with
    the type that is declared. *)
Lemma sym_add_at_file_scope ns nm ty kind link g q g0 sq :
  sym_add_pre ns kind ->
  kind <> SYM_STRING_VALUE ->
  scope_len (get_ns ns g) = 1%nat ->
  sym_lookup ns nm g = Return (Some q) g0 ->
  heap g !! q = Some sq ->
  depth sq = 0%nat ->
  extern_completion kind link sq = false ->
  already_applied sq ty = true ->
  sym_add ns nm ty kind link g
  = match (if linkage_eqb (linkage sq) link
           then merged_symtype (symtype sq) kind else None) with
    | Some k =>
        Return q
          (with_heap
             (<[q := set_symtype k (set_referenced true sq)]> (heap g)) g)
    | None => Exit 1 (report (Does_not_match_prior nm) g0)
    end.
Proof.
  intros Hpre Hk Hlen Hlook Hsq Hd Hext Happ.
  destruct (sym_lookup_Some_inv _ _ _ _ _ Hlook) as (x & Hx & _ & Hg0 & _).
  assert (x = sq) as -> by congruence.
  assert (Hlt : (q < length (heap g))%nat) by (by eapply lookup_lt_Some).
  assert (Hq0 : heap g0 !! q = Some (set_referenced true sq)).
  { rewrite Hg0. by apply list_lookup_insert_eq. }
  assert (Hl0 : (0 < scope_len (get_ns ns g0))%nat).
  { rewrite Hg0, get_ns_with_heap. lia. }
  assert (Hty : apply_type q ty g0 = Return tt g0).
  { rewrite (apply_type_cases _ _ _ _ Hq0).
    replace (already_applied (set_referenced true sq) ty) with true. done. }
  assert (Hup : forall k,
            update q (set_symtype k) g0
            = Return tt
                (with_heap
                   (<[q := set_symtype k (set_referenced true sq)]> (heap g))
                   g)).
  { intros k. rewrite (update_Some _ _ _ _ Hq0). rewrite Hg0. gsimpl.
    by rewrite list_insert_insert_eq. }
  assert (Hte : type_equal (type sq) ty = true).
  { unfold already_applied in Happ. by apply andb_true_iff in Happ as [? _]. }
  rewrite sym_add_eq by done.
  rewrite (bind_Return _ _ _ _ _
             (sym_add_resolve_found _ _ ty _ _ _ _ Hk Hlook)).
  unfold sym_add_merge.
  rewrite (bind_Return _ _ _ _ _ (load_Some _ _ _ Hq0)).
  unfold extern_completion in Hext.
  cbn [symtype linkage depth type set_referenced]. rewrite Hext.
  rewrite (bind_Return _ _ _ _ _ (current_scope_depth_eq _ _ Hl0)).
  replace (scope_len (get_ns ns g0)) with 1%nat
    by (by rewrite Hg0, get_ns_with_heap).
  rewrite Hd. cbn [Nat.sub Nat.eqb andb].
  unfold merged_symtype.
  destruct (linkage_eqb (linkage sq) link) eqn:El; cbn [andb].
  - destruct (symtype sq) eqn:Es, kind;
      cbn [symtype_eqb andb orb negb];
      unfold bind, when, error, exit, modify;
      rewrite ?Hty, ?Hup, ?Hte; cbn [negb]; unfold ret;
      try reflexivity;
      (rewrite <- Es;
       change (symtype sq) with (symtype (set_referenced true sq));
       rewrite set_symtype_id; by rewrite Hg0).
  - destruct (symtype_eqb (symtype sq) kind); reflexivity.
Qed.


(** At file scope, declaring again a name whose symbol is visible,
    with a type the symbol already has, never adds a symbol.  With the
    same linkage and kinds that go together the symbol found is
    returned with the merged kind, marked as referenced: a tentative
    definition and a definition give a definition, a declaration
    followed by a tentative definition a tentative definition, and two
    declarations of one kind, two definitions among them, leave the
    symbol as it is, without an error.  With another linkage or kinds
    that do not go together the declaration is reported as not matching
    the prior one and the process exits with status 1.  The declarations
    that the [extern] rule completes are apart. *)
Theorem file_scope_redeclaration ns nm ty kind link g q g0 sq :
  sym_add_pre ns kind ->
  kind <> SYM_STRING_VALUE ->
  scope_len (get_ns ns g) = 1%nat ->
  sym_lookup ns nm g = Return (Some q) g0 ->
  heap g !! q = Some sq ->
  depth sq = 0%nat ->
  extern_completion kind link sq = false ->
  already_applied sq ty = true ->
  match (if linkage_eqb (linkage sq) link
         then merged_symtype (symtype sq) kind else None) with
  | Some k =>
      exists g' s',
        sym_add ns nm ty kind link g = Return q g'
        /\ heap g' !! q = Some s'
        /\ symtype s' = k /\ referenced s' = true
        /\ name s' = name sq /\ type s' = type sq
        /\ linkage s' = linkage sq /\ depth s' = depth sq /\ n s' = n sq
        /\ (forall p, p <> q -> heap g' !! p = heap g !! p)
        /\ (forall ns', get_ns ns' g' = get_ns ns' g)
        /\ diagnostics g' = diagnostics g
  | None =>
      exists g',
        sym_add ns nm ty kind link g = Exit 1 g'
        /\ diagnostics g' = (diagnostics g ++ [Does_not_match_prior nm])%list
  end.
Proof.
  intros Hpre Hk Hlen Hlook Hsq Hd Hext Happ.
  rewrite (sym_add_at_file_scope ns nm ty kind link g q g0 sq) by done.
  destruct (if linkage_eqb (linkage sq) link
            then merged_symtype (symtype sq) kind else None) as [k|].
  - eexists _, _. split; [reflexivity|]. gsimpl.
    split; [apply list_lookup_insert_eq; by eapply lookup_lt_Some|].
    do 7 (split; [reflexivity|]).
    split; [intros p Hp; by apply list_lookup_insert_ne|].
    split; [intros ns'; apply get_ns_with_heap|reflexivity].
  - eexists. split; [reflexivity|].
    destruct (sym_lookup_Some_inv _ _ _ _ _ Hlook) as (x & _ & _ & -> & _).
    reflexivity.
Qed.

Lemma file_scope_redeclaration_witness :
  exists g' s',
    sym_add ns_ident "x" T_INT SYM_DEFINITION LINK_EXTERN file_scope_x
    = Return 0%nat g'
    /\ heap g' !! 0%nat = Some s'
    /\ symtype s' = SYM_DEFINITION
    /\ symbol_list (idents g') = [0%nat].
Proof.
  destruct (file_scope_redeclaration ns_ident "x" T_INT SYM_DEFINITION
              LINK_EXTERN file_scope_x 0%nat
              (after (sym_lookup ns_ident "x") file_scope_x)
              (new_symbol "x" T_INT SYM_TENTATIVE LINK_EXTERN 0 0))
    as (g' & s' & H1 & H2 & H3 & _ & _ & _ & _ & _ & _ & _ & H4 & _);
    [split; discriminate | discriminate | reflexivity..|].
  exists g', s'. split; [exact H1|]. split; [exact H2|]. split; [exact H3|].
  exact (f_equal symbol_list (H4 ns_ident)).
Defined.

(** ** Telling the temporaries from the other generated symbols *)

Lemma is_temporary_eq p g s :
  heap g !! p = Some s ->
  is_temporary p g = Return (String.eqb PREFIX_TEMPORARY (name s)) g.
Proof.
  intros H. unfold is_temporary, bind, ret. by rewrite (load_Some _ _ _ H).
Qed.

(** Among the symbols that the five creators of generated symbols
    return, [is_temporary] holds of those of [sym_create_temporary]
    and of no other. *)
Theorem is_temporary_of_generated_symbols ty val str g :
  pool_valid g ->
  (0 < scope_len (idents g))%nat ->
  (exists p g', sym_create_temporary ty g = Return p g'
                /\ is_temporary p g' = Return true g')
  /\ (exists p g', sym_create_unnamed ty g = Return p g'
                   /\ is_temporary p g' = Return false g')
  /\ (exists p g', sym_create_label g = Return p g'
                   /\ is_temporary p g' = Return false g')
  /\ (exists p g', sym_create_constant ty val g = Return p g'
                   /\ is_temporary p g' = Return false g')
  /\ (exists p g', sym_create_string str g = Return p g'
                   /\ is_temporary p g' = Return false g').
Proof.
  intros Hv Hlen.
  destruct (alloc_sym_returns g Hv) as (p & g1 & Ha & Hz & _ & _ & Hg1).
  assert (Hlt : (p < length (heap g1))%nat) by (by eapply lookup_lt_Some).
  assert (Hl1 : (0 < scope_len (idents g1))%nat) by (by rewrite Hg1).
  repeat split; exists p; eexists.
  - split; [by apply sym_create_temporary_from|].
    erewrite is_temporary_eq by (gsimpl; by apply list_lookup_insert_eq).
    reflexivity.
  - split; [by apply sym_create_unnamed_from|].
    erewrite is_temporary_eq by (gsimpl; by apply list_lookup_insert_eq).
    reflexivity.
  - split; [by apply sym_create_label_from|].
    erewrite is_temporary_eq by (gsimpl; by apply list_lookup_insert_eq).
    reflexivity.
  - split; [by apply sym_create_constant_from|].
    erewrite is_temporary_eq by (gsimpl; by apply list_lookup_insert_eq).
    reflexivity.
  - split; [by apply sym_create_string_from|].
    erewrite is_temporary_eq by (gsimpl; by apply list_lookup_insert_eq).
    reflexivity.
Qed.

Lemma is_temporary_of_generated_symbols_witness :
  (exists p g', sym_create_temporary T_INT file_scope = Return p g'
                /\ is_temporary p g' = Return true g')
  /\ (exists p g', sym_create_string "hi" file_scope = Return p g'
                   /\ is_temporary p g' = Return false g').
Proof.
  destruct (is_temporary_of_generated_symbols T_INT 0 "hi" file_scope)
    as (H1 & _ & _ & _ & H5); [constructor | vm_compute; lia |].
  by split.
Defined.

(** ** What a declaration leaves alone *)

(** The fields of a symbol that say which symbol it is; the depth may
    only be lowered. *)
Definition kept (s s' : symbol) : Prop :=
  name s' = name s /\ n s' = n s /\ linkage s' = linkage s
  /\ (depth s' <= depth s)%nat.

(** From [g] to [g'] the records in use, other than those in [X], are
    kept, no record is given back to the pool, and the lists of the
    namespaces have only grown at the end. *)
Record stable_except (X : ptr -> Prop) (g g' : global) : Prop := {
  se_heap : forall q s,
    heap g !! q = Some s -> ~ In q (temporaries g) -> ~ X q ->
    exists s', heap g' !! q = Some s' /\ kept s s';
  se_pool : forall q, In q (temporaries g') -> In q (temporaries g);
  se_list : forall ns,
    symbol_list (get_ns ns g) `prefix_of` symbol_list (get_ns ns g');
}.

Definition steady {A} (X : ptr -> Prop) (m : M A) : Prop :=
  forall g,
    match m g with
    | Return _ g' => stable_except X g g'
    | Exit _ g' => stable_except X g g'
    | Fault _ => True
    end.

Lemma kept_refl s : kept s s.
Proof. by repeat split. Qed.

Lemma kept_trans s1 s2 s3 : kept s1 s2 -> kept s2 s3 -> kept s1 s3.
Proof.
  intros (? & ? & ? & ?) (? & ? & ? & ?). repeat split; try congruence. lia.
Qed.

Lemma stable_refl X g : stable_except X g g.
Proof. split; eauto using kept_refl. Qed.

Lemma stable_trans X g1 g2 g3 :
  stable_except X g1 g2 -> stable_except X g2 g3 -> stable_except X g1 g3.
Proof.
  intros [H1 P1 L1] [H2 P2 L2]. split.
  - intros q s Hs Hp Hx. destruct (H1 q s Hs Hp Hx) as (s2 & Hs2 & K1).
    destruct (H2 q s2 Hs2) as (s3 & Hs3 & K2); [by intros ?%P1|done|].
    exists s3. split; [done|]. by eapply kept_trans.
  - intros q Hq. by apply P1, P2.
  - intros ns. etrans; [apply L1|apply L2].
Qed.

Lemma steady_bind {A B} X (m : M A) (k : A -> M B) :
  steady X m -> (forall a, steady X (k a)) -> steady X (bind m k).
Proof.
  intros Hm Hk g. unfold bind. specialize (Hm g).
  destruct (m g) as [a g1|c g1|]; [|done..].
  specialize (Hk a g1).
  destruct (k a g1); [by eapply stable_trans..|done].
Qed.

Lemma steady_ret {A} X (a : A) : steady X (ret a).
Proof. intros g. apply stable_refl. Qed.

Lemma steady_gets {A} X (f : global -> A) : steady X (gets f).
Proof. intros g. apply stable_refl. Qed.

Lemma steady_c_assert X b : steady X (c_assert b).
Proof. intros g. destruct b; [apply stable_refl|done]. Qed.

Lemma steady_fail {A} X f : steady X (@fail A f).
Proof. by intros g. Qed.

Lemma steady_exit {A} X c : steady X (@exit A c).
Proof. intros g. apply stable_refl. Qed.

Lemma steady_when X b m : steady X m -> steady X (when b m).
Proof. intros H. destruct b; [done|apply steady_ret]. Qed.

Lemma steady_load X p : steady X (load p).
Proof.
  intros g. unfold load. destruct (heap g !! p); [apply stable_refl|done].
Qed.

(** A change of the globals outside the heap, the pool and the lists. *)
Lemma steady_modify X f :
  (forall g, heap (f g) = heap g /\ temporaries (f g) = temporaries g
             /\ forall ns, symbol_list (get_ns ns (f g))
                           = symbol_list (get_ns ns g)) ->
  steady X (modify f).
Proof.
  intros H g. destruct (H g) as (Hh & Ht & Hl). unfold modify. split.
  - intros q s Hs _ _. exists s. rewrite Hh. split; [done|apply kept_refl].
  - intros q. by rewrite Ht.
  - intros ns. by rewrite Hl.
Qed.

Lemma steady_error X d : steady X (error d).
Proof.
  apply steady_modify. intros g. split; [done|]. split; [done|]. by intros [].
Qed.

Lemma steady_update_ns X ns f :
  (forall s, symbol_list s `prefix_of` symbol_list (f s)) ->
  steady X (update_ns ns f).
Proof.
  intros H g. unfold update_ns, modify. split.
  - intros q s Hs _ _. exists s. rewrite heap_set_ns.
    split; [done|apply kept_refl].
  - intros q. by rewrite temporaries_set_ns.
  - intros ns'. destruct ns, ns'; gsimpl; first [apply H | done].
Qed.

Lemma steady_update X p f :
  (X p \/ forall s, kept s (f s)) -> steady X (update p f).
Proof.
  intros H g. unfold update. destruct (heap g !! p) as [x|] eqn:Hx; [|done].
  split; gsimpl; [|done..].
  intros q s Hs _ Hq. destruct (decide (q = p)) as [->|Hne].
  - destruct H as [H|H]; [done|]. exists (f x).
    rewrite list_lookup_insert_eq by (by eapply lookup_lt_Some).
    split; [done|]. assert (x = s) as -> by congruence. apply H.
  - exists s. rewrite list_lookup_insert_ne by done.
    split; [done|apply kept_refl].
Qed.

Ltac keep :=
  right; intros ?; repeat split; first [reflexivity | cbn; lia].

Ltac outside :=
  intros ?; split; [reflexivity|]; split; [reflexivity|]; by intros [].

Ltac steadily :=
  repeat first
    [ apply steady_ret | apply steady_gets | apply steady_c_assert
    | apply steady_fail | apply steady_exit | apply steady_load
    | apply steady_error
    | apply steady_when
    | apply steady_bind; [|intros ?]
    | apply steady_update; first [by left | keep]
    | apply steady_modify; outside
    | apply steady_update_ns; intros ?; reflexivity
    | match goal with
      | |- steady _ (if ?b then _ else _) => destruct b
      | |- steady _ (match ?x with _ => _ end) => destruct x
      end ].

Lemma steady_sym_lookup X ns nm : steady X (sym_lookup ns nm).
Proof. unfold sym_lookup. steadily. Qed.

Lemma steady_sym_lookup_function X nm : steady X (sym_lookup_function nm).
Proof. unfold sym_lookup_function. steadily. Qed.

Lemma steady_current_scope_depth X ns : steady X (current_scope_depth ns).
Proof. unfold current_scope_depth. steadily. Qed.

Lemma steady_apply_type X p ty : steady X (apply_type p ty).
Proof. unfold apply_type. steadily. Qed.

Lemma steady_sym_make_visible X ns p : steady X (sym_make_visible ns p).
Proof. unfold sym_make_visible. steadily. Qed.

Lemma steady_sym_name X p : steady X (sym_name p).
Proof. unfold sym_name. steadily. Qed.

Lemma steady_push_scope X ns : steady X (push_scope ns).
Proof. unfold push_scope. steadily. Qed.

(** [alloc_sym] takes a record of the pool or a new one, never a
    record in use. *)
Lemma alloc_sym_stable X g :
  match alloc_sym g with
  | Return p g1 =>
      stable_except X g g1
      /\ (In p (temporaries g) \/ p = length (heap g))
  | Exit _ _ => False
  | Fault _ => True
  end.
Proof.
  unfold alloc_sym, bind, gets, modify, ret.
  destruct (array_pop_back (temporaries g)) as [[p rest]|] eqn:E.
  - apply array_pop_back_Some in E. unfold array_push_back in E.
    unfold update. gsimpl.
    destruct (heap g !! p) as [x|] eqn:Hx; [|done]. split.
    + split; gsimpl.
      * intros q s Hs Hq _. exists s. split; [|apply kept_refl].
        rewrite list_lookup_insert_ne; [done|]. intros ->. apply Hq.
        rewrite E. apply in_or_app. right. by left.
      * intros q Hq. rewrite E. apply in_or_app. by left.
      * intros ns. by destruct ns.
    + left. rewrite E. apply in_or_app. right. by left.
  - split; [|by right]. split; gsimpl.
    + intros q s Hs _ _. exists s. split; [|apply kept_refl].
      by apply lookup_app_l_Some.
    + done.
    + intros ns. by destruct ns.
Qed.

Lemma steady_after_alloc {A} X (k : ptr -> M A) :
  (forall p, steady (fun q => X q \/ q = p) (k p)) ->
  steady X (bind alloc_sym k).
Proof.
  intros Hk g. unfold bind. pose proof (alloc_sym_stable X g) as Ha.
  destruct (alloc_sym g) as [p g1| |]; [|done..].
  destruct Ha as [[H1 P1 L1] Hp]. specialize (Hk p g1).
  assert (Hgo : forall g', stable_except (fun q => X q \/ q = p) g1 g' ->
                           stable_except X g g').
  { intros g' [H2 P2 L2]. split.
    - intros q s Hs Hq Hx. destruct (H1 q s Hs Hq Hx) as (s1 & Hs1 & K1).
      destruct (H2 q s1 Hs1) as (s2 & Hs2 & K2).
      + by intros ?%P1.
      + intros [?| ->]; [done|]. destruct Hp as [Hp| ->]; [done|].
        apply lookup_lt_Some in Hs. lia.
      + exists s2. split; [done|]. by eapply kept_trans.
    - intros q Hq. by apply P1, P2.
    - intros ns. etrans; [apply L1|apply L2]. }
  destruct (k p g1); [by apply Hgo..|done].
Qed.

Ltac steadily_new :=
  repeat first
    [ apply steady_ret | apply steady_gets | apply steady_c_assert
    | apply steady_fail | apply steady_exit | apply steady_load
    | apply steady_error
    | apply steady_sym_name | apply steady_sym_make_visible
    | apply steady_when
    | apply steady_bind; [|intros ?]
    | apply steady_update; left; by right
    | apply steady_modify; outside
    | apply steady_update_ns; intros ?;
      first [reflexivity | by eexists]
    | match goal with
      | |- steady _ (if ?b then _ else _) => destruct b
      end ].

Lemma steady_sym_create_temporary X ty : steady X (sym_create_temporary ty).
Proof.
  unfold sym_create_temporary, bump_temporary, next_counter.
  apply steady_after_alloc. intros p. steadily_new.
Qed.

Lemma steady_sym_create_unnamed X ty : steady X (sym_create_unnamed ty).
Proof.
  unfold sym_create_unnamed, bump_unnamed, next_counter.
  apply steady_after_alloc. intros p.
  apply steady_bind; [apply steady_current_scope_depth|]. intros d.
  steadily_new.
Qed.

Lemma steady_sym_create_label X : steady X sym_create_label.
Proof.
  unfold sym_create_label, bump_label, next_counter.
  apply steady_after_alloc. intros p. steadily_new.
Qed.

Lemma steady_sym_create_constant X ty val :
  steady X (sym_create_constant ty val).
Proof.
  unfold sym_create_constant, bump_constant, next_counter.
  apply steady_after_alloc. intros p. steadily_new.
Qed.

Lemma steady_sym_create_string X str : steady X (sym_create_string str).
Proof.
  unfold sym_create_string, bump_string, next_counter.
  apply steady_after_alloc. intros p. steadily_new.
Qed.

Lemma steady_sym_add_create X ns nm ty kind link :
  steady X (sym_add_create ns nm ty kind link).
Proof.
  unfold sym_add_create, bump_sym_add, next_counter, type_set_tag.
  apply steady_after_alloc. intros p.
  apply steady_bind; [apply steady_current_scope_depth|]. intros d.
  steadily_new.
Qed.

(** The end of the coercion of a function declaration: the recorded
    depth is replaced only by a smaller one. *)
Lemma steady_lower_depth {A} X ns sym (a : A) :
  steady X
    (d <- current_scope_depth ns ;;
     s <- load sym ;;
     when (d <? depth s)%nat
       (d' <- current_scope_depth ns ;;
        update sym (set_depth d')) ;;;
     ret a).
Proof.
  intros g. unfold bind at 1.
  destruct (scope_len (get_ns ns g)) as [|k] eqn:E.
  { unfold current_scope_depth, bind, gets, c_assert. by rewrite E. }
  rewrite current_scope_depth_eq by lia.
  unfold bind at 1, load. destruct (heap g !! sym) as [s|] eqn:Hs; [|done].
  unfold bind at 1, when.
  destruct (Nat.ltb_spec (scope_len (get_ns ns g) - 1) (depth s)) as [Hd|_];
    [|apply stable_refl].
  unfold bind. rewrite current_scope_depth_eq by lia.
  rewrite (update_Some _ _ _ _ Hs). unfold ret. split; gsimpl; [|done..].
  intros q s0 Hs0 _ _. destruct (decide (q = sym)) as [->|Hne].
  - eexists. rewrite list_lookup_insert_eq by (by eapply lookup_lt_Some).
    split; [done|]. assert (s0 = s) as -> by congruence.
    repeat split. cbn. lia.
  - exists s0. rewrite list_lookup_insert_ne by done.
    split; [done|apply kept_refl].
Qed.

Lemma steady_sym_add_resolve X ns nm ty kind :
  steady X (sym_add_resolve ns nm ty kind).
Proof.
  unfold sym_add_resolve.
  destruct (negb (symtype_eqb kind SYM_STRING_VALUE)); [|apply steady_ret].
  apply steady_bind; [apply steady_sym_lookup|]. intros [q|];
    [apply steady_ret|].
  destruct (is_function ty); [|apply steady_ret].
  apply steady_bind; [apply steady_c_assert|]. intros _.
  apply steady_bind; [apply steady_sym_lookup_function|]. intros [q|];
    [|apply steady_ret].
  apply steady_bind; [apply steady_apply_type|]. intros _.
  apply steady_bind; [apply steady_sym_make_visible|]. intros _.
  apply steady_lower_depth.
Qed.

Lemma steady_sym_add_merge X ns nm ty kind link p :
  steady X (sym_add_merge ns nm ty kind link p).
Proof.
  unfold sym_add_merge.
  apply steady_bind; [apply steady_load|]. intros s.
  destruct (_ && _ && _).
  { apply steady_bind; [apply steady_apply_type|]. intros _.
    apply steady_ret. }
  apply steady_bind; [apply steady_current_scope_depth|]. intros d.
  destruct (_ && _).
  { apply steady_bind; [|intros _; apply steady_ret].
    repeat match goal with
           | |- steady _ (if ?b then _ else _) => destruct b
           end;
      repeat first
        [ apply steady_apply_type | apply steady_ret | apply steady_exit
        | apply steady_error | apply steady_when
        | apply steady_bind; [|intros ?]
        | apply steady_update; keep ]. }
  destruct (_ && _).
  { apply steady_bind; [apply steady_error|]. intros _. apply steady_exit. }
  apply steady_sym_add_create.
Qed.

Lemma steady_sym_add X ns nm ty kind link :
  steady X (sym_add ns nm ty kind link).
Proof.
  unfold sym_add.
  apply steady_bind; [apply steady_c_assert|]. intros _.
  apply steady_bind; [apply steady_c_assert|]. intros _.
  apply steady_bind; [apply steady_sym_add_resolve|]. intros [q|[q|]].
  - apply steady_ret.
  - apply steady_sym_add_merge.
  - apply steady_sym_add_create.
Qed.

(** The calls that declare, look up and generate symbols, and the
    opening of a scope. *)
Inductive declaring : forall A, M A -> Prop :=
| declaring_sym_add ns nm ty kind link :
    declaring ptr (sym_add ns nm ty kind link)
| declaring_sym_lookup ns nm : declaring (option ptr) (sym_lookup ns nm)
| declaring_push_scope ns : declaring unit (push_scope ns)
| declaring_temporary ty : declaring ptr (sym_create_temporary ty)
| declaring_unnamed ty : declaring ptr (sym_create_unnamed ty)
| declaring_label : declaring ptr sym_create_label
| declaring_constant ty val : declaring ptr (sym_create_constant ty val)
| declaring_string str : declaring ptr (sym_create_string str).

(** A symbol in use, one that was not given back with [sym_discard],
    keeps its identity through every call that declares, looks up or
    generates symbols or opens a scope, whether the call returns or
    ends the process: its record stays where it is, with the same name,
    counter and linkage, hence the same emitted name, and a depth that
    is not greater; the list of every namespace keeps its entries in
    place. *)
Theorem symbols_in_use_keep_their_identity A (m : M A) g g' q s :
  declaring A m ->
  (exists a, m g = Return a g') \/ (exists c, m g = Exit c g') ->
  heap g !! q = Some s ->
  ~ In q (temporaries g) ->
  (exists s',
     heap g' !! q = Some s'
     /\ name s' = name s /\ n s' = n s /\ linkage s' = linkage s
     /\ (depth s' <= depth s)%nat
     /\ emitted_name s' = emitted_name s)
  /\ forall ns, symbol_list (get_ns ns g) `prefix_of` symbol_list (get_ns ns g').
Proof.
  intros Hm Hrun Hs Hq.
  assert (Hst : stable_except (fun _ => False) g g').
  { assert (H : steady (fun _ => False) m).
    { destruct Hm.
      - apply steady_sym_add.
      - apply steady_sym_lookup.
      - apply steady_push_scope.
      - apply steady_sym_create_temporary.
      - apply steady_sym_create_unnamed.
      - apply steady_sym_create_label.
      - apply steady_sym_create_constant.
      - apply steady_sym_create_string. }
    specialize (H g). by destruct Hrun as [[a E]|[c E]]; rewrite E in H. }
  destruct Hst as [H _ L]. split; [|exact L].
  destruct (H q s Hs Hq) as (s' & Hs' & Hn & Hc & Hl & Hd); [tauto|].
  exists s'. repeat split; try done.
  unfold emitted_name, sym_name_text. by rewrite Hn, Hc.
Qed.

(** [int x;] and then [int y = ...;] at file scope. *)
Definition file_scope_x_y : global :=
  after (sym_add ns_ident "y" T_INT SYM_DEFINITION LINK_EXTERN) file_scope_x.

Lemma symbols_in_use_keep_their_identity_witness :
  (exists s',
     heap file_scope_x_y !! 0%nat = Some s'
     /\ name s' = "x" /\ n s' = 0 /\ linkage s' = LINK_EXTERN
     /\ (depth s' <= 0)%nat
     /\ emitted_name s' = "x")
  /\ forall ns,
       symbol_list (get_ns ns file_scope_x)
       `prefix_of` symbol_list (get_ns ns file_scope_x_y).
Proof.
  apply (symbols_in_use_keep_their_identity ptr
           (sym_add ns_ident "y" T_INT SYM_DEFINITION LINK_EXTERN)
           file_scope_x file_scope_x_y 0%nat
           (new_symbol "x" T_INT SYM_TENTATIVE LINK_EXTERN 0 0)).
  - apply declaring_sym_add.
  - left. exists 1%nat. vm_compute. reflexivity.
  - vm_compute. reflexivity.
  - vm_compute. intros [].
Defined.

(** *** In the older implementation *)

Definition legacy_kept (s s' : Legacy.symbol) : Prop :=
  Legacy.name s' = Legacy.name s /\ Legacy.linkage s' = Legacy.linkage s
  /\ Legacy.depth s' = Legacy.depth s /\ Legacy.n s' = Legacy.n s.

(** Every symbol of every namespace is still at its index, with the
    fields that say which symbol it is. *)
Definition legacy_stable (l l' : Legacy.global) : Prop :=
  forall ns j s,
    Legacy.symbol_list (Legacy.get_ns ns l) !! j = Some s ->
    exists s',
      Legacy.symbol_list (Legacy.get_ns ns l') !! j = Some s'
      /\ legacy_kept s s'.

Definition legacy_steady {A} (m : Legacy.M A) : Prop :=
  forall l,
    match m l with
    | Legacy.Return _ l' => legacy_stable l l'
    | Legacy.Exit _ l' => legacy_stable l l'
    | Legacy.Fault _ => True
    end.

Lemma legacy_kept_refl s : legacy_kept s s.
Proof. by repeat split. Qed.

Lemma legacy_stable_refl l : legacy_stable l l.
Proof. intros ns j s Hs. exists s. split; [done|apply legacy_kept_refl]. Qed.

Lemma legacy_stable_trans l1 l2 l3 :
  legacy_stable l1 l2 -> legacy_stable l2 l3 -> legacy_stable l1 l3.
Proof.
  intros H1 H2 ns j s Hs. destruct (H1 ns j s Hs) as (s2 & Hs2 & K1).
  destruct (H2 ns j s2 Hs2) as (s3 & Hs3 & K2). exists s3. split; [done|].
  destruct K1 as (? & ? & ? & ?), K2 as (? & ? & ? & ?).
  repeat split; congruence.
Qed.

Lemma legacy_steady_bind {A B} (m : Legacy.M A) (k : A -> Legacy.M B) :
  legacy_steady m -> (forall a, legacy_steady (k a)) ->
  legacy_steady (Legacy.bind m k).
Proof.
  intros Hm Hk l. unfold Legacy.bind. specialize (Hm l).
  destruct (m l) as [a l1|c l1|]; [|done..].
  specialize (Hk a l1).
  destruct (k a l1); [by eapply legacy_stable_trans..|done].
Qed.

Lemma legacy_steady_ret {A} (a : A) : legacy_steady (Legacy.ret a).
Proof. intros l. apply legacy_stable_refl. Qed.

Lemma legacy_steady_gets {A} (f : Legacy.global -> A) :
  legacy_steady (Legacy.gets f).
Proof. intros l. apply legacy_stable_refl. Qed.

Lemma legacy_steady_fail {A} f : legacy_steady (@Legacy.fail A f).
Proof. by intros l. Qed.

Lemma legacy_steady_exit {A} c : legacy_steady (@Legacy.exit A c).
Proof. intros l. apply legacy_stable_refl. Qed.

Lemma legacy_steady_c_assert b : legacy_steady (Legacy.c_assert b).
Proof. destruct b; [apply legacy_steady_ret|apply legacy_steady_fail]. Qed.

Lemma legacy_steady_when b m :
  legacy_steady m -> legacy_steady (Legacy.when b m).
Proof. intros H. destruct b; [done|apply legacy_steady_ret]. Qed.

Lemma legacy_steady_load ns i : legacy_steady (Legacy.load ns i).
Proof.
  intros l. unfold Legacy.load.
  destruct (_ !! i); [apply legacy_stable_refl|done].
Qed.

(** A change of the globals outside the symbol lists. *)
Lemma legacy_steady_modify f :
  (forall l ns, Legacy.symbol_list (Legacy.get_ns ns (f l))
                = Legacy.symbol_list (Legacy.get_ns ns l)) ->
  legacy_steady (Legacy.modify f).
Proof.
  intros H l ns j s Hs. exists s. rewrite H.
  split; [done|apply legacy_kept_refl].
Qed.

Lemma legacy_steady_error d : legacy_steady (Legacy.error d).
Proof. apply legacy_steady_modify. by intros l []. Qed.

(** A change of one namespace that leaves its symbols in place. *)
Lemma legacy_steady_update_ns ns f :
  (forall s, Legacy.symbol_list s `prefix_of` Legacy.symbol_list (f s)) ->
  legacy_steady (Legacy.update_ns ns f).
Proof.
  intros H l ns' j s Hs. exists s. split; [|apply legacy_kept_refl].
  unfold Legacy.update_ns, Legacy.modify.
  destruct (H (Legacy.get_ns ns l)) as [k Hk].
  destruct ns, ns'; cbn [Legacy.get_ns Legacy.set_ns Legacy.idents
                          Legacy.labels Legacy.tags] in *;
    first [done | rewrite Hk; by apply lookup_app_l_Some].
Qed.

Lemma legacy_steady_update ns i f :
  (forall s, legacy_kept s (f s)) -> legacy_steady (Legacy.update ns i f).
Proof.
  intros H l. unfold Legacy.update.
  destruct (Legacy.symbol_list (Legacy.get_ns ns l) !! i) as [x|] eqn:Hx;
    [|done].
  intros ns' j s Hs.
  destruct ns, ns'; cbn [Legacy.get_ns Legacy.set_ns Legacy.idents
                          Legacy.labels Legacy.tags Legacy.symbol_list] in *;
    try (exists s; split; [done|apply legacy_kept_refl]);
    (destruct (decide (j = i)) as [->|Hne];
     [ exists (f x);
       rewrite list_lookup_insert_eq by (by eapply lookup_lt_Some);
       split; [done|]; assert (x = s) as -> by congruence; apply H
     | exists s; rewrite list_lookup_insert_ne by done;
       split; [done|apply legacy_kept_refl] ]).
Qed.

Ltac legacy_keep := intros ?; repeat split; reflexivity.

Ltac legacy_steadily :=
  repeat first
    [ apply legacy_steady_ret | apply legacy_steady_gets
    | apply legacy_steady_c_assert | apply legacy_steady_fail
    | apply legacy_steady_exit | apply legacy_steady_load
    | apply legacy_steady_error | apply legacy_steady_when
    | apply legacy_steady_bind; [|intros ?]
    | apply legacy_steady_update; legacy_keep
    | apply legacy_steady_modify; by intros ? []
    | apply legacy_steady_update_ns; intros ?;
      first [reflexivity | by eexists]
    | match goal with
      | |- legacy_steady (if ?b then _ else _) => destruct b
      | |- legacy_steady (match ?x with _ => _ end) => destruct x
      end ].

Lemma legacy_steady_push_scope ns : legacy_steady (Legacy.push_scope ns).
Proof. unfold Legacy.push_scope. legacy_steadily. Qed.

Lemma legacy_steady_pop_scope ns : legacy_steady (Legacy.pop_scope ns).
Proof. unfold Legacy.pop_scope. legacy_steadily. Qed.

Lemma legacy_steady_sym_lookup ns nm : legacy_steady (Legacy.sym_lookup ns nm).
Proof. unfold Legacy.sym_lookup. legacy_steadily. Qed.

Lemma legacy_steady_apply_type ns i ty :
  legacy_steady (Legacy.apply_type ns i ty).
Proof. unfold Legacy.apply_type. legacy_steadily. Qed.

Lemma legacy_steady_sym_add_create ns arg :
  legacy_steady (Legacy.sym_add_create ns arg).
Proof.
  unfold Legacy.sym_add_create, Legacy.create_symbol,
    Legacy.register_in_scope.
  legacy_steadily.
Qed.

Lemma legacy_steady_sym_add_merge ns arg i :
  legacy_steady (Legacy.sym_add_merge ns arg i).
Proof.
  unfold Legacy.sym_add_merge.
  apply legacy_steady_bind; [apply legacy_steady_load|]. intros s.
  repeat match goal with
         | |- legacy_steady (if ?b then _ else _) => destruct b
         | |- legacy_steady (Legacy.bind _ _) =>
             apply legacy_steady_bind; [|intros ?]
         end;
    first [ apply legacy_steady_sym_add_create
          | apply legacy_steady_apply_type
          | legacy_steadily ].
Qed.

Lemma legacy_steady_sym_add ns arg : legacy_steady (Legacy.sym_add ns arg).
Proof.
  unfold Legacy.sym_add.
  apply legacy_steady_bind; [apply legacy_steady_sym_lookup|]. intros [i|].
  - apply legacy_steady_sym_add_merge.
  - apply legacy_steady_sym_add_create.
Qed.

(** The calls of [src/symtab.c] on the scopes and the symbols. *)
Inductive legacy_operation : forall A, Legacy.M A -> Prop :=
| legacy_operation_push ns : legacy_operation unit (Legacy.push_scope ns)
| legacy_operation_pop ns : legacy_operation unit (Legacy.pop_scope ns)
| legacy_operation_lookup ns nm :
    legacy_operation (option nat) (Legacy.sym_lookup ns nm)
| legacy_operation_add ns arg : legacy_operation nat (Legacy.sym_add ns arg).

(** In [src/symtab.c] a symbol stays at its index for good, with its
    name, linkage, depth and counter: no call on the scopes or the
    symbols, not even the pop of the outermost scope, removes or moves
    a symbol or changes these fields, whether the call returns or ends
    the process. *)
Theorem legacy_symbols_keep_their_identity A (m : Legacy.M A) l l' ns j s :
  legacy_operation A m ->
  (exists a, m l = Legacy.Return a l') \/ (exists c, m l = Legacy.Exit c l') ->
  Legacy.symbol_list (Legacy.get_ns ns l) !! j = Some s ->
  exists s',
    Legacy.symbol_list (Legacy.get_ns ns l') !! j = Some s'
    /\ Legacy.name s' = Legacy.name s
    /\ Legacy.linkage s' = Legacy.linkage s
    /\ Legacy.depth s' = Legacy.depth s
    /\ Legacy.n s' = Legacy.n s.
Proof.
  intros Hm Hrun Hs.
  assert (H : legacy_steady m).
  { destruct Hm.
    - apply legacy_steady_push_scope.
    - apply legacy_steady_pop_scope.
    - apply legacy_steady_sym_lookup.
    - apply legacy_steady_sym_add. }
  specialize (H l).
  assert (Hst : legacy_stable l l')
    by (by destruct Hrun as [[a E]|[c E]]; rewrite E in H).
  exact (Hst ns j s Hs).
Qed.

Lemma legacy_symbols_keep_their_identity_witness :
  exists s',
    Legacy.symbol_list
      (Legacy.idents (Legacy.after (Legacy.pop_scope ns_ident)
                        legacy_file_scope_x)) !! 0%nat = Some s'
    /\ Legacy.name s' = "x"
    /\ Legacy.linkage s' = LINK_EXTERN
    /\ Legacy.depth s' = 0
    /\ Legacy.n s' = 0.
Proof.
  apply (legacy_symbols_keep_their_identity unit (Legacy.pop_scope ns_ident)
           legacy_file_scope_x
           (Legacy.after (Legacy.pop_scope ns_ident) legacy_file_scope_x)
           ns_ident 0%nat
           (legacy_new_symbol (legacy_decl "x" T_INT SYM_TENTATIVE LINK_EXTERN)
              0 0)).
  - apply legacy_operation_pop.
  - left. exists tt. vm_compute. reflexivity.
  - vm_compute. reflexivity.
Defined.

(** ** The emitted name in the two implementations *)

(** The text behind the result of [sym_name] of [src/symtab.c]: the
    name, or what [snprintf (name, 127, "%s.%d", ...)] leaves in the
    static buffer. *)
Definition legacy_sym_name (s : Legacy.symbol) : string :=
  if Legacy.n s =? 0 then Legacy.name s
  else snprintf 127 (Legacy.name s ++ "." ++ fmt_d (Legacy.n s)).

Lemma length_substring (t : string) (k : nat) :
  String.length (String.substring 0 k t) = Nat.min k (String.length t).
Proof.
  revert k. induction t as [|c t IH]; intros k.
  - destruct k; reflexivity.
  - destruct k as [|k]; [reflexivity|]. cbn. by rewrite IH.
Qed.

(** For one symbol in both implementations, with a name that does not
    begin with a period, the two [sym_name] give the same text when
    the symbol has no counter or the name, a period and the counter
    take at most 126 characters.  Beyond that they differ: the older
    implementation keeps 126 characters, the parser's 127. *)
Theorem sym_name_agrees_up_to_126_characters s ls :
  sym_match s ls ->
  (forall rest, name s <> String "." rest) ->
  (n s = 0
   \/ (String.length (name s) + 1 + String.length (fmt_d (n s)) <= 126)%nat ->
   emitted_name s = legacy_sym_name ls)
  /\ (n s <> 0 ->
      (126 < String.length (name s) + 1 + String.length (fmt_d (n s)))%nat ->
      emitted_name s <> legacy_sym_name ls).
Proof.
  intros (Hn & _ & _ & _ & _ & Hc) Hdot.
  unfold emitted_name, legacy_sym_name, sym_name_text, snprintf.
  rewrite Hn, Hc.
  assert (Htext : match name s with
                  | String "." _ =>
                      String.substring 0 (128 - 1) (name s ++ fmt_d (n s))
                  | _ =>
                      String.substring 0 (128 - 1)
                        (name s ++ "." ++ fmt_d (n s))
                  end
                  = String.substring 0 127 (name s ++ "." ++ fmt_d (n s))).
  { destruct (name s) as [|c rest] eqn:E; [done|].
    destruct (Ascii.eqb_spec c ".") as [->|Hne]; [by destruct (Hdot rest)|].
    destruct c as [[] [] [] [] [] [] [] []]; try reflexivity.
    by destruct Hne. }
  rewrite Htext.
  assert (Hlen : String.length (name s ++ "." ++ fmt_d (n s))
                 = (String.length (name s) + 1
                    + String.length (fmt_d (n s)))%nat).
  { rewrite !length_append. cbn [String.length]. lia. }
  split.
  - intros H. destruct (Z.eqb_spec (n s) 0) as [|Hne]; [done|].
    destruct H as [|H]; [done|].
    rewrite !substring_all by (rewrite Hlen; lia). done.
  - intros Hne H. destruct (Z.eqb_spec (n s) 0) as [|_]; [done|].
    intros E. apply (f_equal String.length) in E.
    rewrite !length_substring, Hlen in E. lia.
Qed.

(** A [static int x] of a block, as both implementations record it. *)
Definition static_x : symbol :=
  new_symbol "x" T_INT SYM_DEFINITION LINK_INTERN 1 0.
Definition legacy_static_x : Legacy.symbol :=
  legacy_new_symbol (legacy_decl "x" T_INT SYM_DEFINITION LINK_INTERN) 1 0.

Lemma sym_name_agrees_up_to_126_characters_witness :
  emitted_name static_x = "x.1" /\ legacy_sym_name legacy_static_x = "x.1".
Proof.
  destruct (sym_name_agrees_up_to_126_characters static_x legacy_static_x)
    as [H _].
  - repeat split.
  - intros rest. discriminate.
  - split; [reflexivity|]. rewrite <- H; [reflexivity|].
    right. vm_compute. lia.
Defined.

(** ** A label that is used before it is defined *)

Lemma type_equal_refl : forall t, type_equal t t = true.
Proof.
  fix IH 1. intros [| | |x|r m v|x k]; cbn; try reflexivity.
  - apply IH.
  - rewrite IH, Bool.eqb_reflx. cbn.
    induction m as [|a m IHm]; [reflexivity|]. by rewrite IH, IHm.
  - by rewrite IH, N.eqb_refl.
Qed.

Lemma undefined_labels_ext h h' l :
  (forall q, In q l -> h' !! q = h !! q) ->
  undefined_labels h' l = undefined_labels h l.
Proof.
  intros H. unfold undefined_labels. induction l as [|q l IH]; [done|].
  cbn [flat_map]. rewrite (H q) by (by left). f_equal.
  apply IH. intros q' Hq'. apply H. by right.
Qed.

(** A label that is used before it is defined.  The use enters the
    name as a tentative symbol of the label namespace, the definition
    declares it again as a definition; both calls give the same
    symbol.  If the function ended after the use alone, the pop of the
    label scope would report the label as undefined; after the
    definition it reports nothing for it.  The labels entered before
    are reported as they would have been. *)
Theorem label_defined_after_use_is_not_reported nm ty link g :
  pool_valid g ->
  scope_len (labels g) = 1%nat ->
  (max_scope_depth (labels g) <= length (scope_frames (labels g)))%nat ->
  Forall (fun q => (q < length (heap g))%nat /\ ~ In q (temporaries g))
    (symbol_list (labels g)) ->
  is_function ty = false ->
  sym_lookup ns_label nm g = Return None g ->
  exists p g1 g2 early late,
    sym_add ns_label nm ty SYM_TENTATIVE link g = Return p g1
    /\ pop_scope ns_label g1 = Return tt early
    /\ diagnostics early
       = (diagnostics g
          ++ undefined_labels (heap g) (symbol_list (labels g))
          ++ [Undefined_label nm])%list
    /\ sym_add ns_label nm ty SYM_DEFINITION link g1 = Return p g2
    /\ pop_scope ns_label g2 = Return tt late
    /\ diagnostics late
       = (diagnostics g
          ++ undefined_labels (heap g) (symbol_list (labels g)))%list.
Proof.
  intros Hv Hlen Hmax Hlive Hnf Hlook.
  destruct (sym_lookup_None_inv _ _ _ _ Hlook) as (_ & Hscan & Hfit).
  cbn [get_ns] in Hscan, Hfit.
  destruct (lookup_lt_is_Some_2 (scope_frames (labels g)) 0) as [sc Hsc];
    [lia|].
  assert (Hprobe : hash_lookup (heap g) (visible_entries sc) nm = None).
  { rewrite <- probe_visible_entries.
    apply (proj1 (scan_scopes_None _ _ _ _ Hfit) Hscan 0%nat sc); [lia|done]. }
  (* the use *)
  assert (Hadd1 : sym_add ns_label nm ty SYM_TENTATIVE link g
                  = sym_add_create ns_label nm ty SYM_TENTATIVE link g).
  { rewrite (sym_add_new_name ns_label nm ty SYM_TENTATIVE link g);
      [|by split|done|done|by rewrite Hnf].
    unfold function_table_ready. by rewrite Hnf. }
  destruct (sym_add_create_visible ns_label nm ty SYM_TENTATIVE link g sc Hv)
    as (p & g1 & Hcreate & Hp & Hold & Hwhere & _ & Hns & _ & _ & _ & Hdg
        & Hfind);
    [cbn [get_ns]; lia | cbn [get_ns]; by rewrite Hlen | done |].
  cbv zeta in *. cbn [get_ns] in Hp, Hns, Hfind. rewrite Hlen in Hp, Hns, Hfind.
  cbn [Nat.sub] in Hp, Hns, Hfind.
  set (s := new_symbol nm ty SYM_TENTATIVE link 0 (n_sym_add g)) in *.
  assert (Hs0 : n s = 0).
  { unfold s, new_symbol. cbn [n Nat.eqb negb]. by rewrite andb_false_r. }
  assert (Hfresh : forall q, In q (symbol_list (labels g)) ->
                             q <> p /\ (q < length (heap g))%nat).
  { intros q Hq. rewrite Forall_forall in Hlive.
    destruct (Hlive q) as [Hlt Hnp]; [by apply list_elem_of_In|].
    split; [|done]. intros ->. destruct Hwhere as [?| ->]; [done|lia]. }
  assert (Hlt : (p < length (heap g1))%nat) by (by eapply lookup_lt_Some).
  assert (Hvalid : forall h : list symbol,
            length h = length (heap g1) ->
            Forall (fun q => (q < length h)%nat)
              (symbol_list (labels g) ++ [p])).
  { intros h Hh. apply Forall_app. split.
    - apply Forall_forall. intros q Hq%list_elem_of_In.
      destruct (Hfresh q Hq) as [Hne Hq'].
      assert (is_Some (heap g1 !! q)) as [y Hy%lookup_lt_Some].
      { rewrite (Hold q Hne). by apply lookup_lt_is_Some_2. }
      lia.
    - repeat constructor. lia. }
  (* the end of the function, after the use alone *)
  destruct (pop_scope_labels g1) as (early & Hpop1 & Hd1 & _).
  { by rewrite Hns. }
  { rewrite Hns. gsimpl. rewrite length_insert. lia. }
  { rewrite Hns. gsimpl. by apply Hvalid. }
  (* the definition *)
  set (g2 := with_heap
               (<[p := set_symtype SYM_DEFINITION (set_referenced true s)]>
                  (heap g1)) g1).
  assert (Hadd2 : sym_add ns_label nm ty SYM_DEFINITION link g1
                  = Return p g2).
  { rewrite (sym_add_at_file_scope ns_label nm ty SYM_DEFINITION link g1 p
               _ s ltac:(by split) ltac:(done) ltac:(cbn [get_ns]; by rewrite Hns)
               Hfind Hp eq_refl).
    - by rewrite linkage_eqb_refl.
    - unfold extern_completion. cbn [symtype_eqb]. by rewrite andb_false_r.
    - unfold already_applied. cbn [type s new_symbol].
      by rewrite type_equal_refl, Hnf. }
  destruct (pop_scope_labels g2) as (late & Hpop2 & Hd2 & _).
  { unfold g2. gsimpl. by rewrite Hns. }
  { unfold g2. gsimpl. rewrite Hns. gsimpl. rewrite length_insert. lia. }
  { unfold g2. gsimpl. rewrite Hns. gsimpl. apply Hvalid.
    by rewrite length_insert. }
  exists p, g1, g2, early, late.
  rewrite Hadd1. split; [exact Hcreate|]. split; [exact Hpop1|].
  assert (Hsame : forall h : list symbol,
            (forall q, q <> p -> h !! q = heap g1 !! q) ->
            undefined_labels h (symbol_list (labels g))
            = undefined_labels (heap g) (symbol_list (labels g))).
  { intros h Hh. apply undefined_labels_ext. intros q Hq.
    destruct (Hfresh q Hq) as [Hne _]. by rewrite Hh, Hold. }
  split.
  { rewrite Hd1, Hdg, Hns. gsimpl. unfold undefined_labels at 1.
    rewrite flat_map_app. fold (undefined_labels (heap g1) (symbol_list (labels g))).
    rewrite (Hsame (heap g1)) by done. cbn [flat_map]. rewrite Hp.
    cbn [symtype s new_symbol symtype_eqb]. unfold emitted_name.
    rewrite Hs0. cbn [Z.eqb name s new_symbol]. by rewrite app_nil_r. }
  split; [exact Hadd2|]. split; [exact Hpop2|].
  rewrite Hd2. unfold g2 at 1 2 3. gsimpl. rewrite Hdg, Hns. gsimpl.
  unfold undefined_labels at 1. rewrite flat_map_app.
  match goal with
  | |- context [flat_map ?f (symbol_list (labels g))] =>
      change (flat_map f (symbol_list (labels g)))
        with (undefined_labels
                (<[p := set_symtype SYM_DEFINITION (set_referenced true s)]>
                   (heap g1)) (symbol_list (labels g)))
  end.
  rewrite Hsame by (intros q Hq; by apply list_lookup_insert_ne).
  cbn [flat_map]. rewrite list_lookup_insert_eq by done.
  cbn [symtype set_symtype symtype_eqb]. by rewrite !app_nil_r.
Qed.

(** The start of a function body: the scope of the labels is open and
    no label was seen. *)
Definition function_body : global := after (push_scope ns_label) file_scope.

Lemma label_defined_after_use_is_not_reported_witness :
  exists p g1 g2 early late,
    sym_add ns_label "out" T_VOID SYM_TENTATIVE LINK_INTERN function_body
    = Return p g1
    /\ pop_scope ns_label g1 = Return tt early
    /\ diagnostics early = [Undefined_label "out"]
    /\ sym_add ns_label "out" T_VOID SYM_DEFINITION LINK_INTERN g1
       = Return p g2
    /\ pop_scope ns_label g2 = Return tt late
    /\ diagnostics late = [].
Proof.
  apply (label_defined_after_use_is_not_reported "out" T_VOID LINK_INTERN
           function_body).
  - constructor.
  - reflexivity.
  - vm_compute. lia.
  - constructor.
  - reflexivity.
  - reflexivity.
Defined.
